(** * The iteration harness of the MELTDOWN game (scripts/iterate-client.js)

    A shallow embedding of the browser-automation driver: the console error
    tracker, the canvas locator, the screenshot cascade, the action
    choreographer, the virtual time shim and the iteration controller.

    Conventions.
    - JavaScript strings are Rocq strings; numbers that the driver only
      counts with (iteration and frame counts, canvas dimensions) are
      integers, and the area of a canvas is the double their product
      rounds to; pointer coordinates are rationals.
    - The failure of an awaited call that the source wraps in try/catch is
      a value of the model. The components (locator, capture,
      choreographer) are given for calls that resolve; the controller
      [main_run] takes where an await outside a [try] rejects, or a call
      throws, and [main] is the run in which none does. *)

From Stdlib Require Import Ascii QArith.
From stdpp Require Import gmap strings list fin_maps pretty.

Open Scope string_scope.
Open Scope list_scope.
Open Scope nat_scope.

(** ** Console error records and their structural key *)

(** The two listeners of [main] build records [{ type, text }]. *)
Record ErrorRecord := mkError { type : string; text : string }.

#[global] Instance ErrorRecord_eq_dec : EqDecision ErrorRecord.
Proof. solve_decision. Defined.

(** [JSON.stringify] on a string: the quotation of ECMA-262
    (QuoteJSONString) on the characters of a byte string. *)
Definition dquote : ascii := "034"%char.
Definition backslash : ascii := "092"%char.

Definition hex_digit (n : nat) : ascii :=
  match String.get n "0123456789abcdef" with
  | Some c => c
  | None => "0"%char
  end.

Definition unicode_escape (c : ascii) : string :=
  let n := nat_of_ascii c in
  String backslash
    (String "u" (String "0" (String "0"
      (String (hex_digit (n / 16)) (String (hex_digit (n mod 16)) EmptyString))))).

Definition quote_char (c : ascii) : string :=
  let n := nat_of_ascii c in
  if decide (n = 8) then String backslash "b"
  else if decide (n = 9) then String backslash "t"
  else if decide (n = 10) then String backslash "n"
  else if decide (n = 12) then String backslash "f"
  else if decide (n = 13) then String backslash "r"
  else if decide (n = 34) then String backslash (String dquote EmptyString)
  else if decide (n = 92) then String backslash (String backslash EmptyString)
  else if decide (n < 32) then unicode_escape c
  else String c EmptyString.

Fixpoint quote_chars (s : string) : string :=
  match s with
  | EmptyString => EmptyString
  | String c s' => quote_char c +:+ quote_chars s'
  end.

Definition quote_json_string (s : string) : string :=
  String dquote (quote_chars s +:+ String dquote EmptyString).

(** [JSON.stringify(err)] for [err = { type, text }]: the own properties in
    creation order. *)
Definition JSON_stringify (err : ErrorRecord) : string :=
  "{" +:+ quote_json_string "type" +:+ ":" +:+ quote_json_string (type err)
      +:+ "," +:+ quote_json_string "text" +:+ ":" +:+ quote_json_string (text err)
      +:+ "}".

(** The value of a hexadecimal digit and of a one-letter escape. *)
Fixpoint index_of (c : ascii) (s : string) : option nat :=
  match s with
  | EmptyString => None
  | String x s' => if decide (x = c) then Some 0 else S <$> index_of c s'
  end.

Definition hex_value (c : ascii) : option nat := index_of c "0123456789abcdef".

Definition escape_value (c : ascii) : option ascii :=
  if decide (c = "b"%char) then Some "008"%char
  else if decide (c = "t"%char) then Some "009"%char
  else if decide (c = "n"%char) then Some "010"%char
  else if decide (c = "f"%char) then Some "012"%char
  else if decide (c = "r"%char) then Some "013"%char
  else if decide (c = dquote) then Some dquote
  else if decide (c = backslash) then Some backslash
  else None.

Definition read_more (c : ascii) (r : option (string * string)) : option (string * string) :=
  match r with
  | Some (s, rest) => Some (String c s, rest)
  | None => None
  end.

(** A reader for what [quote_json_string] writes, after the opening quote:
    the characters up to the closing quote, and what follows it. *)
Fixpoint unquote_chars (s : string) : option (string * string) :=
  match s with
  | EmptyString => None
  | String c r =>
      if decide (c = dquote) then Some (EmptyString, r)
      else if decide (c = backslash) then
        match r with
        | String e r1 =>
            if decide (e = "u"%char) then
              match r1 with
              | String _ (String _ (String h (String l r2))) =>
                  match hex_value h, hex_value l with
                  | Some a, Some b => read_more (ascii_of_nat (16 * a + b)) (unquote_chars r2)
                  | _, _ => None
                  end
              | _ => None
              end
            else
              match escape_value e with
              | Some x => read_more x (unquote_chars r1)
              | None => None
              end
        | EmptyString => None
        end
      else read_more c (unquote_chars r)
  end.

(** ** ConsoleErrorTracker *)

Record ConsoleErrorTracker := mkTracker {
  _seen : gset string;
  _errors : list ErrorRecord
}.

(** [constructor()] *)
Definition new_tracker : ConsoleErrorTracker :=
  {| _seen := ∅; _errors := [] |}.

(** [ingest(err)] *)
Definition ingest (err : ErrorRecord) (t : ConsoleErrorTracker) : ConsoleErrorTracker :=
  let key := JSON_stringify err in
  if decide (key ∈ _seen t) then t
  else {| _seen := {[key]} ∪ _seen t; _errors := _errors t ++ [err] |}.

(** [drain()]: the returned copy of the batch and the tracker afterwards. *)
Definition drain (t : ConsoleErrorTracker) : list ErrorRecord * ConsoleErrorTracker :=
  let out := _errors t in
  (out, {| _seen := _seen t; _errors := [] |}).

(** [get count()] *)
Definition count (t : ConsoleErrorTracker) : nat := length (_errors t).

(** A client of the tracker calls its two methods in some order. *)
Inductive TrackerOp :=
  | OpIngest (err : ErrorRecord)
  | OpDrain.

(** One call: the tracker afterwards and what the call returned to the
    client ([drain] returns a batch, [ingest] returns nothing). *)
Definition tracker_step (op : TrackerOp) (t : ConsoleErrorTracker)
  : option (list ErrorRecord) * ConsoleErrorTracker :=
  match op with
  | OpIngest e => (None, ingest e t)
  | OpDrain => let '(out, t') := drain t in (Some out, t')
  end.

(** A sequence of calls: the final tracker and the batches returned by the
    drains among them, in order. *)
Fixpoint tracker_run (ops : list TrackerOp) (t : ConsoleErrorTracker)
  : list (list ErrorRecord) * ConsoleErrorTracker :=
  match ops with
  | [] => ([], t)
  | op :: ops' =>
      let '(r, t1) := tracker_step op t in
      let '(rs, t2) := tracker_run ops' t1 in
      (match r with Some b => b :: rs | None => rs end, t2)
  end.

(** [n] ingestions of the same record. *)
Fixpoint ingest_n (n : nat) (e : ErrorRecord) (t : ConsoleErrorTracker) : ConsoleErrorTracker :=
  match n with
  | O => t
  | S n' => ingest_n n' e (ingest e t)
  end.

(** States the class can be in: those a sequence of calls reaches from the
    constructor. *)
Definition reachable_tracker (t : ConsoleErrorTracker) : Prop :=
  ∃ ops, (tracker_run ops new_tracker).2 = t.

(** The batch holds only records whose key is remembered, each key once. *)
Definition tracker_inv (t : ConsoleErrorTracker) : Prop :=
  (∀ e, e ∈ _errors t → JSON_stringify e ∈ _seen t)
  ∧ NoDup (JSON_stringify <$> _errors t).

(** ** Canvas locator *)

(** The four properties of a canvas element the driver reads: the backing
    store size ([unsigned long] in the DOM) and the layout size ([long], not
    negative). As JavaScript numbers they are whole doubles. *)
Record Canvas := mkCanvas {
  width : N;
  height : N;
  clientWidth : N;
  clientHeight : N
}.

(** [a || b] on numbers: [0] is the falsy one. *)
Definition num_or (a b : N) : N := if (a =? 0)%N then b else a.

(** The double a whole number is rounded to (IEEE 754 binary64, to nearest,
    ties to even): numbers below [2^53] are doubles; a longer one keeps its
    53 leading bits, rounded on the bits it drops. *)
Definition to_double (n : N) : N :=
  if (n <? 2 ^ 53)%N then n
  else
    let e := (N.log2 n - 52)%N in
    let q := N.shiftr n e in
    let r := N.land n (N.ones e) in
    let half := N.shiftl 1 (e - 1) in
    let q := if (half <? r)%N || ((r =? half)%N && N.odd q) then (q + 1)%N else q in
    N.shiftl q e.

(** The product of the two factors before rounding. *)
Definition exact_area (c : Canvas) : N :=
  (num_or (num_or (width c) (clientWidth c)) 0
   * num_or (num_or (height c) (clientHeight c)) 0)%N.

(** [(canvas.width || canvas.clientWidth || 0) * (canvas.height || canvas.clientHeight || 0)],
    a product of doubles. *)
Definition area (c : Canvas) : N := to_double (exact_area c).

(** The [for ... of document.querySelectorAll('canvas')] loop. An element is
    referred to by its position in document order; [i] is the position of
    the head of [cs]. *)
Fixpoint locate_loop (cs : list Canvas) (i : nat) (best : option nat) (bestArea : N)
  : option nat :=
  match cs with
  | [] => best
  | canvas :: cs' =>
      let a := area canvas in
      if (bestArea <? a)%N then locate_loop cs' (S i) (Some i) a
      else locate_loop cs' (S i) best bestArea
  end.

(** [getCanvasHandle(page)] on the canvases of the document, in document
    order; [None] is the [null] of [handle.asElement()]. *)
Definition getCanvasHandle (document : list Canvas) : option nat :=
  locate_loop document 0 None 0%N.

(** Position [i] holds a canvas of positive area that no canvas exceeds and
    no earlier canvas equals. *)
Definition first_maximal (document : list Canvas) (i : nat) : Prop :=
  ∃ c, document !! i = Some c
       ∧ (0 < area c)%N
       ∧ (∀ j c', document !! j = Some c' → (area c' ≤ area c)%N)
       ∧ (∀ j c', j < i → document !! j = Some c' → (area c' < area c)%N).

(** ** Screenshot capture *)

(** A [Buffer]: decoded from a base64 string by [Buffer.from], or PNG bytes
    handed over by the automation layer. *)
Inductive Buffer :=
  | Buffer_from (base64 : string)
  | Png (bytes : string).

Record BBox := mkBBox { bx : Q; by_ : Q; bwidth : Q; bheight : Q }.

(** What [c.toDataURL] is on the element. *)
Inductive DataURL :=
  | NotAFunction
  | ToDataURLThrows
  | ToDataURLReturns (data : string).

(** What the 2d probe of [isCanvasTransparent] meets: no context, an
    exception from [drawImage]/[getImageData], or the RGBA bytes of the
    [size] x [size] probe. *)
Inductive Probe :=
  | NoContext
  | ProbeThrows
  | ImageData (data : N → list N).

(** An element handle: the element and the answers of the calls made on it. *)
Record CanvasHandle := mkHandle {
  element : Canvas;
  toDataURL : DataURL;
  probe : Probe;
  element_screenshot : option Buffer;   (* [None]: [canvas.screenshot] rejects *)
  boundingBox : option BBox             (* [None]: [null] *)
}.

(** [data.indexOf(',')] and [data.slice(idx + 1)]: [None] is [-1]. *)
Fixpoint after_comma (data : string) : option string :=
  match data with
  | EmptyString => None
  | String c rest => if decide (c = ","%char) then Some rest else after_comma rest
  end.

(** [captureCanvasPngBase64(canvas)] *)
Definition captureCanvasPngBase64 (canvas : CanvasHandle) : string :=
  match toDataURL canvas with
  | NotAFunction => ""
  | ToDataURLThrows => ""
  | ToDataURLReturns data =>
      match after_comma data with
      | None => ""
      | Some payload => payload
      end
  end.

(** [for (let i = 3; i < data.length; i += 4) if (data[i] !== 0) return false; return true] *)
Fixpoint alpha_all_zero (data : list N) : bool :=
  match data with
  | _ :: _ :: _ :: a :: rest => if (a =? 0)%N then alpha_all_zero rest else false
  | _ => true
  end.

(** [c.width || c.clientWidth || 0] and [c.height || c.clientHeight || 0] *)
Definition probe_w (c : Canvas) : N := num_or (num_or (width c) (clientWidth c)) 0.
Definition probe_h (c : Canvas) : N := num_or (num_or (height c) (clientHeight c)) 0.

(** [Math.max(1, Math.min(16, w, h))] *)
Definition probe_size (c : Canvas) : N :=
  N.max 1 (N.min (N.min 16 (probe_w c)) (probe_h c)).

(** [isCanvasTransparent(canvas)] *)
Definition isCanvasTransparent (canvas : option CanvasHandle) : bool :=
  match canvas with
  | None => true
  | Some c =>
      let w := probe_w (element c) in
      let h := probe_h (element c) in
      if ((w =? 0) || (h =? 0))%N then true
      else
        let size := probe_size (element c) in
        match probe c with
        | NoContext => true
        | ProbeThrows => false
        | ImageData data => alpha_all_zero (data size)
        end
  end.

(** The page as far as the capturer and the choreographer use it. *)
Record Page := mkPage {
  page_screenshot : option BBox → Buffer;   (* [clip] or none *)
  advanceTime_is_function : bool
}.

(** The local [buffer] of [captureScreenshot] after the first strategy. *)
Definition strategy1 (canvas : option CanvasHandle) : option Buffer :=
  match canvas with
  | None => None
  | Some c =>
      let base64 := captureCanvasPngBase64 c in
      if decide (base64 = "") then None
      else if isCanvasTransparent canvas then None
      else Some (Buffer_from base64)
  end.

(** ... after the second ... *)
Definition strategy2 (canvas : option CanvasHandle) (buffer : option Buffer) : option Buffer :=
  match buffer, canvas with
  | None, Some c => element_screenshot c
  | _, _ => buffer
  end.

(** ... and after the third. *)
Definition strategy3 (page : Page) (canvas : option CanvasHandle) (buffer : option Buffer)
  : option Buffer :=
  match buffer with
  | Some _ => buffer
  | None =>
      let bbox := match canvas with Some c => boundingBox c | None => None end in
      match bbox with
      | Some b => Some (page_screenshot page (Some b))
      | None => Some (page_screenshot page None)
      end
  end.

(** [fs.writeFileSync(outPath, buffer)]: a [null] payload is a TypeError. *)
Inductive WriteResult :=
  | Written (data : Buffer)
  | WriteThrows.

Definition writeFileSync (buffer : option Buffer) : WriteResult :=
  match buffer with
  | Some b => Written b
  | None => WriteThrows
  end.

(** [captureScreenshot(page, canvas, outPath)]: what reaches [outPath]. *)
Definition captureScreenshot (page : Page) (canvas : option CanvasHandle) : WriteResult :=
  let buffer := strategy1 canvas in
  let buffer := strategy2 canvas buffer in
  let buffer := strategy3 page canvas buffer in
  writeFileSync buffer.

(** ** Action choreography *)

(** [KEY_MAP] *)
Definition KEY_MAP : gmap string string :=
  list_to_map
    [ ("up", "ArrowUp"); ("down", "ArrowDown"); ("left", "ArrowLeft");
      ("right", "ArrowRight"); ("enter", "Enter"); ("space", "Space");
      ("escape", "Escape"); ("tab", "Tab"); ("w", "KeyW"); ("a", "KeyA");
      ("s", "KeyS"); ("d", "KeyD"); ("f", "KeyF"); ("m", "KeyM") ].

(** The table is an object literal, so a lookup that finds no property of
    its own goes on to [Object.prototype]: these names find a member there
    (a function, or for [__proto__] the prototype itself). *)
Definition Object_prototype : list string :=
  [ "constructor"; "__defineGetter__"; "__defineSetter__"; "hasOwnProperty";
    "__lookupGetter__"; "__lookupSetter__"; "isPrototypeOf"; "propertyIsEnumerable";
    "toString"; "valueOf"; "__proto__"; "toLocaleString" ].

(** What the automation layer is handed as a key: a string, or the member
    of [Object.prototype] the lookup found under a name. *)
Inductive Key :=
  | key_name (name : string)
  | inherited_member (name : string).

Coercion key_name : string >-> Key.

(** [KEY_MAP[button] || button]. Every value of the table is a non-empty
    string and every inherited member is an object, all truthy, so [||]
    falls back to the name exactly when the lookup finds nothing. *)
Definition translate_key (button : string) : Key :=
  match KEY_MAP !! button with
  | Some key => key_name key
  | None => if bool_decide (button ∈ Object_prototype) then inherited_member button
            else key_name button
  end.

(** One step of an action list, as parsed from JSON: every field may be
    absent; [frames] and [wait_ms] are integers when present. *)
Record Step := mkStep {
  buttons : option (list string);
  frames : option Z;
  mouse_x : option Q;
  mouse_y : option Q;
  wait_ms : option Z
}.

(** [new Set(xs)]: the elements in first-insertion order. *)
Definition new_Set (xs : list string) : list string :=
  fold_left (λ acc x, if decide (x ∈ acc) then acc else acc ++ [x]) xs [].

Inductive MouseButton := left | right.

(** What the automation layer is asked to do, in the order of the awaits. *)
Inductive InputEvent :=
  | mouse_move (x y : Q)
  | mouse_down (button : MouseButton)
  | mouse_up (button : MouseButton)
  | keyboard_down (key : Key)
  | keyboard_up (key : Key)
  | evaluate_frame (advanceTime : option Q)   (* the round trip; [Some ms] when it awaits [advanceTime(ms)] *)
  | sleep (ms : Z)
  | page_click (selector : string).

(** The driver's commands run against the session's record of requests. *)
Definition Cmd (A : Type) : Type := list InputEvent → A * list InputEvent.

#[global] Instance Cmd_ret : MRet Cmd := λ A a log, (a, log).
#[global] Instance Cmd_bind : MBind Cmd :=
  λ A B k m log, let '(a, log') := m log in k a log'.

Definition emit (e : InputEvent) : Cmd unit := λ log, (tt, log ++ [e]).

(** [for (const x of xs) body(x)] *)
Fixpoint for_of {A} (xs : list A) (body : A → Cmd unit) : Cmd unit :=
  match xs with
  | [] => mret tt
  | x :: xs' => body x ;; for_of xs' body
  end.

(** [for (let f = 0; f < frames; f++) body], with [n] the number of [f]
    below [frames]. *)
Fixpoint for_frames (n : nat) (body : Cmd unit) : Cmd unit :=
  match n with
  | O => mret tt
  | S n' => body ;; for_frames n' body
  end.

Definition is_mouse_button (button : string) : bool :=
  bool_decide (button = "left_mouse_button") || bool_decide (button = "right_mouse_button").

(** [button === 'left_mouse_button' ? 'left' : 'right'] *)
Definition mouse_button_of (button : string) : MouseButton :=
  if decide (button = "left_mouse_button") then left else right.

(** The body of the press loop. *)
Definition press (canvas : option CanvasHandle) (step : Step) (button : string) : Cmd unit :=
  if is_mouse_button button then
    let bbox := match canvas with Some c => boundingBox c | None => None end in
    match bbox with
    | None => mret tt                                  (* [continue] *)
    | Some bbox =>
        let x := match mouse_x step with Some x => x | None => (bwidth bbox / 2)%Q end in
        let y := match mouse_y step with Some y => y | None => (bheight bbox / 2)%Q end in
        emit (mouse_move (bx bbox + x)%Q (by_ bbox + y)%Q) ;;
        emit (mouse_down (mouse_button_of button))
    end
  else
    emit (keyboard_down (translate_key button)).

(** The body of the release loop. *)
Definition release (button : string) : Cmd unit :=
  if is_mouse_button button then emit (mouse_up (mouse_button_of button))
  else emit (keyboard_up (translate_key button)).

(** [step.frames || 1] *)
Definition frames_or_1 (step : Step) : Z :=
  match frames step with
  | None => 1
  | Some n => if (n =? 0)%Z then 1 else n
  end.

(** The page function of the frame loop. *)
Definition advance_frame (page : Page) : Cmd unit :=
  emit (evaluate_frame (if advanceTime_is_function page then Some (1000 # 60)%Q else None)).

(** The body of [for (const step of steps)]. *)
Definition run_step (page : Page) (canvas : option CanvasHandle) (step : Step) : Cmd unit :=
  let buttons := new_Set (default [] (buttons step)) in
  for_of buttons (press canvas step) ;;
  for_frames (Z.to_nat (frames_or_1 step)) (advance_frame page) ;;
  for_of buttons release ;;
  match wait_ms step with
  | Some ms => if (ms =? 0)%Z then mret tt else emit (sleep ms)
  | None => mret tt
  end.

(** [runActions(page, canvas, steps)] *)
Definition runActions (page : Page) (canvas : option CanvasHandle) (steps : list Step) : Cmd unit :=
  for_of steps (run_step page canvas).

(** The requests of one step, from an empty record. *)
Definition step_events (page : Page) (canvas : option CanvasHandle) (step : Step) : list InputEvent :=
  (run_step page canvas step []).2.

Definition is_press_event (e : InputEvent) : bool :=
  match e with
  | mouse_move _ _ | mouse_down _ | keyboard_down _ => true
  | _ => false
  end.

Definition is_advance_event (e : InputEvent) : bool :=
  match e with evaluate_frame _ => true | _ => false end.

Definition is_release_event (e : InputEvent) : bool :=
  match e with
  | mouse_up _ | keyboard_up _ => true
  | _ => false
  end.

(** The requests the press loop makes for one button, and those the
    release loop makes. *)
Definition press_requests (canvas : option CanvasHandle) (step : Step) (button : string)
  : list InputEvent :=
  (press canvas step button []).2.

Definition release_requests (button : string) : list InputEvent :=
  (release button []).2.

(** How many frame-advance round trips a record of requests holds. *)
Definition advances (evs : list InputEvent) : nat :=
  length (filter (λ e, is_advance_event e = true) evs).

(** A button in its translated form, as the automation layer receives it. *)
Inductive Held :=
  | held_mouse (button : MouseButton)
  | held_key (key : Key).

Definition pressed_of (e : InputEvent) : option Held :=
  match e with
  | mouse_down b => Some (held_mouse b)
  | keyboard_down k => Some (held_key k)
  | _ => None
  end.

Definition released_of (e : InputEvent) : option Held :=
  match e with
  | mouse_up b => Some (held_mouse b)
  | keyboard_up k => Some (held_key k)
  | _ => None
  end.

(** The buttons a record of requests pressed, and those it released. *)
Definition pressed (evs : list InputEvent) : list Held := omap pressed_of evs.
Definition released (evs : list InputEvent) : list Held := omap released_of evs.

(** The translated form of a button name. *)
Definition held_of (button : string) : Held :=
  if is_mouse_button button then held_mouse (mouse_button_of button)
  else held_key (translate_key button).

(** A command that only adds the requests [evs] to the record. *)
Definition appends (m : Cmd unit) (evs : list InputEvent) : Prop :=
  ∀ log, m log = (tt, log ++ evs).

(** The press loop issues a press for [button]: always for a key, for a
    mouse button when the canvas has a bounding box. *)
Definition has_bbox (canvas : option CanvasHandle) : bool :=
  match canvas ≫= boundingBox with Some _ => true | None => false end.

Definition press_issued (canvas : option CanvasHandle) (button : string) : bool :=
  negb (is_mouse_button button) || has_bbox canvas.

(** The request of one frame advance. *)
Definition frame_request (page : Page) : InputEvent :=
  evaluate_frame (if advanceTime_is_function page then Some (1000 # 60)%Q else None).

Definition is_sleep_event (e : InputEvent) : bool :=
  match e with sleep _ => true | _ => false end.

(** ** Virtual time shim *)

(** The browser's own timer table holds the closures the shim hands to
    [origSetTimeout] and [origSetInterval]; each closure captured its [task]
    object. Objects are named by their allocation number. *)
Inductive TimerKind := Timeout | Interval.

(** The closures given to [origRAF]: the wrapper of a page callback with
    its [task], or the [step] function of [advanceTime]. *)
Inductive FrameCallback :=
  | wrapped_frame (task : nat)
  | advance_step.

Record Window := mkWindow {
  pending : gset nat;                       (* [const pending = new Set()] *)
  next_task : nat;                          (* objects [{}] allocated so far *)
  timers : gmap nat (TimerKind * nat);      (* live native timers, by id *)
  next_timer : nat;
  frame_requests : gmap nat FrameCallback;  (* live native frame requests, by id *)
  next_frame : nat
}.

(** The window right after the init script ran. *)
Definition install_shim : Window :=
  {| pending := ∅; next_task := 0;
     timers := ∅; next_timer := 1;
     frame_requests := ∅; next_frame := 1 |}.

(** What page code and the event loop can do to the shimmed window. The
    three cancelling functions are the browser's own: the shim does not
    replace them. *)
Inductive ShimCall :=
  | setTimeout
  | setInterval
  | requestAnimationFrame
  | advanceTime
  | clearTimeout (id : nat)
  | clearInterval (id : nat)
  | cancelAnimationFrame (id : nat)
  | fire_timer (id : nat)                    (* the event loop runs timer [id] *)
  | fire_frame (id : nat) (elapsed : bool)   (* ... frame callback [id]; [elapsed]: [now - start >= ms] *)
  | drainVirtualTimePending.

(** [window.setTimeout = (fn, t, ...rest) => ...] and its two siblings:
    the returned native id and the window afterwards. *)
Definition shim_setTimeout (w : Window) : nat * Window :=
  let task := next_task w in
  (next_timer w,
   {| pending := {[task]} ∪ pending w; next_task := S task;
      timers := <[next_timer w := (Timeout, task)]> (timers w);
      next_timer := S (next_timer w);
      frame_requests := frame_requests w; next_frame := next_frame w |}).

Definition shim_setInterval (w : Window) : nat * Window :=
  let task := next_task w in
  (next_timer w,
   {| pending := {[task]} ∪ pending w; next_task := S task;
      timers := <[next_timer w := (Interval, task)]> (timers w);
      next_timer := S (next_timer w);
      frame_requests := frame_requests w; next_frame := next_frame w |}).

Definition shim_requestAnimationFrame (w : Window) : nat * Window :=
  let task := next_task w in
  (next_frame w,
   {| pending := {[task]} ∪ pending w; next_task := S task;
      timers := timers w; next_timer := next_timer w;
      frame_requests := <[next_frame w := wrapped_frame task]> (frame_requests w);
      next_frame := S (next_frame w) |}).

(** [origRAF(step)] *)
Definition origRAF_step (w : Window) : Window :=
  {| pending := pending w; next_task := next_task w;
     timers := timers w; next_timer := next_timer w;
     frame_requests := <[next_frame w := advance_step]> (frame_requests w);
     next_frame := S (next_frame w) |}.

(** The browser's [clearTimeout]/[clearInterval] (one table for both). *)
Definition native_clear_timer (id : nat) (w : Window) : Window :=
  {| pending := pending w; next_task := next_task w;
     timers := delete id (timers w); next_timer := next_timer w;
     frame_requests := frame_requests w; next_frame := next_frame w |}.

(** The browser's [cancelAnimationFrame]. *)
Definition native_cancel_frame (id : nat) (w : Window) : Window :=
  {| pending := pending w; next_task := next_task w;
     timers := timers w; next_timer := next_timer w;
     frame_requests := delete id (frame_requests w); next_frame := next_frame w |}.

(** [pending.delete(task)] *)
Definition pending_delete (task : nat) (w : Window) : Window :=
  {| pending := pending w ∖ {[task]}; next_task := next_task w;
     timers := timers w; next_timer := next_timer w;
     frame_requests := frame_requests w; next_frame := next_frame w |}.

(** The event loop runs the closure of timer [id]: a timeout is one-shot
    and its closure deletes the task; an interval stays and its closure
    only calls [fn]. What [fn] itself does to the window are later calls. *)
Definition run_timer (id : nat) (w : Window) : Window :=
  match timers w !! id with
  | Some (Timeout, task) => pending_delete task (native_clear_timer id w)
  | Some (Interval, _) => w
  | None => w
  end.

(** The event loop runs frame callback [id]. *)
Definition run_frame (id : nat) (elapsed : bool) (w : Window) : Window :=
  match frame_requests w !! id with
  | Some (wrapped_frame task) => pending_delete task (native_cancel_frame id w)
  | Some advance_step =>
      if elapsed then native_cancel_frame id w
      else origRAF_step (native_cancel_frame id w)
  | None => w
  end.

(** [window.__drainVirtualTimePending = () => pending.size] *)
Definition shim_drainVirtualTimePending (w : Window) : nat := size (pending w).

(** One call: what it returns (an id or the count) and the window afterwards. *)
Definition shim_step (c : ShimCall) (w : Window) : option nat * Window :=
  match c with
  | setTimeout => let '(id, w') := shim_setTimeout w in (Some id, w')
  | setInterval => let '(id, w') := shim_setInterval w in (Some id, w')
  | requestAnimationFrame => let '(id, w') := shim_requestAnimationFrame w in (Some id, w')
  | advanceTime => (None, origRAF_step w)
  | clearTimeout id => (None, native_clear_timer id w)
  | clearInterval id => (None, native_clear_timer id w)
  | cancelAnimationFrame id => (None, native_cancel_frame id w)
  | fire_timer id => (None, run_timer id w)
  | fire_frame id elapsed => (None, run_frame id elapsed w)
  | drainVirtualTimePending => (Some (shim_drainVirtualTimePending w), w)
  end.

Definition shim_run (cs : list ShimCall) (w : Window) : Window :=
  fold_left (λ w c, (shim_step c w).2) cs w.

(** The windows a page can be in. *)
Definition reachable_window (w : Window) : Prop :=
  ∃ cs, shim_run cs install_shim = w.

(** The task of a wrapped one-shot callback that call [c] cancels in [w]. *)
Definition cancelled_by (c : ShimCall) (w : Window) : list nat :=
  match c with
  | clearTimeout id | clearInterval id =>
      match timers w !! id with
      | Some (Timeout, task) => [task]
      | _ => []
      end
  | cancelAnimationFrame id =>
      match frame_requests w !! id with
      | Some (wrapped_frame task) => [task]
      | _ => []
      end
  | _ => []
  end.

(** The tasks of all one-shot callbacks cancelled along a run. *)
Fixpoint cancellations (cs : list ShimCall) (w : Window) : list nat :=
  match cs with
  | [] => []
  | c :: cs' => cancelled_by c w ++ cancellations cs' (shim_step c w).2
  end.

(** A one-shot closure that captured [task] is still to run. *)
Definition awaited (task : nat) (w : Window) : Prop :=
  (∃ id, timers w !! id = Some (Timeout, task))
  ∨ (∃ id, frame_requests w !! id = Some (wrapped_frame task)).

(** What holds of every window the page can be in: tasks and ids are
    allocated in order, the task of every live closure is pending, and no
    two live closures captured the same task. *)
Definition window_inv (w : Window) : Prop :=
  (∀ task, task ∈ pending w → task < next_task w)
  ∧ (∀ id k task, timers w !! id = Some (k, task) → task ∈ pending w ∧ id < next_timer w)
  ∧ (∀ id cb, frame_requests w !! id = Some cb → id < next_frame w)
  ∧ (∀ id task, frame_requests w !! id = Some (wrapped_frame task) → task ∈ pending w)
  ∧ (∀ id1 id2 k1 k2 task,
       timers w !! id1 = Some (k1, task) → timers w !! id2 = Some (k2, task) → id1 = id2)
  ∧ (∀ id1 id2 task,
       frame_requests w !! id1 = Some (wrapped_frame task) →
       frame_requests w !! id2 = Some (wrapped_frame task) → id1 = id2)
  ∧ (∀ id1 id2 k task,
       timers w !! id1 = Some (k, task) →
       frame_requests w !! id2 = Some (wrapped_frame task) → False).

(** A pending task that no one-shot closure will delete. *)
Definition leaked (task : nat) (w : Window) : Prop :=
  task ∈ pending w ∧ ¬ awaited task w.

(** ** Iteration controller *)

(** What the page reports to the two listeners of [main]. *)
Inductive PageEvent :=
  | console (msg_type msg_text : string)   (* [page.on('console', msg => ...)] *)
  | pageerror (err : string).              (* [page.on('pageerror', err => ...)], [String(err)] *)

(** The listeners. *)
Definition on_event (ev : PageEvent) (errors : ConsoleErrorTracker) : ConsoleErrorTracker :=
  match ev with
  | console ty tx =>
      if decide (ty = "error") then ingest {| type := "console.error"; text := tx |} errors
      else errors
  | pageerror e => ingest {| type := "pageerror"; text := e |} errors
  end.

Definition deliver (evs : list PageEvent) (errors : ConsoleErrorTracker) : ConsoleErrorTracker :=
  fold_left (λ t ev, on_event ev t) evs errors.

(** The page during one stretch of the run (the boot phase, or one
    iteration): the events it reports before the drain that ends the
    stretch, its canvas elements in document order, what a handle to each
    element answers, and its text state hooks. An element is named by its
    allocation number: the same number in two moments is the same element,
    wherever it then stands in the document, and an element that left the
    document still answers through a handle taken earlier. *)
Record Moment := mkMoment {
  events : list PageEvent;
  document : list nat;
  element_handle : nat → CanvasHandle;
  page : Page;
  render_game_to_text : option string;   (* [None]: not a function *)
  GAME_STATE : option string             (* [None]: falsy; else its [JSON.stringify] *)
}.

(** The page over a whole run. *)
Record World := mkWorld {
  boot : Moment;
  iteration : nat → Moment
}.

(** The fields of [args] that [main] reads after the page is loaded.
    [iterations] is the [parseInt] of the flag; a count that is not a
    number runs the loop as a count of [0] does, since [i < NaN] is false. *)
Record Args := mkArgs {
  iterations : Z;
  pauseMs : Z;
  clickSelector : option string
}.

(** The files of the screenshot directory. *)
Inductive Artifact :=
  | shot (i : nat)
  | state (i : nat)
  | errors_json (i : nat)
  | errors_boot.

#[global] Instance Artifact_eq_dec : EqDecision Artifact.
Proof. solve_decision. Defined.

Definition artifact_name (a : Artifact) : string :=
  match a with
  | shot i => "shot-" +:+ pretty i +:+ ".png"
  | state i => "state-" +:+ pretty i +:+ ".json"
  | errors_json i => "errors-" +:+ pretty i +:+ ".json"
  | errors_boot => "errors-boot.json"
  end.

Inductive Content :=
  | image (b : Buffer)
  | raw_text (s : string)
  | error_list (errs : list ErrorRecord).   (* [JSON.stringify(errs, null, 2)] *)

(** The locals of [main] that change while it runs, with the files written
    and the input requests made so far. *)
Record Run := mkRun {
  errors : ConsoleErrorTracker;
  canvas : option nat;
  hadErrors : bool;
  written : list (Artifact * Content);
  requests : list InputEvent
}.

(** How the loop is left: by [break], by its condition, or by a rejected
    await (which skips the rest of [main]). *)
Inductive LoopEnd :=
  | loop_break
  | loop_done
  | loop_rejected.

(** The page function of the text state capture. *)
Definition capture_text_state (m : Moment) : option string :=
  match render_game_to_text m with
  | Some s => Some s
  | None => GAME_STATE m
  end.

(** [if (textState)] *)
Definition truthy_text (s : option string) : bool :=
  match s with
  | Some s => negb (bool_decide (s = ""))
  | None => false
  end.

(** [await getCanvasHandle(page)] on the page of a moment: a handle to the
    element the locator finds among the canvases of the document. *)
Definition getCanvasHandle_on (m : Moment) : option nat :=
  position ← getCanvasHandle ((λ e, element (element_handle m e)) <$> document m);
  document m !! position.

(** [if (!canvas) canvas = await getCanvasHandle(page)] *)
Definition locate (m : Moment) (held : option nat) : option nat :=
  match held with
  | Some c => Some c
  | None => getCanvasHandle_on m
  end.

(** Where [main] is left by an await that rejects or a call that throws:
    none of these is inside a [try]. Before the loop: anything from
    [chromium.launch] to the first [getCanvasHandle], or the write of
    [errors-boot.json]. In an iteration: [getCanvasHandle], [runActions]
    when [sent] of its requests have been made, [captureScreenshot],
    the text state ([page.evaluate] or the write of the state file), or the
    write of the error file. A write that throws leaves no file. *)
Inductive BootRejection :=
  | rejected_before_click
  | rejected_writing_boot_errors.

Inductive IterationRejection :=
  | rejected_locating
  | rejected_acting (sent : nat)
  | rejected_capturing
  | rejected_text_state
  | rejected_writing_errors.

(** What goes wrong during a run, if the run gets there: before the loop,
    in the iteration of each index, and in [browser.close()]. *)
Record Rejections := mkRejections {
  at_boot : option BootRejection;
  at_iteration : nat → option IterationRejection;
  at_close : bool
}.

(** Every await resolves and no call throws. *)
Definition all_resolve : Rejections := mkRejections None (λ _, None) false.

Definition is_locating (rejected : option IterationRejection) : bool :=
  match rejected with Some rejected_locating => true | _ => false end.

Definition is_capturing (rejected : option IterationRejection) : bool :=
  match rejected with Some rejected_capturing => true | _ => false end.

Definition is_text_state (rejected : option IterationRejection) : bool :=
  match rejected with Some rejected_text_state => true | _ => false end.

Definition is_writing_errors (rejected : option IterationRejection) : bool :=
  match rejected with Some rejected_writing_errors => true | _ => false end.

(** The number of requests after which [runActions] rejects, of the
    [total] it would make. *)
Definition acting_cut (rejected : option IterationRejection) (total : nat) : option nat :=
  match rejected with
  | Some (rejected_acting sent) => if decide (sent ≤ total) then Some sent else None
  | _ => None
  end.

(** The body of the iteration loop for index [i]. *)
Definition iteration_body (rejected : option IterationRejection)
    (args : Args) (steps : list Step) (m : Moment) (i : nat) (r : Run)
  : LoopEnd * Run :=
  let errors := deliver (events m) (errors r) in
  let leave canvas written requests :=
    (loop_rejected,
     {| errors := errors; canvas := canvas; hadErrors := hadErrors r;
        written := written; requests := requests |}) in
  if is_locating rejected && bool_decide (canvas r = None)
  then leave None (written r) (requests r)
  else
    let canvas := locate m (canvas r) in
    let handle := element_handle m <$> canvas in
    let choreography := (runActions (page m) handle steps []).2 in
    match acting_cut rejected (length choreography) with
    | Some sent => leave canvas (written r) (requests r ++ take sent choreography)
    | None =>
        let requests := requests r ++ choreography ++ [sleep (pauseMs args)] in
        if is_capturing rejected then leave canvas (written r) requests
        else
          match captureScreenshot (page m) handle with
          | WriteThrows => leave canvas (written r) requests
          | Written png =>
              let written := written r ++ [(shot i, image png)] in
              if is_text_state rejected then leave canvas written requests
              else
                let textState := capture_text_state m in
                let written :=
                  if truthy_text textState
                  then written ++ [(state i, raw_text (default "" textState))]
                  else written in
                let '(freshErrors, errors) := drain errors in
                match freshErrors with
                | [] =>
                    (loop_done,
                     {| errors := errors; canvas := canvas; hadErrors := hadErrors r;
                        written := written; requests := requests |})
                | _ :: _ =>
                    if is_writing_errors rejected
                    then (loop_rejected,
                          {| errors := errors; canvas := canvas; hadErrors := hadErrors r;
                             written := written; requests := requests |})
                    else (loop_break,
                          {| errors := errors; canvas := canvas; hadErrors := true;
                             written := written ++ [(errors_json i, error_list freshErrors)];
                             requests := requests |})
                end
          end
    end.

(** [for (let i = 0; i < args.iterations; i++)], entered at index [i] with
    [n] indices still below [args.iterations]. *)
Fixpoint iteration_loop (rejections : Rejections) (args : Args) (steps : list Step)
    (w : World) (n i : nat) (r : Run) : LoopEnd * Run :=
  match n with
  | O => (loop_done, r)
  | S n' =>
      match iteration_body (at_iteration rejections i) args steps (iteration w i) i r with
      | (loop_done, r') => iteration_loop rejections args steps w n' (S i) r'
      | stop => stop
      end
  end.

(** The end of the process. *)
Record Outcome := mkOutcome {
  files : list (Artifact * Content);
  input : list InputEvent;
  browser_closed : bool;
  exit_code : Z
}.

(** The request of [if (args.clickSelector) ... await page.click(...)]. Its
    [try] absorbs a click that fails. *)
Definition click_request (args : Args) : list InputEvent :=
  match clickSelector args with
  | Some selector => if decide (selector = "") then [] else [page_click selector]
  | None => []
  end.

(** [main()] from the launch of the browser on, with [main().catch]: a
    rejection skips the rest of [main], [browser.close()] included, and
    the process exits with status 1. *)
Definition main_run (rejections : Rejections) (args : Args) (steps : list Step) (w : World)
  : Outcome :=
  let left_with files input :=
    {| files := files; input := input; browser_closed := false; exit_code := 1 |} in
  match at_boot rejections with
  | Some rejected_before_click => left_with [] []
  | boot_rejection =>
      let errors := deliver (events (boot w)) new_tracker in
      let canvas := getCanvasHandle_on (boot w) in
      let clicks := click_request args in
      let '(bootErrors, errors) := drain errors in
      match bootErrors, boot_rejection with
      | _ :: _, Some rejected_writing_boot_errors => left_with [] clicks
      | _, _ =>
          let boot_files :=
            match bootErrors with
            | [] => []
            | _ :: _ => [(errors_boot, error_list bootErrors)]
            end in
          let r := {| errors := errors; canvas := canvas; hadErrors := false;
                      written := boot_files; requests := clicks |} in
          match iteration_loop rejections args steps w (Z.to_nat (iterations args)) 0 r with
          | (loop_rejected, r') => left_with (written r') (requests r')
          | (_, r') =>
              {| files := written r'; input := requests r';
                 browser_closed := negb (at_close rejections);
                 exit_code := if at_close rejections then 1
                              else if hadErrors r' then 1 else 0 |}
          end
      end
  end.

(** A run in which every await resolves and no call throws. *)
Definition main (args : Args) (steps : list Step) (w : World) : Outcome :=
  main_run all_resolve args steps w.

(** The batch the boot check drains. *)
Definition boot_batch (w : World) : list ErrorRecord :=
  (drain (deliver (events (boot w)) new_tracker)).1.

(** The tracker when iteration [i] starts, had every earlier drain been
    looked at without stopping, and the batch that iteration drains. *)
Fixpoint tracker_before (w : World) (i : nat) : ConsoleErrorTracker :=
  match i with
  | O => (drain (deliver (events (boot w)) new_tracker)).2
  | S j => (drain (deliver (events (iteration w j)) (tracker_before w j))).2
  end.

Definition iteration_batch (w : World) (i : nat) : list ErrorRecord :=
  (drain (deliver (events (iteration w i)) (tracker_before w i))).1.

(** The artifacts a run wrote. *)
Definition artifacts (o : Outcome) : list Artifact := (files o).*1.

(** The files iteration [i] writes when its drain returns [batch]. *)
Definition iteration_artifacts (m : Moment) (i : nat) (batch : list ErrorRecord) : list Artifact :=
  shot i
  :: (if truthy_text (capture_text_state m) then [state i] else [])
  ++ match batch with [] => [] | _ :: _ => [errors_json i] end.

(** The files of the iterations from index [i] on, [n] of them at most,
    up to and including the first one whose batch is not empty. *)
Fixpoint loop_artifacts (w : World) (n i : nat) : list Artifact :=
  match n with
  | O => []
  | S n' =>
      iteration_artifacts (iteration w i) i (iteration_batch w i)
      ++ match iteration_batch w i with
         | [] => loop_artifacts w n' (S i)
         | _ :: _ => []
         end
  end.

(** Some iteration among them drains a batch that is not empty. *)
Fixpoint loop_failed (w : World) (n i : nat) : bool :=
  match n with
  | O => false
  | S n' =>
      match iteration_batch w i with
      | [] => loop_failed w n' (S i)
      | _ :: _ => true
      end
  end.

(** Sample pages. *)
Definition quiet_page : Page := mkPage (λ _, Png "page") true.

(** A canvas whose pixel export is refused (tainted), one whose export
    works while the probe throws, and one without a bounding box. *)
Definition tainted_canvas : CanvasHandle :=
  mkHandle (mkCanvas 300 150 300 150) ToDataURLThrows ProbeThrows
    None (Some (mkBBox 0 0 300 150)).

Definition unprobed_canvas : CanvasHandle :=
  mkHandle (mkCanvas 300 150 300 150) (ToDataURLReturns "data:image/png;base64,iVBORw0KGgo=")
    ProbeThrows None (Some (mkBBox 0 0 300 150)).

Definition hidden_canvas : CanvasHandle :=
  mkHandle (mkCanvas 300 150 0 0) (ToDataURLReturns "data:,") NoContext None None.

(** A moment of a page whose canvases are [canvases], allocated in
    document order. *)
Definition page_with (events : list PageEvent) (canvases : list CanvasHandle)
    (hook state : option string) : Moment :=
  mkMoment events (seq 0 (length canvases)) (λ e, default hidden_canvas (canvases !! e))
    quiet_page hook state.

Definition quiet : Moment := page_with [] [] None None.

(** A page that throws while booting and is silent afterwards. *)
Definition boot_error_world : World :=
  mkWorld (page_with [pageerror "Error: boom"] [] None None) (λ _, quiet).

(** A page whose iteration 2 logs an error not seen before. *)
Definition late_error_world : World :=
  mkWorld quiet
    (λ i, if decide (i = 2)
          then page_with [console "error" "new failure"] [] (Some "{}") None
          else quiet).

(** ** Command line *)

Module CLI.

(** The [args] object of [parseArgs]. A [parseInt] that finds no number
    gives [NaN], here [None]; [click] holds finite numbers only. *)
Record t := mk {
  url : option string;
  iterations : option Z;
  pauseMs : option Z;
  headless : bool;
  screenshotDir : string;
  actionsFile : option string;
  actionsJson : option string;
  click : option (Q * Q);
  clickSelector : option string;
  waitForGame : bool;
  timeoutMs : option Z
}.

(** The initial value of [args]. *)
Definition defaults : t :=
  {| url := None; iterations := Some 3%Z; pauseMs := Some 250%Z; headless := true;
     screenshotDir := "output/iterate"; actionsFile := None; actionsJson := None;
     click := None; clickSelector := None; waitForGame := true;
     timeoutMs := Some 10000%Z |}.

Definition set_url (v : string) (a : t) : t :=
  {| url := Some v; iterations := iterations a; pauseMs := pauseMs a; headless := headless a;
     screenshotDir := screenshotDir a; actionsFile := actionsFile a;
     actionsJson := actionsJson a; click := click a; clickSelector := clickSelector a;
     waitForGame := waitForGame a; timeoutMs := timeoutMs a |}.

Definition set_iterations (v : option Z) (a : t) : t :=
  {| url := url a; iterations := v; pauseMs := pauseMs a; headless := headless a;
     screenshotDir := screenshotDir a; actionsFile := actionsFile a;
     actionsJson := actionsJson a; click := click a; clickSelector := clickSelector a;
     waitForGame := waitForGame a; timeoutMs := timeoutMs a |}.

Definition set_pauseMs (v : option Z) (a : t) : t :=
  {| url := url a; iterations := iterations a; pauseMs := v; headless := headless a;
     screenshotDir := screenshotDir a; actionsFile := actionsFile a;
     actionsJson := actionsJson a; click := click a; clickSelector := clickSelector a;
     waitForGame := waitForGame a; timeoutMs := timeoutMs a |}.

Definition set_headless (v : bool) (a : t) : t :=
  {| url := url a; iterations := iterations a; pauseMs := pauseMs a; headless := v;
     screenshotDir := screenshotDir a; actionsFile := actionsFile a;
     actionsJson := actionsJson a; click := click a; clickSelector := clickSelector a;
     waitForGame := waitForGame a; timeoutMs := timeoutMs a |}.

Definition set_screenshotDir (v : string) (a : t) : t :=
  {| url := url a; iterations := iterations a; pauseMs := pauseMs a; headless := headless a;
     screenshotDir := v; actionsFile := actionsFile a;
     actionsJson := actionsJson a; click := click a; clickSelector := clickSelector a;
     waitForGame := waitForGame a; timeoutMs := timeoutMs a |}.

Definition set_actionsFile (v : string) (a : t) : t :=
  {| url := url a; iterations := iterations a; pauseMs := pauseMs a; headless := headless a;
     screenshotDir := screenshotDir a; actionsFile := Some v;
     actionsJson := actionsJson a; click := click a; clickSelector := clickSelector a;
     waitForGame := waitForGame a; timeoutMs := timeoutMs a |}.

Definition set_actionsJson (v : string) (a : t) : t :=
  {| url := url a; iterations := iterations a; pauseMs := pauseMs a; headless := headless a;
     screenshotDir := screenshotDir a; actionsFile := actionsFile a;
     actionsJson := Some v; click := click a; clickSelector := clickSelector a;
     waitForGame := waitForGame a; timeoutMs := timeoutMs a |}.

Definition set_click (v : Q * Q) (a : t) : t :=
  {| url := url a; iterations := iterations a; pauseMs := pauseMs a; headless := headless a;
     screenshotDir := screenshotDir a; actionsFile := actionsFile a;
     actionsJson := actionsJson a; click := Some v; clickSelector := clickSelector a;
     waitForGame := waitForGame a; timeoutMs := timeoutMs a |}.

Definition set_clickSelector (v : string) (a : t) : t :=
  {| url := url a; iterations := iterations a; pauseMs := pauseMs a; headless := headless a;
     screenshotDir := screenshotDir a; actionsFile := actionsFile a;
     actionsJson := actionsJson a; click := click a; clickSelector := Some v;
     waitForGame := waitForGame a; timeoutMs := timeoutMs a |}.

Definition set_waitForGame (v : bool) (a : t) : t :=
  {| url := url a; iterations := iterations a; pauseMs := pauseMs a; headless := headless a;
     screenshotDir := screenshotDir a; actionsFile := actionsFile a;
     actionsJson := actionsJson a; click := click a; clickSelector := clickSelector a;
     waitForGame := v; timeoutMs := timeoutMs a |}.

Definition set_timeoutMs (v : option Z) (a : t) : t :=
  {| url := url a; iterations := iterations a; pauseMs := pauseMs a; headless := headless a;
     screenshotDir := screenshotDir a; actionsFile := actionsFile a;
     actionsJson := actionsJson a; click := click a; clickSelector := clickSelector a;
     waitForGame := waitForGame a; timeoutMs := v |}.

(** [next.split(',')] *)
Fixpoint split_comma (s : string) : list string :=
  match s with
  | EmptyString => [EmptyString]
  | String c r =>
      if decide (c = ","%char) then EmptyString :: split_comma r
      else match split_comma r with
           | h :: tl => String c h :: tl
           | [] => [String c EmptyString]
           end
  end.

(** A JSON document of the action schema, as [JSON.parse] returns it: an
    array of steps, or an object whose [steps] is absent or such an array. *)
Inductive Actions :=
  | actions_array (steps : list Step)
  | actions_object (steps : option (list Step)).

(** How the process ends: the usage message and [process.exit(1)] of
    [parseArgs], a rejection before the browser is launched (caught by
    [main().catch]), or a run of [main]. *)
Inductive ProcessEnd :=
  | usage_error
  | load_failed
  | finished (o : Outcome).

Section builtins.
(** [parseInt(s, 10)], and [parseFloat(v.trim())] where it is finite. *)
Variable parseInt : string → option Z.
Variable parseFloat : string → option Q.
(** [fs.readFileSync(path, 'utf-8')] and [JSON.parse]; [None] when they throw. *)
Variable readFileSync : string → option string.
Variable JSON_parse : string → option Actions.

(** The value given to [--click], when it is two finite numbers. *)
Definition parse_click (next : string) : option (Q * Q) :=
  match split_comma next with
  | [a; b] =>
      match parseFloat a, parseFloat b with
      | Some x, Some y => Some (x, y)
      | _, _ => None
      end
  | _ => None
  end.

(** [arg === flag && next]: the flag is followed by a non-empty argument. *)
Definition given (flag arg : string) (next : option string) : option string :=
  if String.eqb arg flag then
    match next with
    | Some v => if String.eqb v "" then None else Some v
    | None => None
    end
  else None.

(** The body of the [for] loop at [arg = argv[i]], [next = argv[i + 1]]:
    the new [args], and whether [i++] skips [next]. *)
Definition step (arg : string) (next : option string) (a : t) : t * bool :=
  if given "--url" arg next is Some v then (set_url v a, true)
  else if given "--iterations" arg next is Some v then (set_iterations (parseInt v) a, true)
  else if given "--pause-ms" arg next is Some v then (set_pauseMs (parseInt v) a, true)
  else if given "--headless" arg next is Some v then
    (set_headless (bool_decide (v ≠ "0") && bool_decide (v ≠ "false")) a, true)
  else if given "--screenshot-dir" arg next is Some v then (set_screenshotDir v a, true)
  else if given "--actions-file" arg next is Some v then (set_actionsFile v a, true)
  else if given "--actions-json" arg next is Some v then (set_actionsJson v a, true)
  else if given "--click" arg next is Some v then
    (match parse_click v with Some c => set_click c a | None => a end, true)
  else if given "--click-selector" arg next is Some v then (set_clickSelector v a, true)
  else if String.eqb arg "--no-wait" then (set_waitForGame false a, false)
  else if given "--timeout" arg next is Some v then (set_timeoutMs (parseInt v) a, true)
  else (a, false).

(** [for (let i = 2; i < argv.length; i++)] over [argv.slice(2)]. *)
Fixpoint loop (tokens : list string) (a : t) : t :=
  match tokens with
  | [] => a
  | arg :: rest =>
      let '(a', skip) := step arg (head rest) a in
      match rest with
      | _ :: rest' => if skip then loop rest' a' else loop rest a'
      | [] => a'
      end
  end.

(** [parseArgs(argv)]; [None] is the usage message and [process.exit(1)]. *)
Definition parseArgs (argv : list string) : option t :=
  let args := loop (drop 2 argv) defaults in
  match url args with
  | Some v => if decide (v = "") then None else Some args
  | None => None
  end.

(** [parsed.steps || []] after [Array.isArray(parsed) ? parsed : ...] *)
Definition steps_of (parsed : Actions) : list Step :=
  match parsed with
  | actions_array steps => steps
  | actions_object steps => default [] steps
  end.

Definition truthy_string (s : option string) : option string :=
  match s with
  | Some v => if decide (v = "") then None else Some v
  | None => None
  end.

(** [loadActions(args)]; [None] when reading or parsing throws. *)
Definition loadActions (args : t) : option (list Step) :=
  match truthy_string (actionsFile args) with
  | Some file => raw ← readFileSync file; parsed ← JSON_parse raw; Some (steps_of parsed)
  | None =>
      match truthy_string (actionsJson args) with
      | Some json => parsed ← JSON_parse json; Some (steps_of parsed)
      | None =>
          match click args with
          | Some (x, y) =>
              Some [mkStep (Some ["left_mouse_button"]) (Some 2%Z) (Some x) (Some y) None]
          | None => Some [mkStep (Some ["space"]) (Some 4%Z) None None None]
          end
      end
  end.

(** What [main] reads of [args] in its loop: a count [NaN] runs no
    iteration, a pause [NaN] is a [setTimeout] of no delay. *)
Definition loop_args (args : t) : Args :=
  mkArgs (default 0%Z (iterations args)) (default 0%Z (pauseMs args)) (clickSelector args).

(** The process from its arguments on. *)
Definition run_rejecting (rejections : Rejections) (argv : list string) (w : World)
  : ProcessEnd :=
  match parseArgs argv with
  | None => usage_error
  | Some args =>
      match loadActions args with
      | None => load_failed
      | Some steps => finished (main_run rejections (loop_args args) steps w)
      end
  end.

(** The process when every await resolves and no call throws. *)
Definition run (argv : list string) (w : World) : ProcessEnd :=
  run_rejecting all_resolve argv w.

End builtins.
End CLI.

(** A sample of the built-ins: decimal digits with an optional sign, a
    file system with no file, a parser that accepts nothing. *)
Fixpoint digits_value (s : string) (acc : option Z) : option Z :=
  match s with
  | EmptyString => acc
  | String c r =>
      match index_of c "0123456789" with
      | Some d => digits_value r (Some (10 * default 0%Z acc + Z.of_nat d)%Z)
      | None => acc
      end
  end.

Definition sample_parseInt (s : string) : option Z :=
  match s with
  | String "-" r => Z.opp <$> digits_value r None
  | _ => digits_value s None
  end.

Definition sample_parseFloat (s : string) : option Q := inject_Z <$> sample_parseInt s.
Definition no_file (path : string) : option string := None.
Definition no_json (s : string) : option CLI.Actions := None.

(** Options as a user writes them: a flag with its value, or [--no-wait]. *)
Inductive CliOption :=
  | opt (flag value : string)
  | opt_no_wait.

Definition option_tokens (o : CliOption) : list string :=
  match o with
  | opt flag value => [flag; value]
  | opt_no_wait => ["--no-wait"]
  end.

Definition value_flags : list string :=
  ["--url"; "--iterations"; "--pause-ms"; "--headless"; "--screenshot-dir";
   "--actions-file"; "--actions-json"; "--click"; "--click-selector"; "--timeout"].

Definition well_formed_option (o : CliOption) : Prop :=
  match o with
  | opt flag value => flag ∈ value_flags ∧ value ≠ ""
  | opt_no_wait => True
  end.

Definition option_flag (o : CliOption) : option string :=
  match o with
  | opt flag _ => Some flag
  | opt_no_wait => None
  end.

(** What the loop makes of one option. *)
Definition apply_option (parseInt : string → option Z) (parseFloat : string → option Q)
    (o : CliOption) (a : CLI.t) : CLI.t :=
  match o with
  | opt flag value => (CLI.step parseInt parseFloat flag (Some value) a).1
  | opt_no_wait => CLI.set_waitForGame false a
  end.

(** ** Reading the tracker and the run from outside *)

(** The records a client handed to [ingest], in call order. *)
Definition ingested (ops : list TrackerOp) : list ErrorRecord :=
  omap (λ op, match op with OpIngest e => Some e | OpDrain => None end) ops.

(** The first occurrence of each record of a list, in order. *)
Definition first_occurrences (l : list ErrorRecord) : list ErrorRecord :=
  fold_left (λ acc e, if decide (e ∈ acc) then acc else acc ++ [e]) l [].

(** The record a listener of [main] hands to the tracker for a page event;
    none for a console message that is not an error. *)
Definition record_of (ev : PageEvent) : option ErrorRecord :=
  match ev with
  | console ty tx =>
      if decide (ty = "error") then Some {| type := "console.error"; text := tx |} else None
  | pageerror e => Some {| type := "pageerror"; text := e |}
  end.

(** The local [canvas] of [main] when iteration [i] starts, had every
    earlier iteration run: a handle to an element, or none. *)
Fixpoint canvas_before (w : World) (i : nat) : option nat :=
  match i with
  | O => getCanvasHandle_on (boot w)
  | S j => locate (iteration w j) (canvas_before w j)
  end.

(** What the handle iteration [i] acts on and captures answers during
    that iteration. *)
Definition canvas_in_use (w : World) (i : nat) : option CanvasHandle :=
  element_handle (iteration w i) <$> canvas_before w (S i).

(** The files iteration [i] writes, with their contents. *)
Definition iteration_files (w : World) (i : nat) : list (Artifact * Content) :=
  let m := iteration w i in
  match captureScreenshot (page m) (canvas_in_use w i) with
  | Written png => [(shot i, image png)]
  | WriteThrows => []
  end
  ++ (if truthy_text (capture_text_state m)
      then [(state i, raw_text (default "" (capture_text_state m)))] else [])
  ++ match iteration_batch w i with
     | [] => []
     | _ :: _ => [(errors_json i, error_list (iteration_batch w i))]
     end.

(** The files of the iterations from index [i] on, [n] of them at most,
    up to and including the first one whose batch is not empty. *)
Fixpoint loop_files (w : World) (n i : nat) : list (Artifact * Content) :=
  match n with
  | O => []
  | S n' =>
      iteration_files w i
      ++ match iteration_batch w i with
         | [] => loop_files w n' (S i)
         | _ :: _ => []
         end
  end.

(** How many iterations a run executes from index [i] on, of [n] at most:
    all of them, or those up to and including the first whose batch is not
    empty. *)
Fixpoint executed (w : World) (n i : nat) : nat :=
  match n with
  | O => 0
  | S n' =>
      S (match iteration_batch w i with
         | [] => executed w n' (S i)
         | _ :: _ => 0
         end)
  end.

(** The requests iteration [i] makes: the choreography on the canvas in
    use, then the pause. *)
Definition iteration_choreography (steps : list Step) (w : World) (i : nat)
  : list InputEvent :=
  steps ≫= step_events (page (iteration w i)) (canvas_in_use w i).

Definition iteration_input (args : Args) (steps : list Step) (w : World) (i : nat)
  : list InputEvent :=
  iteration_choreography steps w i ++ [sleep (pauseMs args)].

(** The rejection of iteration [i] takes place: the iteration gets to the
    call that rejects. *)
Definition rejection_hits (rejected : option IterationRejection) (steps : list Step)
    (w : World) (i : nat) : bool :=
  match rejected with
  | None => false
  | Some rejected_locating => bool_decide (canvas_before w i = None)
  | Some (rejected_acting sent) =>
      bool_decide (sent ≤ length (iteration_choreography steps w i))
  | Some rejected_capturing | Some rejected_text_state => true
  | Some rejected_writing_errors => bool_decide (iteration_batch w i ≠ [])
  end.

(** Some iteration among those from index [i] on, [n] at most, is left by
    a rejection: the first to get to one, every iteration before it having
    drained an empty batch. *)
Fixpoint loop_abandoned (rejections : Rejections) (steps : list Step) (w : World)
    (n i : nat) : bool :=
  match n with
  | O => false
  | S n' =>
      if rejection_hits (at_iteration rejections i) steps w i then true
      else match iteration_batch w i with
           | [] => loop_abandoned rejections steps w n' (S i)
           | _ :: _ => false
           end
  end.

(** [main] is left before the loop. *)
Definition boot_abandoned (rejections : Rejections) (w : World) : bool :=
  match at_boot rejections with
  | Some rejected_before_click => true
  | Some rejected_writing_boot_errors => bool_decide (boot_batch w ≠ [])
  | None => false
  end.

(** [main] is left before [browser.close()]. *)
Definition abandoned (rejections : Rejections) (args : Args) (steps : list Step) (w : World)
  : bool :=
  boot_abandoned rejections w
  || loop_abandoned rejections steps w (Z.to_nat (iterations args)) 0.

(** The locals of [main] when the loop is entered. *)
Definition boot_run (args : Args) (w : World) : Run :=
  {| errors := tracker_before w 0; canvas := canvas_before w 0; hadErrors := false;
     written := match boot_batch w with
                | [] => []
                | _ :: _ => [(errors_boot, error_list (boot_batch w))]
                end;
     requests := click_request args |}.

(** A page with a text hook, and one whose first canvas has no area. *)
Definition scoring_world : World :=
  mkWorld quiet (λ _, page_with [] [] (Some "score: 1") None).

Definition late_canvas_world : World :=
  mkWorld quiet (λ _, page_with [] [hidden_canvas; unprobed_canvas] None None).

(** A page that shows no canvas while booting, one canvas in iteration 0
    and from then on a larger one before it in the document. *)
Definition large_canvas : CanvasHandle :=
  mkHandle (mkCanvas 600 300 600 300) (ToDataURLReturns "data:image/png;base64,AAAA")
    ProbeThrows None (Some (mkBBox 0 0 600 300)).

Definition overlay_world : World :=
  mkWorld quiet
    (λ i, mkMoment [] (if decide (i = 0) then [0] else [1; 0])
            (λ e, if decide (e = 0) then unprobed_canvas else large_canvas)
            quiet_page None None).


(** A page that reports the same exception at boot and in every iteration. *)
Definition noisy_world : World :=
  mkWorld (page_with [pageerror "Error: boom"] [] None None)
          (λ _, page_with [console "log" "tick"; pageerror "Error: boom"] [] None None).

(** No button pressed by a record of requests stays down: each press is
    followed by a release of the same button. *)
Definition all_released (log : list InputEvent) : Prop :=
  ∀ l1 e l2 h, log = l1 ++ e :: l2 → pressed_of e = Some h → h ∈ released l2.

(** * The game the driver is pointed at *)

(** ** Shared state ([core/GameState.js]) *)

Module GameState.

(** [currentSpeedMultiplier] is a double. It is kept as the expression that
    produced it: the literal of [reset], or what [accelerate] computes from
    the elapsed milliseconds. *)
Inductive Multiplier :=
  | literal_one                      (* [1.0] *)
  | capped_ramp (elapsedTime : Z).   (* [Math.min(1.0 + (elapsedTime / 1000) * 0.015, 4.0)] *)

Record t := mk {
  score : Z;
  bestScore : Z;
  started : bool;
  gameOver : bool;
  survivalTime : Z;
  fragmentsCollected : Z;
  currentSpeedMultiplier : Multiplier;
  isSlowed : bool;
  isMuted : bool
}.

(** [reset()] *)
Definition reset (g : t) : t :=
  {| score := 0;
     bestScore := if (bestScore g =? 0)%Z then 0 else bestScore g;   (* [this.bestScore || 0] *)
     started := false;
     gameOver := false;
     survivalTime := 0;
     fragmentsCollected := 0;
     currentSpeedMultiplier := literal_one;
     isSlowed := false;
     isMuted := false |}.

(** [constructor()]: [bestScore = 0], then [reset()] gives the other fields
    their first value. *)
Definition new : t :=
  reset {| score := 0; bestScore := 0; started := false; gameOver := false;
           survivalTime := 0; fragmentsCollected := 0;
           currentSpeedMultiplier := literal_one; isSlowed := false; isMuted := false |}.

(** [addScore(points = 1)] *)
Definition addScore (points : option Z) (g : t) : t :=
  let points := default 1%Z points in
  let score := (score g + points)%Z in
  {| score := score;
     bestScore := if (bestScore g <? score)%Z then score else bestScore g;
     started := started g;
     gameOver := gameOver g;
     survivalTime := survivalTime g;
     fragmentsCollected := (fragmentsCollected g + points)%Z;
     currentSpeedMultiplier := currentSpeedMultiplier g;
     isSlowed := isSlowed g;
     isMuted := isMuted g |}.

(** The two methods that write the score, called in some order. *)
Inductive Call :=
  | call_reset
  | call_addScore (points : option Z).

Definition step (c : Call) (g : t) : t :=
  match c with
  | call_reset => reset g
  | call_addScore points => addScore points g
  end.

Definition run (cs : list Call) (g : t) : t := fold_left (λ g c, step c g) cs g.

(** The score after each call of a sequence. *)
Fixpoint scores (cs : list Call) (g : t) : list Z :=
  match cs with
  | [] => []
  | c :: cs' => score (step c g) :: scores cs' (step c g)
  end.

End GameState.

(** ** Enemy and fragment spawning ([SpawnSystem]) *)

Module SpawnSystem.

(** [core/Constants.js] *)
Definition ENEMY_SPAWN_INTERVAL_START : Z := 1200.
Definition ENEMY_SPAWN_INTERVAL_MIN : Z := 250.
Definition ENEMY_SPAWN_ACCELERATION : Z := 15.
Definition SINGULARITY_NODE_MIN_SPAWN_TIME : Z := 15000.
Definition FRAGMENT_MAX_ON_SCREEN : nat := 5.

Inductive EnemyType := DATA_STREAM | CODE_BLOCK | SINGULARITY_NODE.

(** An [Enemy] object: which object it is (its allocation number) and the
    [type] it was constructed with. A [Fragment] object is named by its
    allocation number, as is a timer event of the scene clock. *)
Record Enemy := mkEnemy { enemy_id : nat; enemy_type : EnemyType }.

#[global] Instance EnemyType_eq_dec : EqDecision EnemyType.
Proof. solve_decision. Defined.

#[global] Instance Enemy_eq_dec : EqDecision Enemy.
Proof. solve_decision. Defined.

(** What [_getSpawnPosition] returns. *)
Record SpawnPoint := mkSpawnPoint { sx : Q; sy : Q; svx : Q; svy : Q }.

(** How one [Math.random()] of [_pickEnemyType] compares with its two
    thresholds. *)
Record Roll := mkRoll { below_0_15 : bool; below_0_6 : bool }.

(** [eventBus.emit] calls of the class and of the scene, with their
    payloads. *)
Inductive BusEvent :=
  | ACCELERATION_TICK (speedMultiplier : GameState.Multiplier) (spawnInterval survivalTime : Z)
  | ENEMY_SPAWNED (type : EnemyType) (x y : Q)
  | SLOWDOWN_START
  | SCORE_CHANGED (score : Z)
  | FRAGMENT_COLLECTED (fragment : nat) (score : Z).   (* [x], [y] of the fragment's sprite *)

(** The fields of the class. [enemyTimer_delay] is the [delay] of the
    timer event held by [enemyTimer]. *)
Record t := mk {
  enemies : list Enemy;
  fragments : list nat;
  currentSpawnInterval : Z;
  elapsedTime : Z;
  enemyTimer : nat;
  enemyTimer_delay : Z;
  fragmentTimer : nat;
  accelTimer : nat;
  _slowdownTimer : option nat
}.

(** What the methods reach outside the object: the [gameState] singleton,
    the objects constructed so far, the [destroy()] and [remove()] calls
    made on them, and the events emitted. *)
Record Scene := mkScene {
  gameState : GameState.t;
  objects : nat;
  destroyed : list nat;
  emitted : list BusEvent
}.

Definition with_gameState (g : GameState.t) (sc : Scene) : Scene :=
  {| gameState := g; objects := objects sc; destroyed := destroyed sc; emitted := emitted sc |}.

Definition allocate (sc : Scene) : nat * Scene :=
  (objects sc,
   {| gameState := gameState sc; objects := S (objects sc);
      destroyed := destroyed sc; emitted := emitted sc |}).

Definition destroy_object (o : nat) (sc : Scene) : Scene :=
  {| gameState := gameState sc; objects := objects sc;
     destroyed := destroyed sc ++ [o]; emitted := emitted sc |}.

Definition emit_event (e : BusEvent) (sc : Scene) : Scene :=
  {| gameState := gameState sc; objects := objects sc;
     destroyed := destroyed sc; emitted := emitted sc ++ [e] |}.

(** [constructor(scene, getPlayerSprite)]: three looping timer events and
    one delayed call. *)
Definition constructor (sc : Scene) : Scene * t :=
  let '(enemyTimer, sc) := allocate sc in
  let '(fragmentTimer, sc) := allocate sc in
  let '(accelTimer, sc) := allocate sc in
  let '(_, sc) := allocate sc in
  (sc,
   {| enemies := []; fragments := [];
      currentSpawnInterval := ENEMY_SPAWN_INTERVAL_START;
      elapsedTime := 0;
      enemyTimer := enemyTimer;
      enemyTimer_delay := ENEMY_SPAWN_INTERVAL_START;
      fragmentTimer := fragmentTimer;
      accelTimer := accelTimer;
      _slowdownTimer := None |}).

(** [accelerate()]. [elapsedTime] only ever holds whole thousands, so
    [elapsedTime / 1000] is exact as an integer division. *)
Definition accelerate (sc : Scene) (s : t) : Scene * t :=
  let elapsedTime := (elapsedTime s + 1000)%Z in
  let survivalTime := (elapsedTime / 1000)%Z in
  let speedMultiplier := GameState.capped_ramp elapsedTime in
  let g := gameState sc in
  let g := {| GameState.score := GameState.score g;
              GameState.bestScore := GameState.bestScore g;
              GameState.started := GameState.started g;
              GameState.gameOver := GameState.gameOver g;
              GameState.survivalTime := survivalTime;
              GameState.fragmentsCollected := GameState.fragmentsCollected g;
              GameState.currentSpeedMultiplier := speedMultiplier;
              GameState.isSlowed := GameState.isSlowed g;
              GameState.isMuted := GameState.isMuted g |} in
  let currentSpawnInterval :=
    Z.max (ENEMY_SPAWN_INTERVAL_START - (elapsedTime / 1000) * ENEMY_SPAWN_ACCELERATION)
          ENEMY_SPAWN_INTERVAL_MIN in
  (emit_event (ACCELERATION_TICK speedMultiplier currentSpawnInterval survivalTime)
     (with_gameState g sc),
   {| enemies := enemies s; fragments := fragments s;
      currentSpawnInterval := currentSpawnInterval;
      elapsedTime := elapsedTime;
      enemyTimer := enemyTimer s;
      enemyTimer_delay := currentSpawnInterval;
      fragmentTimer := fragmentTimer s;
      accelTimer := accelTimer s;
      _slowdownTimer := _slowdownTimer s |}).

(** [_pickEnemyType()] *)
Definition _pickEnemyType (rand : Roll) (s : t) : EnemyType :=
  let t := elapsedTime s in
  if (SINGULARITY_NODE_MIN_SPAWN_TIME <=? t)%Z && below_0_15 rand then SINGULARITY_NODE
  else if below_0_6 rand then DATA_STREAM else CODE_BLOCK.

(** [spawnEnemy()], given the random draw of [_pickEnemyType] and the
    result of [_getSpawnPosition]. *)
Definition spawnEnemy (rand : Roll) (at_ : SpawnPoint) (sc : Scene) (s : t) : Scene * t :=
  if GameState.gameOver (gameState sc) then (sc, s)
  else
    let type := _pickEnemyType rand s in
    let '(o, sc) := allocate sc in
    let enemy := {| enemy_id := o; enemy_type := type |} in
    (emit_event (ENEMY_SPAWNED type (sx at_) (sy at_)) sc,
     {| enemies := enemies s ++ [enemy]; fragments := fragments s;
        currentSpawnInterval := currentSpawnInterval s;
        elapsedTime := elapsedTime s;
        enemyTimer := enemyTimer s;
        enemyTimer_delay := enemyTimer_delay s;
        fragmentTimer := fragmentTimer s;
        accelTimer := accelTimer s;
        _slowdownTimer := _slowdownTimer s |}).

Definition with_fragments (fs : list nat) (s : t) : t :=
  {| enemies := enemies s; fragments := fs;
     currentSpawnInterval := currentSpawnInterval s;
     elapsedTime := elapsedTime s;
     enemyTimer := enemyTimer s;
     enemyTimer_delay := enemyTimer_delay s;
     fragmentTimer := fragmentTimer s;
     accelTimer := accelTimer s;
     _slowdownTimer := _slowdownTimer s |}.

Definition with_enemies (es : list Enemy) (s : t) : t :=
  {| enemies := es; fragments := fragments s;
     currentSpawnInterval := currentSpawnInterval s;
     elapsedTime := elapsedTime s;
     enemyTimer := enemyTimer s;
     enemyTimer_delay := enemyTimer_delay s;
     fragmentTimer := fragmentTimer s;
     accelTimer := accelTimer s;
     _slowdownTimer := _slowdownTimer s |}.

(** [spawnFragment()] *)
Definition spawnFragment (sc : Scene) (s : t) : Scene * t :=
  if GameState.gameOver (gameState sc) then (sc, s)
  else if decide (FRAGMENT_MAX_ON_SCREEN ≤ length (fragments s)) then (sc, s)
  else
    let '(fragment, sc) := allocate sc in
    (sc, with_fragments (fragments s ++ [fragment]) s).

(** [applySlowdown()] *)
Definition applySlowdown (sc : Scene) (s : t) : Scene * t :=
  let g := gameState sc in
  let g := {| GameState.score := GameState.score g;
              GameState.bestScore := GameState.bestScore g;
              GameState.started := GameState.started g;
              GameState.gameOver := GameState.gameOver g;
              GameState.survivalTime := GameState.survivalTime g;
              GameState.fragmentsCollected := GameState.fragmentsCollected g;
              GameState.currentSpeedMultiplier := GameState.currentSpeedMultiplier g;
              GameState.isSlowed := true;
              GameState.isMuted := GameState.isMuted g |} in
  let sc := emit_event SLOWDOWN_START (with_gameState g sc) in
  let sc := match _slowdownTimer s with
            | Some timer => destroy_object timer sc
            | None => sc
            end in
  let '(timer, sc) := allocate sc in
  (sc,
   {| enemies := enemies s; fragments := fragments s;
      currentSpawnInterval := currentSpawnInterval s;
      elapsedTime := elapsedTime s;
      enemyTimer := enemyTimer s;
      enemyTimer_delay := enemyTimer_delay s;
      fragmentTimer := fragmentTimer s;
      accelTimer := accelTimer s;
      _slowdownTimer := Some timer |}).

(** [this.fragments.indexOf(fragment)]: [None] is [-1]. *)
Fixpoint indexOf (xs : list nat) (x : nat) : option nat :=
  match xs with
  | [] => None
  | y :: ys => if decide (y = x) then Some 0 else S <$> indexOf ys x
  end.

(** [removeFragment(fragment)] *)
Definition removeFragment (fragment : nat) (sc : Scene) (s : t) : Scene * t :=
  match indexOf (fragments s) fragment with
  | Some idx => (destroy_object fragment sc, with_fragments (delete idx (fragments s)) s)
  | None => (sc, s)
  end.

(** The second loop of [update()],
    [for (let i = this.enemies.length - 1; i >= 0; i--)], entered with
    [i = n - 1]: the enemies left and the objects destroyed. [None] is the
    TypeError of calling a method of [this.enemies[i]] when that is
    undefined. *)
Fixpoint sweep (isOffScreen : Enemy → bool) (n : nat) (es : list Enemy) (gone : list nat)
  : option (list Enemy * list nat) :=
  match n with
  | O => Some (es, gone)
  | S i =>
      match es !! i with
      | None => None
      | Some e =>
          if isOffScreen e then sweep isOffScreen i (delete i es) (gone ++ [enemy_id e])
          else sweep isOffScreen i es gone
      end
  end.

(** [update()], given what [isOffScreen()] answers for each enemy. The
    first loop, [enemy.update()], steers the velocity of homing enemies
    and touches neither the list nor the positions [isOffScreen()] reads. *)
Definition update (isOffScreen : Enemy → bool) (sc : Scene) (s : t) : option (Scene * t) :=
  match sweep isOffScreen (length (enemies s)) (enemies s) (destroyed sc) with
  | Some (es, gone) =>
      Some ({| gameState := gameState sc; objects := objects sc;
               destroyed := gone; emitted := emitted sc |},
            with_enemies es s)
  | None => None
  end.

(** [destroy()] *)
Definition destroy (sc : Scene) (s : t) : Scene * t :=
  let sc := destroy_object (enemyTimer s) sc in
  let sc := destroy_object (fragmentTimer s) sc in
  let sc := destroy_object (accelTimer s) sc in
  let sc := match _slowdownTimer s with
            | Some timer => destroy_object timer sc
            | None => sc
            end in
  let sc := fold_left (λ sc e, destroy_object (enemy_id e) sc) (enemies s) sc in
  let sc := fold_left (λ sc f, destroy_object f sc) (fragments s) sc in
  (sc, with_enemies [] (with_fragments [] s)).

(** The calls the scene, its clock and its collision handler make on the
    system, and writes of other code to the [gameState] singleton. *)
Inductive Call :=
  | call_accelerate
  | call_spawnEnemy (rand : Roll) (at_ : SpawnPoint)
  | call_spawnFragment
  | call_applySlowdown
  | call_removeFragment (fragment : nat)
  | call_update (isOffScreen : Enemy → bool)
  | call_destroy
  | write_gameState (f : GameState.t → GameState.t).

Definition step (c : Call) (st : Scene * t) : option (Scene * t) :=
  let '(sc, s) := st in
  match c with
  | call_accelerate => Some (accelerate sc s)
  | call_spawnEnemy rand at_ => Some (spawnEnemy rand at_ sc s)
  | call_spawnFragment => Some (spawnFragment sc s)
  | call_applySlowdown => Some (applySlowdown sc s)
  | call_removeFragment fragment => Some (removeFragment fragment sc s)
  | call_update isOffScreen => update isOffScreen sc s
  | call_destroy => Some (destroy sc s)
  | write_gameState f => Some (with_gameState (f (gameState sc)) sc, s)
  end.

Fixpoint run (cs : list Call) (st : Scene * t) : option (Scene * t) :=
  match cs with
  | [] => Some st
  | c :: cs' =>
      match step c st with
      | Some st' => run cs' st'
      | None => None
      end
  end.

(** How many [accelerate()] calls a sequence holds. *)
Definition is_accelerate (c : Call) : bool :=
  match c with call_accelerate => true | _ => false end.

Definition ticks (cs : list Call) : nat :=
  length (filter (λ c, is_accelerate c = true) cs).

(** The interval [accelerate()] sets on its [k]-th call, and the event it
    emits then. *)
Definition interval_after (k : nat) : Z := Z.max (1200 - 15 * Z.of_nat k) 250.

Definition tick_event (k : nat) : BusEvent :=
  ACCELERATION_TICK (GameState.capped_ramp (1000 * Z.of_nat k)) (interval_after k) (Z.of_nat k).

Definition is_tick (e : BusEvent) : bool :=
  match e with ACCELERATION_TICK _ _ _ => true | _ => false end.

(** The timer events the system holds. *)
Definition timers (s : t) : list nat :=
  [enemyTimer s; fragmentTimer s; accelTimer s]
  ++ match _slowdownTimer s with Some timer => [timer] | None => [] end.

(** The objects the system holds are distinct objects that exist and have
    not been destroyed. *)
Definition live_objects (st : Scene * t) : Prop :=
  NoDup (fragments st.2 ++ (enemy_id <$> enemies st.2))
  ∧ (∀ o, o ∈ fragments st.2 ++ (enemy_id <$> enemies st.2) →
          o < objects st.1 ∧ (o ∉ timers st.2) ∧ (o ∉ destroyed st.1))
  ∧ (∀ o, o ∈ timers st.2 ++ destroyed st.1 → o < objects st.1).

End SpawnSystem.

(** ** Collecting fragments ([GameScene], [ScoreSystem]) *)

Module GameScene.

(** [ScoreSystem.onAddScore(points = 1)] *)
Definition onAddScore (points : option Z) (sc : SpawnSystem.Scene) : SpawnSystem.Scene :=
  let g := GameState.addScore points (SpawnSystem.gameState sc) in
  SpawnSystem.emit_event (SpawnSystem.SCORE_CHANGED (GameState.score g))
    (SpawnSystem.with_gameState g sc).

(** [collectFragment(fragment)] *)
Definition collectFragment (fragment : nat) (sc : SpawnSystem.Scene) (s : SpawnSystem.t)
  : SpawnSystem.Scene * SpawnSystem.t :=
  let sc := onAddScore (Some 1%Z) sc in
  let '(sc, s) := SpawnSystem.applySlowdown sc s in
  let sc :=
    SpawnSystem.emit_event
      (SpawnSystem.FRAGMENT_COLLECTED fragment (GameState.score (SpawnSystem.gameState sc))) sc in
  SpawnSystem.removeFragment fragment sc s.

(** The last loop of [update()], over [this.spawnSystem.fragments],
    [for (let i = fragments.length - 1; i >= 0; i--)], entered with
    [i = n - 1]; [overlap] is what [physics.overlap] answers for the player
    and each fragment. The array is the one [removeFragment] splices.
    [None] is the TypeError of reading [fragment.sprite] when
    [fragments[i]] is undefined. *)
Fixpoint collect_overlapping (overlap : nat → bool) (n : nat)
    (sc : SpawnSystem.Scene) (s : SpawnSystem.t) : option (SpawnSystem.Scene * SpawnSystem.t) :=
  match n with
  | O => Some (sc, s)
  | S i =>
      match SpawnSystem.fragments s !! i with
      | None => None
      | Some fragment =>
          if overlap fragment then
            let '(sc, s) := collectFragment fragment sc s in
            collect_overlapping overlap i sc s
          else collect_overlapping overlap i sc s
      end
  end.

End GameScene.

(** A scene with nothing in it yet, and a system holding two fragments. *)
Definition fresh_scene : SpawnSystem.Scene := SpawnSystem.mkScene GameState.new 0 [] [].

Definition two_fragments : SpawnSystem.t :=
  SpawnSystem.with_fragments [4; 5] (SpawnSystem.constructor fresh_scene).2.

(* ===================================================================== *)
(** * Properties *)

Example stringify_sample :
  JSON_stringify (mkError "pageerror" "a\b") =
  String "{" (String dquote ("type" +:+ String dquote (":" +:+ String dquote ("pageerror"
    +:+ String dquote ("," +:+ String dquote ("text" +:+ String dquote (":" +:+ String dquote
    ("a\\b" +:+ String dquote "}")))))))).
Proof. reflexivity. Qed.

(** ** The examples of the specification, by evaluation *)

Example choreography_sample :
  step_events quiet_page (Some tainted_canvas)
    (mkStep (Some ["a"; "left_mouse_button"]) (Some 3%Z) None None None)
  = [keyboard_down "KeyA";
     mouse_move (0 + 300 / 2)%Q (0 + 150 / 2)%Q; mouse_down left;
     evaluate_frame (Some (1000 # 60)%Q); evaluate_frame (Some (1000 # 60)%Q);
     evaluate_frame (Some (1000 # 60)%Q);
     keyboard_up "KeyA"; mouse_up left].
Proof. reflexivity. Qed.

Example default_frames_sample :
  step_events quiet_page None (mkStep (Some ["space"]) None None None None)
  = [keyboard_down "Space"; evaluate_frame (Some (1000 # 60)%Q); keyboard_up "Space"].
Proof. reflexivity. Qed.

Example duplicate_buttons_sample :
  new_Set ["a"; "b"; "a"; "c"; "b"] = ["a"; "b"; "c"].
Proof. reflexivity. Qed.

Example inherited_key_sample :
  translate_key "space" = key_name "Space"
  ∧ translate_key "Digit1" = key_name "Digit1"
  ∧ translate_key "toString" = inherited_member "toString".
Proof. split_and!; reflexivity. Qed.

Example rounded_area_sample :
  area (mkCanvas 134217729 134217729 0 0) = 18014398777917440%N
  ∧ exact_area (mkCanvas 134217729 134217729 0 0) = 18014398777917441%N
  ∧ area (mkCanvas 0 0 640 480) = 307200%N.
Proof. split_and!; reflexivity. Qed.

Example fail_fast_sample :
  let o := main (mkArgs 5 250 None) [mkStep (Some ["space"]) (Some 4%Z) None None None]
             late_error_world in
  artifacts o = [shot 0; shot 1; shot 2; state 2; errors_json 2]
  ∧ artifact_name <$> artifacts o
    = ["shot-0.png"; "shot-1.png"; "shot-2.png"; "state-2.json"; "errors-2.json"]
  ∧ exit_code o = 1%Z.
Proof. by vm_compute. Qed.

Example cancelled_timer_sample :
  let w := shim_run [setTimeout; clearTimeout 1; setTimeout; fire_timer 2] install_shim in
  shim_drainVirtualTimePending w = 1 ∧ timers w = ∅.
Proof. by vm_compute. Qed.

(** ** The structural key *)

Lemma string_app_assoc (a b c : string) : (a +:+ b) +:+ c = a +:+ (b +:+ c).
Proof.
  induction a as [|x a IH]; [done|].
  change (String x ((a +:+ b) +:+ c) = String x (a +:+ (b +:+ c))). by rewrite IH.
Qed.

Lemma unquote_quote_char (c : ascii) (s : string) :
  unquote_chars (quote_char c +:+ s) = read_more c (unquote_chars s).
Proof.
  destruct c as [[] [] [] [] [] [] [] []]; reflexivity.
Qed.

Lemma unquote_quote_chars (s rest : string) :
  unquote_chars (quote_chars s +:+ String dquote rest) = Some (s, rest).
Proof.
  induction s as [|c s IH]; [done|].
  cbn [quote_chars]. by rewrite string_app_assoc, unquote_quote_char, IH.
Qed.

Lemma quote_json_string_app (a rest : string) :
  quote_json_string a +:+ rest = String dquote (quote_chars a +:+ String dquote rest).
Proof.
  unfold quote_json_string.
  change (String dquote ((quote_chars a +:+ String dquote EmptyString) +:+ rest)
          = String dquote (quote_chars a +:+ String dquote rest)).
  by rewrite string_app_assoc.
Qed.

Lemma quote_json_string_inj (a b rest1 rest2 : string) :
  quote_json_string a +:+ rest1 = quote_json_string b +:+ rest2 →
  a = b ∧ rest1 = rest2.
Proof.
  rewrite !quote_json_string_app. intros [= H].
  apply (f_equal unquote_chars) in H.
  rewrite !unquote_quote_chars in H. by injection H.
Qed.

Lemma JSON_stringify_inj (e1 e2 : ErrorRecord) :
  JSON_stringify e1 = JSON_stringify e2 → e1 = e2.
Proof.
  destruct e1 as [ty1 tx1], e2 as [ty2 tx2]. unfold JSON_stringify. cbn [type text].
  intros H. apply String.app_inj in H. apply String.app_inj in H. apply String.app_inj in H.
  apply quote_json_string_inj in H as [-> H].
  apply String.app_inj in H. apply String.app_inj in H. apply String.app_inj in H.
  by apply quote_json_string_inj in H as [-> _].
Qed.

(** ** The tracker *)

Section tracker_facts.
Implicit Types (t : ConsoleErrorTracker) (e : ErrorRecord).

Lemma ingest_seen t e : JSON_stringify e ∈ _seen t → ingest e t = t.
Proof. intros H. unfold ingest. by rewrite decide_True. Qed.

Lemma ingest_fresh t e :
  JSON_stringify e ∉ _seen t →
  ingest e t = {| _seen := {[JSON_stringify e]} ∪ _seen t; _errors := _errors t ++ [e] |}.
Proof. intros H. unfold ingest. by rewrite decide_False. Qed.

Lemma ingest_key_seen t e : JSON_stringify e ∈ _seen (ingest e t).
Proof.
  destruct (decide (JSON_stringify e ∈ _seen t)) as [H|H].
  - by rewrite ingest_seen.
  - rewrite ingest_fresh by done. simpl. set_solver.
Qed.

Lemma ingest_twice t e : ingest e (ingest e t) = ingest e t.
Proof. apply ingest_seen, ingest_key_seen. Qed.

Lemma ingest_n_once n t e : ingest_n (S n) e t = ingest e t.
Proof.
  induction n as [|n IH]; [done|].
  change (ingest_n (S (S n)) e t) with (ingest_n (S n) e (ingest e t)).
  rewrite <- IH at 2. simpl. by rewrite ingest_twice.
Qed.

Lemma ingest_seen_mono t e : _seen t ⊆ _seen (ingest e t).
Proof.
  destruct (decide (JSON_stringify e ∈ _seen t)) as [H|H].
  - by rewrite ingest_seen.
  - rewrite ingest_fresh by done. simpl. set_solver.
Qed.

Lemma tracker_step_seen_mono op t : _seen t ⊆ _seen (tracker_step op t).2.
Proof. destruct op; simpl; [apply ingest_seen_mono | done]. Qed.

Lemma tracker_run_cons op ops t :
  tracker_run (op :: ops) t =
  (match (tracker_step op t).1 with
   | Some b => b :: (tracker_run ops (tracker_step op t).2).1
   | None => (tracker_run ops (tracker_step op t).2).1
   end, (tracker_run ops (tracker_step op t).2).2).
Proof.
  cbn [tracker_run]. destruct (tracker_step op t) as [r t1]. cbn [fst snd].
  destruct (tracker_run ops t1) as [rs t2]. by destruct r.
Qed.

Lemma tracker_run_seen_mono ops t : _seen t ⊆ _seen (tracker_run ops t).2.
Proof.
  revert t. induction ops as [|op ops IH]; intros t; [done|].
  rewrite tracker_run_cons. simpl.
  pose proof (tracker_step_seen_mono op t). pose proof (IH (tracker_step op t).2).
  set_solver.
Qed.

Lemma tracker_run_app ops1 ops2 t :
  (tracker_run (ops1 ++ ops2) t).2 = (tracker_run ops2 (tracker_run ops1 t).2).2.
Proof.
  revert t. induction ops1 as [|op ops1 IH]; intros t; [done|].
  rewrite <- app_comm_cons, !tracker_run_cons. simpl. apply IH.
Qed.

Lemma tracker_inv_new : tracker_inv new_tracker.
Proof. split; simpl; [set_solver | constructor]. Qed.

Lemma tracker_inv_ingest t e : tracker_inv t → tracker_inv (ingest e t).
Proof.
  intros [Hs Hn]. destruct (decide (JSON_stringify e ∈ _seen t)) as [H|H].
  - by rewrite ingest_seen.
  - rewrite ingest_fresh by done. split; simpl.
    + intros e' [He'|He']%elem_of_app; [specialize (Hs _ He'); set_solver|].
      apply list_elem_of_singleton in He' as ->. set_solver.
    + rewrite fmap_app. apply NoDup_app. split_and!; [done| |apply NoDup_singleton].
      intros k [e' [-> He']]%list_elem_of_fmap Hk. simpl in Hk.
      apply list_elem_of_singleton in Hk. apply H. rewrite <- Hk. by apply Hs.
Qed.

Lemma tracker_inv_step op t : tracker_inv t → tracker_inv (tracker_step op t).2.
Proof.
  destruct op; simpl; [apply tracker_inv_ingest|].
  intros _. split; simpl; [set_solver | constructor].
Qed.

Lemma tracker_inv_run ops t : tracker_inv t → tracker_inv (tracker_run ops t).2.
Proof.
  revert t. induction ops as [|op ops IH]; intros t Ht; [done|].
  rewrite tracker_run_cons. simpl. by apply IH, tracker_inv_step.
Qed.

Lemma reachable_tracker_inv t : reachable_tracker t → tracker_inv t.
Proof. intros [ops <-]. apply tracker_inv_run, tracker_inv_new. Qed.

Lemma count_occ_absent (l : list ErrorRecord) e :
  e ∉ l → count_occ ErrorRecord_eq_dec l e = 0.
Proof. rewrite list_elem_of_In. apply count_occ_not_In. Qed.

Lemma tracker_inv_count t e :
  tracker_inv t → count_occ ErrorRecord_eq_dec (_errors t) e ≤ 1.
Proof.
  intros [_ Hn]. apply NoDup_fmap_1 in Hn.
  apply NoDup_ListNoDup in Hn.
  by apply (NoDup_count_occ ErrorRecord_eq_dec).
Qed.
End tracker_facts.

Lemma ingest_keeps_key_out (k : string) (t : ConsoleErrorTracker) (e : ErrorRecord) :
  k ∈ _seen t →
  (∀ r, r ∈ _errors t → JSON_stringify r ≠ k) →
  k ∈ _seen (ingest e t) ∧ ∀ r, r ∈ _errors (ingest e t) → JSON_stringify r ≠ k.
Proof.
  intros Hk Hout. destruct (decide (JSON_stringify e ∈ _seen t)) as [H|H].
  - by rewrite ingest_seen.
  - rewrite ingest_fresh by done. simpl. split; [set_solver|].
    intros r [Hr|Hr]%elem_of_app; [by apply Hout|].
    apply list_elem_of_singleton in Hr as ->. intros Heq. apply H. by rewrite Heq.
Qed.

Lemma drained_key_never_returned (k : string) (ops : list TrackerOp) :
  ∀ t : ConsoleErrorTracker,
    k ∈ _seen t →
    (∀ r, r ∈ _errors t → JSON_stringify r ≠ k) →
    ∀ batch r, batch ∈ (tracker_run ops t).1 → r ∈ batch → JSON_stringify r ≠ k.
Proof.
  induction ops as [|op ops IH]; intros t Hk Hout batch r.
  - simpl. by intros ?%elem_of_nil.
  - rewrite tracker_run_cons. cbn [fst]. destruct op as [e|]; cbn [tracker_step fst snd].
    + destruct (ingest_keeps_key_out k t e Hk Hout) as [Hk' Hout']. by apply IH.
    + cbn [drain fst snd]. intros [->|Hb]%elem_of_cons; [by apply Hout|].
      revert Hb. apply IH; simpl; [done|]. by intros ? ?%elem_of_nil.
Qed.

(** C3. Ingestion is idempotent: a second ingestion of a record changes
    neither the tracker nor the batch drained next; any number of repeated
    ingestions of one record act as a single one; drained from a new
    tracker they give exactly the one record; and in every state the class
    can reach, the batch drained after them holds the record at most once,
    exactly once when its key had not been seen. The key tells records
    apart by their kind and text and by nothing else. *)
Theorem ingest_idempotent :
  (∀ t e, ingest e (ingest e t) = ingest e t)
  ∧ (∀ t e, drain (ingest e (ingest e t)) = drain (ingest e t))
  ∧ (∀ t e n, ingest_n (S n) e t = ingest e t)
  ∧ (∀ e n, (drain (ingest_n (S n) e new_tracker)).1 = [e])
  ∧ (∀ t e n, reachable_tracker t →
       count_occ ErrorRecord_eq_dec (drain (ingest_n (S n) e t)).1 e ≤ 1)
  ∧ (∀ t e n, reachable_tracker t → JSON_stringify e ∉ _seen t →
       count_occ ErrorRecord_eq_dec (drain (ingest_n (S n) e t)).1 e = 1)
  ∧ (∀ e e', JSON_stringify e = JSON_stringify e' ↔ type e = type e' ∧ text e = text e').
Proof.
  split_and!; [..|intros e e'; split;
    [by intros ->%JSON_stringify_inj|destruct e, e'; simpl; by intros [-> ->]]].
  - apply ingest_twice.
  - intros t e. by rewrite ingest_twice.
  - intros t e n. apply ingest_n_once.
  - intros e n. rewrite ingest_n_once. by rewrite ingest_fresh by set_solver.
  - intros t e n Ht%reachable_tracker_inv. rewrite ingest_n_once. cbn [drain fst].
    by apply tracker_inv_count, tracker_inv_ingest.
  - intros t e n Ht%reachable_tracker_inv Hfresh. rewrite ingest_n_once.
    rewrite ingest_fresh by done. cbn [drain fst _errors].
    rewrite count_occ_app, count_occ_absent; [simpl; by destruct (ErrorRecord_eq_dec e e)|].
    intros He. apply Hfresh. by apply Ht.
Qed.

Lemma ingest_idempotent_witness :
  count_occ ErrorRecord_eq_dec
    (drain (ingest_n 3 (mkError "pageerror" "boom") new_tracker)).1
    (mkError "pageerror" "boom") = 1.
Proof.
  apply (proj1 (proj2 (proj2 (proj2 (proj2 (proj2 ingest_idempotent)))))).
  - exists []. reflexivity.
  - apply not_elem_of_empty.
Defined.

Lemma returned_keys_once (ops : list TrackerOp) :
  ∀ t : ConsoleErrorTracker,
    tracker_inv t →
    NoDup (JSON_stringify <$> concat (tracker_run ops t).1)
    ∧ ∀ k, k ∈ JSON_stringify <$> concat (tracker_run ops t).1 →
           k ∈ JSON_stringify <$> _errors t ∨ k ∉ _seen t.
Proof.
  induction ops as [|op ops IH]; intros t Ht.
  - simpl. split; [constructor|]. by intros k ?%elem_of_nil.
  - rewrite tracker_run_cons. cbn [fst].
    destruct (IH _ (tracker_inv_step op t Ht)) as [Hnd Hfrom].
    destruct op as [e|]; cbn [tracker_step fst snd] in *.
    + split; [done|]. intros k Hk. destruct (Hfrom k Hk) as [Hin|Hout].
      * destruct (decide (JSON_stringify e ∈ _seen t)) as [Hseen|Hnew].
        -- rewrite ingest_seen in Hin by done. by left.
        -- rewrite ingest_fresh in Hin by done. cbn [_errors] in Hin.
           rewrite fmap_app in Hin. apply elem_of_app in Hin as [Hin|Hin]; [by left|].
           apply list_elem_of_singleton in Hin as ->. by right.
      * right. intros Hk'. apply Hout. by apply ingest_seen_mono.
    + cbn [drain fst snd _errors _seen] in *. cbn [concat]. rewrite fmap_app.
      destruct Ht as [Hsub Hkeys]. split.
      * apply NoDup_app. split_and!; [done| |done].
        intros k Hk Hk'. destruct (Hfrom k Hk') as [Hin|Hout].
        -- by apply elem_of_nil in Hin.
        -- apply Hout. apply list_elem_of_fmap in Hk as (r & -> & Hr). by apply Hsub.
      * intros k [Hk|Hk]%elem_of_app; [by left|].
        destruct (Hfrom k Hk) as [Hin|Hout]; [by apply elem_of_nil in Hin|by right].
Qed.

(** C4. [drain] returns the batch and empties it, leaving the seen keys as
    they are; a drain right after a drain returns the empty batch; no
    sequence of calls makes the set of seen keys smaller; a record whose
    key has been seen when a drain is made is in no batch that a later
    drain returns; and over the life of a tracker no key is returned
    twice. *)
Theorem drain_exclusive :
  (∀ t, drain t = (_errors t, {| _seen := _seen t; _errors := [] |}))
  ∧ (∀ t, (drain (drain t).2).1 = [])
  ∧ (∀ ops t, _seen t ⊆ _seen (tracker_run ops t).2
              ∧ size (_seen t) ≤ size (_seen (tracker_run ops t).2))
  ∧ (∀ t e ops batch,
       JSON_stringify e ∈ _seen t →
       batch ∈ (tracker_run ops (drain t).2).1 → e ∉ batch)
  ∧ (∀ ops, NoDup (JSON_stringify <$> concat (tracker_run ops new_tracker).1)).
Proof.
  split_and!; [done|done| | |].
  - intros ops t. pose proof (tracker_run_seen_mono ops t) as H.
    split; [done|]. by apply subseteq_size.
  - intros t e ops batch Hk Hb He.
    apply (drained_key_never_returned (JSON_stringify e) ops (drain t).2 Hk) with batch e;
      [|done..].
    simpl. by intros ? ?%elem_of_nil.
  - intros ops. by apply returned_keys_once, tracker_inv_new.
Qed.

Lemma drain_exclusive_witness :
  JSON_stringify (mkError "console.error" "x")
    ∈ _seen (ingest (mkError "console.error" "x") new_tracker)
  ∧ (tracker_run
       [OpIngest (mkError "console.error" "x");
        OpIngest (mkError "console.error" "y"); OpDrain]
       (drain (ingest (mkError "console.error" "x") new_tracker)).2).1
    = [[mkError "console.error" "y"]]
  ∧ mkError "console.error" "x" ∉ [mkError "console.error" "y"].
Proof.
  split; [apply ingest_key_seen|]. split; [reflexivity|].
  apply (proj1 (proj2 (proj2 (proj2 drain_exclusive)))
           (ingest (mkError "console.error" "x") new_tracker)
           (mkError "console.error" "x")
           [OpIngest (mkError "console.error" "x");
            OpIngest (mkError "console.error" "y"); OpDrain]).
  - apply ingest_key_seen.
  - vm_compute. left.
Defined.

(** ** The canvas locator *)

Section locator_facts.
Implicit Types (cs pre : list Canvas) (best : option nat).

(** What the loop has established after the canvases [pre]. *)
Lemma locate_loop_spec cs : ∀ pre best bestArea,
  match best with
  | Some i => first_maximal pre i ∧ (∃ c, pre !! i = Some c ∧ area c = bestArea)
  | None => bestArea = 0%N ∧ ∀ c, c ∈ pre → area c = 0%N
  end →
  match locate_loop cs (length pre) best bestArea with
  | Some i => first_maximal (pre ++ cs) i
  | None => ∀ c, c ∈ pre ++ cs → area c = 0%N
  end.
Proof.
  induction cs as [|canvas cs IH]; intros pre best bestArea Hinv.
  - rewrite app_nil_r. simpl. destruct best; by destruct Hinv.
  - cbn [locate_loop]. replace (pre ++ canvas :: cs) with ((pre ++ [canvas]) ++ cs)
      by by rewrite <- app_assoc.
    replace (S (length pre)) with (length (pre ++ [canvas]))
      by (rewrite length_app; simpl; lia).
    destruct (N.ltb_spec bestArea (area canvas)) as [Hlt|Hge]; apply IH.
    + split.
      * exists canvas. split_and!.
        -- by rewrite lookup_app_r, Nat.sub_diag.
        -- lia.
        -- intros j c' Hj. destruct (decide (j < length pre)) as [Hjl|Hjl].
           ++ rewrite lookup_app_l in Hj by done.
              destruct best as [i|].
              ** destruct Hinv as [(c & Hc & Hpos & Hmax & _) (c0 & Hc0 & Ha)].
                 assert (c0 = c) as -> by congruence.
                 specialize (Hmax _ _ Hj). lia.
              ** destruct Hinv as [_ Hz].
                 rewrite (Hz c') by (by eapply list_elem_of_lookup_2). lia.
           ++ rewrite lookup_app_r in Hj by lia.
              apply list_lookup_singleton_Some in Hj as [_ <-]. lia.
        -- intros j c' Hjl Hj. rewrite lookup_app_l in Hj by done.
           destruct best as [i|].
           ** destruct Hinv as [(c & Hc & Hpos & Hmax & _) (c0 & Hc0 & Ha)].
              assert (c0 = c) as -> by congruence.
              specialize (Hmax _ _ Hj). lia.
           ** destruct Hinv as [_ Hz].
              rewrite (Hz c') by (by eapply list_elem_of_lookup_2). lia.
      * exists canvas. by rewrite lookup_app_r, Nat.sub_diag.
    + destruct best as [i|].
      * destruct Hinv as [(c & Hc & Hpos & Hmax & Hfirst) (c0 & Hc0 & Ha)].
        assert (c0 = c) as -> by congruence.
        pose proof (lookup_lt_Some _ _ _ Hc) as Hi.
        split.
        -- exists c. split_and!; [by rewrite lookup_app_l|done| |].
           ++ intros j c' Hj. destruct (decide (j < length pre)) as [Hjl|Hjl].
              ** rewrite lookup_app_l in Hj by done. by eapply Hmax.
              ** rewrite lookup_app_r in Hj by lia.
                 apply list_lookup_singleton_Some in Hj as [_ <-]. lia.
           ++ intros j c' Hji Hj. rewrite lookup_app_l in Hj by lia. by eapply Hfirst.
        -- exists c. by rewrite lookup_app_l.
      * destruct Hinv as [-> Hz]. split; [done|].
        intros c [Hc|Hc]%elem_of_app; [by apply Hz|].
        apply list_elem_of_singleton in Hc as ->. lia.
Qed.

Lemma getCanvasHandle_spec cs :
  match getCanvasHandle cs with
  | Some i => first_maximal cs i
  | None => ∀ c, c ∈ cs → area c = 0%N
  end.
Proof.
  apply (locate_loop_spec cs [] None 0%N). split; [done|]. by intros ? ?%elem_of_nil.
Qed.

Lemma first_maximal_unique cs i j : first_maximal cs i → first_maximal cs j → i = j.
Proof.
  intros (c & Hc & _ & Hmax & Hfirst) (d & Hd & _ & Hmax' & Hfirst').
  destruct (lt_eq_lt_dec i j) as [[Hlt| ->]|Hlt]; [|done|].
  - specialize (Hfirst' _ _ Hlt Hc). specialize (Hmax _ _ Hd). lia.
  - specialize (Hfirst _ _ Hlt Hd). specialize (Hmax' _ _ Hc). lia.
Qed.

Lemma first_maximal_positive cs i :
  first_maximal cs i → ¬ ∀ c, c ∈ cs → area c = 0%N.
Proof.
  intros (c & Hc & Hpos & _) Hz.
  rewrite (Hz c) in Hpos by (by eapply list_elem_of_lookup_2). lia.
Qed.
End locator_facts.

Lemma to_double_exact (n : N) : (n < 2 ^ 53)%N → to_double n = n.
Proof. intros Hn. unfold to_double. by rewrite (proj2 (N.ltb_lt _ _) Hn). Qed.

Lemma to_double_zero (n : N) : to_double n = 0%N ↔ n = 0%N.
Proof.
  split; [|by intros ->]. unfold to_double.
  destruct (N.ltb_spec n (2 ^ 53)) as [Hlt|Hge]; [done|]. intros Hzero. exfalso.
  assert (n ≠ 0)%N as Hn by (intros ->; by vm_compute in Hge).
  assert (53 ≤ N.log2 n)%N as Hlog by (apply (N.log2_le_mono (2 ^ 53) n) in Hge; exact Hge).
  set (e := (N.log2 n - 52)%N) in *.
  assert (N.shiftr n e ≠ 0)%N as Hq.
  { rewrite N.shiftr_div_pow2. intros Hdiv.
    apply N.div_small_iff in Hdiv; [|by apply N.pow_nonzero].
    apply N.log2_lt_pow2 in Hdiv; [|lia]. lia. }
  apply N.shiftl_eq_0_iff in Hzero.
  destruct (_ || _); lia.
Qed.

Lemma area_exact (c : Canvas) : (exact_area c < 2 ^ 53)%N → area c = exact_area c.
Proof. apply to_double_exact. Qed.

(** C7, as stated, fails: the area is a product of doubles, and two
    products above [2^53] that differ can round to the same double. Here
    the second canvas has the strictly greater area and the first is
    returned. *)
Lemma locator_misses_greatest_area :
  let first := mkCanvas 134217728 134217730 0 0 in
  let second := mkCanvas 134217729 134217729 0 0 in
  (exact_area first < exact_area second)%N
  ∧ area first = area second
  ∧ getCanvasHandle [first; second] = Some 0.
Proof. by vm_compute. Qed.

(** C7, amended. The locator returns the canvas whose area, as the code
    computes it, is greatest, the first one in document order among those
    of that area; the computed area is the product of width and height,
    each factor taken from the layout size when the backing store's is
    zero, rounded to a double, which is the product itself below [2^53]
    and is zero only for a zero product; so when every product is below
    [2^53] the canvas returned is the first of strictly greatest area. It
    returns none exactly when there is no canvas or every canvas has area
    zero; for areas 0, 100, 50, 100 it returns position 1. *)
Theorem locator_first_greatest_area (document : list Canvas) :
  (∀ i, getCanvasHandle document = Some i ↔ first_maximal document i)
  ∧ (getCanvasHandle document = None ↔ ∀ c, c ∈ document → exact_area c = 0%N)
  ∧ (∀ c, area c =
          to_double ((if (width c =? 0)%N then clientWidth c else width c)
                     * (if (height c =? 0)%N then clientHeight c else height c))%N)
  ∧ (∀ n, (n < 2 ^ 53)%N → to_double n = n)
  ∧ ((∀ c, c ∈ document → (exact_area c < 2 ^ 53)%N) →
     ∀ i, getCanvasHandle document = Some i ↔
          ∃ c, document !! i = Some c
               ∧ (0 < exact_area c)%N
               ∧ (∀ j c', document !! j = Some c' → (exact_area c' ≤ exact_area c)%N)
               ∧ (∀ j c', j < i → document !! j = Some c' →
                          (exact_area c' < exact_area c)%N))
  ∧ (area <$> document = [0; 100; 50; 100]%N → getCanvasHandle document = Some 1).
Proof.
  pose proof (getCanvasHandle_spec document) as Hspec.
  assert (∀ i, getCanvasHandle document = Some i ↔ first_maximal document i) as Hfirst.
  { intros i. destruct (getCanvasHandle document) as [k|]; split.
    - by intros [= <-].
    - intros Hi. f_equal. by eapply first_maximal_unique.
    - done.
    - intros Hi. by destruct (first_maximal_positive _ _ Hi). }
  split_and!.
  - done.
  - destruct (getCanvasHandle document) as [k|]; split; try done.
    + intros Hz. destruct (first_maximal_positive _ _ Hspec).
      intros c Hc. apply to_double_zero. by apply Hz.
    + intros _ c Hc. apply to_double_zero. by apply Hspec.
  - intros c. unfold area, exact_area, num_or. f_equal.
    destruct (width c =? 0)%N eqn:Hw, (height c =? 0)%N eqn:Hh;
      repeat match goal with |- context [(?x =? 0)%N] => destruct (x =? 0)%N eqn:? end;
      rewrite ?N.eqb_eq in *; lia.
  - apply to_double_exact.
  - intros Hsmall i. rewrite Hfirst. unfold first_maximal.
    assert (∀ j c, document !! j = Some c → area c = exact_area c) as Hexact.
    { intros j c Hc. apply area_exact, Hsmall. by eapply list_elem_of_lookup_2. }
    split; intros (c & Hc & Hpos & Hmax & Hbefore); exists c.
    + rewrite (Hexact _ _ Hc) in *. split_and!; [done..| |].
      * intros j c' Hc'. rewrite <- (Hexact _ _ Hc'). by eapply Hmax.
      * intros j c' Hj Hc'. rewrite <- (Hexact _ _ Hc'). by eapply Hbefore.
    + rewrite (Hexact _ _ Hc). split_and!; [done..| |].
      * intros j c' Hc'. rewrite (Hexact _ _ Hc'). by eapply Hmax.
      * intros j c' Hj Hc'. rewrite (Hexact _ _ Hc'). by eapply Hbefore.
  - intros Hareas.
    destruct document as [|c0 [|c1 [|c2 [|c3 [|]]]]]; try discriminate.
    injection Hareas as H0 H1 H2 H3.
    unfold getCanvasHandle. cbn [locate_loop]. rewrite H0, H1, H2, H3. reflexivity.
Qed.

Lemma locator_first_greatest_area_witness :
  getCanvasHandle
    [mkCanvas 0 0 0 0; mkCanvas 10 10 0 0; mkCanvas 0 0 5 10; mkCanvas 20 5 300 150]
  = Some 1
  ∧ ∃ c, [mkCanvas 0 0 0 0; mkCanvas 10 10 0 0; mkCanvas 0 0 5 10; mkCanvas 20 5 300 150]
           !! 1 = Some c
         ∧ (0 < exact_area c)%N
         ∧ (∀ j c', [mkCanvas 0 0 0 0; mkCanvas 10 10 0 0; mkCanvas 0 0 5 10;
                     mkCanvas 20 5 300 150] !! j = Some c' →
                    (exact_area c' ≤ exact_area c)%N)
         ∧ (∀ j c', j < 1 →
                    [mkCanvas 0 0 0 0; mkCanvas 10 10 0 0; mkCanvas 0 0 5 10;
                     mkCanvas 20 5 300 150] !! j = Some c' →
                    (exact_area c' < exact_area c)%N).
Proof.
  destruct (locator_first_greatest_area
              [mkCanvas 0 0 0 0; mkCanvas 10 10 0 0; mkCanvas 0 0 5 10; mkCanvas 20 5 300 150])
    as (_ & _ & _ & _ & Hsmall & Hexample).
  assert (getCanvasHandle
            [mkCanvas 0 0 0 0; mkCanvas 10 10 0 0; mkCanvas 0 0 5 10; mkCanvas 20 5 300 150]
          = Some 1) as Hfound by (apply Hexample; reflexivity).
  split; [exact Hfound|].
  apply Hsmall; [|exact Hfound].
  intros c Hc. repeat (apply elem_of_cons in Hc as [->|Hc]; [by vm_compute|]).
  by apply elem_of_nil in Hc.
Defined.

(** ** The screenshot cascade *)

Lemma alpha_all_zero_bounded (n : nat) : ∀ data : list N,
  length data ≤ n →
  (alpha_all_zero data = true ↔ ∀ k a, data !! (4 * k + 3) = Some a → a = 0%N).
Proof.
  induction n as [|n IH]; intros data Hlen.
  - destruct data; [|simpl in Hlen; lia]. split; [|done].
    intros _ k a. by rewrite lookup_nil.
  - destruct data as [|r [|g [|b [|a rest]]]]; try (split; [|done]; intros _ k a' Hk;
      apply lookup_lt_Some in Hk; simpl in Hk; lia).
    cbn [alpha_all_zero]. destruct (N.eqb_spec a 0) as [->|Ha].
    + rewrite IH by (simpl in Hlen; lia). split.
      * intros H [|k] a' Hk; [by injection Hk|].
        replace (4 * S k + 3) with (S (S (S (S (4 * k + 3))))) in Hk by lia.
        by apply (H k).
      * intros H k a' Hk. apply (H (S k)).
        by replace (4 * S k + 3) with (S (S (S (S (4 * k + 3))))) by lia.
    + split; [done|]. intros H. by destruct Ha, (H 0 a).
Qed.

Lemma alpha_all_zero_spec (data : list N) :
  alpha_all_zero data = true ↔ ∀ k a, data !! (4 * k + 3) = Some a → a = 0%N.
Proof. by apply (alpha_all_zero_bounded (length data)). Qed.

Lemma captureScreenshot_later_strategy (page : Page) (canvas : CanvasHandle) :
  strategy1 (Some canvas) = None →
  captureScreenshot page (Some canvas) =
  Written (match element_screenshot canvas with
           | Some png => png
           | None => page_screenshot page (boundingBox canvas)
           end).
Proof.
  intros H1. unfold captureScreenshot. rewrite H1. cbn [strategy2].
  destruct (element_screenshot canvas) as [shot|]; [done|].
  cbn [strategy3]. by destruct (boundingBox canvas).
Qed.

(** C6. With the page screenshot of the last strategy resolving, as the
    source takes it to, the capturer never raises: it always writes a
    buffer. When the direct export fails (the export throws, its result is
    empty, or every alpha byte the probe samples is 0) the buffer written
    is the element screenshot or, when that one fails too, the page
    screenshot with the canvas's bounding box as clip if it has one. When
    the probe is run and throws, the canvas counts as not transparent and
    the directly exported buffer is the one written. *)
Theorem capture_fallback_cascade (page : Page) (canvas : CanvasHandle) :
  (∀ c : option CanvasHandle, ∃ b, captureScreenshot page c = Written b)
  ∧ (toDataURL canvas = ToDataURLThrows
     ∨ captureCanvasPngBase64 canvas = ""
     ∨ (∃ data, probe canvas = ImageData data
                ∧ ∀ k a, data (probe_size (element canvas)) !! (4 * k + 3) = Some a → a = 0%N) →
     captureScreenshot page (Some canvas) =
     Written (match element_screenshot canvas with
              | Some png => png
              | None => page_screenshot page (boundingBox canvas)
              end))
  ∧ (probe canvas = ProbeThrows →
     probe_w (element canvas) ≠ 0%N → probe_h (element canvas) ≠ 0%N →
     isCanvasTransparent (Some canvas) = false
     ∧ (captureCanvasPngBase64 canvas ≠ "" →
        captureScreenshot page (Some canvas)
        = Written (Buffer_from (captureCanvasPngBase64 canvas)))).
Proof.
  split_and!.
  - intros [c|].
    + unfold captureScreenshot.
      destruct (strategy1 (Some c)) as [b|]; [by exists b|].
      cbn [strategy2]. destruct (element_screenshot c) as [b|]; [by exists b|].
      cbn [strategy3]. destruct (boundingBox c); by eexists.
    + by eexists.
  - intros Hfail. apply captureScreenshot_later_strategy. unfold strategy1.
    destruct Hfail as [Hthrow|[Hempty|(data & Hprobe & Halpha)]].
    + unfold captureCanvasPngBase64. by rewrite Hthrow.
    + by rewrite Hempty.
    + case_decide; [done|].
      assert (isCanvasTransparent (Some canvas) = true) as ->; [|done].
      unfold isCanvasTransparent. case_match; [done|].
      rewrite Hprobe. by apply alpha_all_zero_spec.
  - intros Hprobe Hw Hh.
    assert (isCanvasTransparent (Some canvas) = false) as Hnt.
    { unfold isCanvasTransparent. rewrite Hprobe.
      destruct (N.eqb_spec (probe_w (element canvas)) 0); [done|].
      by destruct (N.eqb_spec (probe_h (element canvas)) 0). }
    split; [done|]. intros Hb64.
    unfold captureScreenshot, strategy1. rewrite decide_False by done.
    by rewrite Hnt.
Qed.

Lemma capture_fallback_cascade_witness :
  captureScreenshot quiet_page (Some tainted_canvas) = Written (Png "page")
  ∧ captureScreenshot quiet_page (Some unprobed_canvas) = Written (Buffer_from "iVBORw0KGgo=").
Proof.
  destruct (capture_fallback_cascade quiet_page tainted_canvas) as (_ & Hlater & _).
  destruct (capture_fallback_cascade quiet_page unprobed_canvas) as (_ & _ & Hkept).
  split.
  - apply Hlater. left. reflexivity.
  - apply Hkept; [reflexivity|discriminate|discriminate|discriminate].
Defined.

(** ** The choreographer *)

Section choreography_facts.
Implicit Types (m k : Cmd unit) (evs : list InputEvent).

Lemma appends_ret : appends (mret tt) [].
Proof. intros log. by rewrite app_nil_r. Qed.

Lemma appends_emit e : appends (emit e) [e].
Proof. done. Qed.

Lemma appends_seq m k evs1 evs2 :
  appends m evs1 → appends k evs2 → appends (m ;; k) (evs1 ++ evs2).
Proof.
  intros Hm Hk log. unfold mbind, Cmd_bind. by rewrite Hm, Hk, app_assoc.
Qed.

Lemma appends_inj m evs1 evs2 : appends m evs1 → appends m evs2 → evs1 = evs2.
Proof. intros H1 H2. specialize (H1 []). rewrite H2 in H1. by injection H1. Qed.

(** A loop whose body only adds requests adds the requests of its rounds,
    round after round. *)
Lemma for_of_appends {A} (P : A → list InputEvent → Prop) (body : A → Cmd unit) (xs : list A) :
  (∀ x, ∃ evs, appends (body x) evs ∧ P x evs) →
  ∃ rounds, appends (for_of xs body) (concat rounds) ∧ Forall2 P xs rounds.
Proof.
  intros Hbody. induction xs as [|x xs (rounds & Hrun & Hall)].
  - exists []. split; [apply appends_ret|constructor].
  - destruct (Hbody x) as (evs & Hx & HP). exists (evs :: rounds). split.
    + cbn [for_of concat]. by apply appends_seq.
    + by constructor.
Qed.

Lemma for_of_exact {A} (body : A → Cmd unit) (xs : list A) :
  (∀ x, ∃ evs, appends (body x) evs) →
  appends (for_of xs body) (xs ≫= λ x, (body x []).2).
Proof.
  intros Hbody. induction xs as [|x xs IH]; [apply appends_ret|].
  cbn [for_of]. change ((x :: xs) ≫= λ x, (body x []).2)
    with ((body x []).2 ++ (xs ≫= λ x, (body x []).2)).
  apply appends_seq; [|done].
  destruct (Hbody x) as [evs Hx]. by rewrite (Hx []).
Qed.

Lemma press_requests_cases canvas step button :
  press_requests canvas step button
  = if is_mouse_button button then
      match canvas ≫= boundingBox with
      | Some bbox =>
          [mouse_move (bx bbox + default (bwidth bbox / 2) (mouse_x step))%Q
                      (by_ bbox + default (bheight bbox / 2) (mouse_y step))%Q;
           mouse_down (mouse_button_of button)]
      | None => []
      end
    else [keyboard_down (translate_key button)].
Proof.
  unfold press_requests, press. destruct (is_mouse_button button); [|done].
  destruct canvas as [c|]; [|done]. simpl.
  destruct (boundingBox c) as [bbox|]; [|done].
  by destruct (mouse_x step), (mouse_y step).
Qed.

Lemma release_requests_cases button :
  release_requests button
  = [if is_mouse_button button then mouse_up (mouse_button_of button)
     else keyboard_up (translate_key button)].
Proof. unfold release_requests, release. by destruct (is_mouse_button button). Qed.

Lemma for_frames_appends body evs n :
  appends body evs → appends (for_frames n body) (concat (replicate n evs)).
Proof.
  intros Hbody. induction n as [|n IH]; [apply appends_ret|].
  cbn [for_frames replicate concat]. by apply appends_seq.
Qed.

Lemma press_appends canvas step button :
  ∃ evs, appends (press canvas step button) evs
         ∧ (Forall (λ e, is_press_event e = true) evs
            ∧ pressed evs = if press_issued canvas button then [held_of button] else []).
Proof.
  unfold press, press_issued, has_bbox, held_of.
  destruct (is_mouse_button button); simpl.
  - destruct canvas as [c|]; simpl; [destruct (boundingBox c) as [bbox|]|].
    + eexists. split; [apply appends_seq; apply appends_emit|].
      split; [by repeat constructor|done].
    + exists []. split; [apply appends_ret|by split].
    + exists []. split; [apply appends_ret|by split].
  - eexists. split; [apply appends_emit|]. split; [by repeat constructor|done].
Qed.

Lemma release_appends button :
  ∃ evs, appends (release button) evs
         ∧ (Forall (λ e, is_release_event e = true) evs
            ∧ released evs = [held_of button]).
Proof.
  unfold release, held_of. destruct (is_mouse_button button);
    (eexists; split; [apply appends_emit|]; split; [by repeat constructor|done]).
Qed.

Lemma Forall2_concat_Forall {A} (Q : InputEvent → Prop) (R : A → list InputEvent → Prop)
    (xs : list A) rounds :
  (∀ x evs, R x evs → Forall Q evs) → Forall2 R xs rounds → Forall Q (concat rounds).
Proof.
  intros HR Hall. induction Hall; simpl; [constructor|].
  apply Forall_app. split; [by eapply HR|done].
Qed.

Lemma pressed_app evs1 evs2 : pressed (evs1 ++ evs2) = pressed evs1 ++ pressed evs2.
Proof. apply omap_app. Qed.

Lemma released_app evs1 evs2 : released (evs1 ++ evs2) = released evs1 ++ released evs2.
Proof. apply omap_app. Qed.

Lemma pressed_none evs :
  Forall (λ e, is_press_event e = false) evs → pressed evs = [].
Proof.
  induction 1 as [|e evs He _ IH]; [done|].
  unfold pressed in *. change (e :: evs) with ([e] ++ evs).
  rewrite omap_app, IH. by destruct e.
Qed.

Lemma released_none evs :
  Forall (λ e, is_release_event e = false) evs → released evs = [].
Proof.
  induction 1 as [|e evs He _ IH]; [done|].
  unfold released in *. change (e :: evs) with ([e] ++ evs).
  rewrite omap_app, IH. by destruct e.
Qed.

Lemma pressed_rounds canvas (bs : list string) rounds :
  Forall2 (λ b evs, Forall (λ e, is_press_event e = true) evs
                    ∧ pressed evs = if press_issued canvas b then [held_of b] else [])
          bs rounds →
  pressed (concat rounds) = held_of <$> filter (λ b, press_issued canvas b = true) bs.
Proof.
  induction 1 as [|b evs bs rounds [_ Hb] _ IH]; [done|].
  cbn [concat]. rewrite pressed_app, Hb, IH, filter_cons.
  destruct (press_issued canvas b); by rewrite ?decide_True, ?decide_False by done.
Qed.

Lemma released_rounds (bs : list string) rounds :
  Forall2 (λ b evs, Forall (λ e, is_release_event e = true) evs
                    ∧ released evs = [held_of b])
          bs rounds →
  released (concat rounds) = held_of <$> bs.
Proof.
  induction 1 as [|b evs bs rounds [_ Hb] _ IH]; [done|].
  cbn [concat]. by rewrite released_app, Hb, IH.
Qed.

Lemma concat_replicate_singleton {A} (x : A) n : concat (replicate n [x]) = replicate n x.
Proof. induction n; simpl; by f_equal. Qed.

(** The shape of the requests of one step. *)
Lemma step_events_shape page canvas step :
  ∃ presses releases waits,
    step_events page canvas step
    = presses ++ replicate (Z.to_nat (frames_or_1 step)) (frame_request page)
              ++ releases ++ waits
    ∧ Forall (λ e, is_press_event e = true) presses
    ∧ Forall (λ e, is_release_event e = true) releases
    ∧ Forall (λ e, is_sleep_event e = true) waits
    ∧ pressed presses
      = held_of <$> filter (λ b, press_issued canvas b = true)
                           (new_Set (default [] (buttons step)))
    ∧ released releases = held_of <$> new_Set (default [] (buttons step))
    ∧ presses = new_Set (default [] (buttons step)) ≫= press_requests canvas step
    ∧ releases = new_Set (default [] (buttons step)) ≫= release_requests.
Proof.
  destruct (for_of_appends _ (press canvas step) (new_Set (default [] (buttons step)))
              (press_appends canvas step)) as (ps & Hps & Hpall).
  destruct (for_of_appends _ release (new_Set (default [] (buttons step)))
              release_appends) as (rs & Hrs & Hrall).
  pose proof (for_frames_appends (advance_frame page) [frame_request page]
                (Z.to_nat (frames_or_1 step)) (appends_emit _)) as Hfs.
  rewrite concat_replicate_singleton in Hfs.
  assert (∃ waits, appends (match wait_ms step with
                            | Some ms => if (ms =? 0)%Z then mret tt else emit (sleep ms)
                            | None => mret tt
                            end) waits
                   ∧ Forall (λ e, is_sleep_event e = true) waits) as (ws & Hws & Hwall).
  { destruct (wait_ms step) as [ms|]; [destruct (ms =? 0)%Z|].
    - exists []. split; [apply appends_ret|constructor].
    - eexists. split; [apply appends_emit|by repeat constructor].
    - exists []. split; [apply appends_ret|constructor]. }
  exists (concat ps), (concat rs), ws. split_and!.
  - unfold step_events, run_step.
    pose proof (appends_seq _ _ _ _ Hps (appends_seq _ _ _ _ Hfs
                  (appends_seq _ _ _ _ Hrs Hws))) as Hrun.
    by rewrite Hrun.
  - eapply Forall2_concat_Forall; [|exact Hpall]. by intros ? ? [? _].
  - eapply Forall2_concat_Forall; [|exact Hrall]. by intros ? ? [? _].
  - done.
  - by apply pressed_rounds.
  - by apply released_rounds.
  - eapply appends_inj; [exact Hps|]. apply for_of_exact.
    intros b. destruct (press_appends canvas step b) as (evs & Hb & _). by exists evs.
  - eapply appends_inj; [exact Hrs|]. apply for_of_exact.
    intros b. destruct (release_appends b) as (evs & Hb & _). by exists evs.
Qed.
End choreography_facts.

Lemma four_segments_lookup (P A R W : list InputEvent) (i : nat) (e : InputEvent) :
  (P ++ A ++ R ++ W) !! i = Some e →
  (i < length P ∧ e ∈ P)
  ∨ (length P ≤ i < length P + length A ∧ e ∈ A)
  ∨ (length P + length A ≤ i < length P + length A + length R ∧ e ∈ R)
  ∨ (length P + length A + length R ≤ i ∧ e ∈ W).
Proof.
  intros H.
  apply lookup_app_Some in H as [H|[HP H]].
  { left. split; [by eapply lookup_lt_Some|by eapply list_elem_of_lookup_2]. }
  apply lookup_app_Some in H as [H|[HA H]].
  { right; left. apply lookup_lt_Some in H as Hlt.
    split; [lia|by eapply list_elem_of_lookup_2]. }
  apply lookup_app_Some in H as [H|[HR H]].
  { right; right; left. apply lookup_lt_Some in H as Hlt.
    split; [lia|by eapply list_elem_of_lookup_2]. }
  right; right; right. split; [lia|by eapply list_elem_of_lookup_2].
Qed.

Lemma segments_ordered (P A R W : list InputEvent) :
  Forall (λ e, is_press_event e = true) P →
  Forall (λ e, is_advance_event e = true) A →
  Forall (λ e, is_release_event e = true) R →
  Forall (λ e, is_sleep_event e = true) W →
  ∀ i j ei ej,
    (P ++ A ++ R ++ W) !! i = Some ei → (P ++ A ++ R ++ W) !! j = Some ej →
    (is_press_event ei = true → is_advance_event ej = true → i < j)
    ∧ (is_advance_event ei = true → is_release_event ej = true → i < j)
    ∧ (is_press_event ei = true → is_release_event ej = true → i < j).
Proof.
  intros HP HA HR HW i j ei ej Hi Hj.
  rewrite Forall_forall in HP, HA, HR, HW.
  apply four_segments_lookup in Hi as [[Hi Hei]|[[Hi Hei]|[[Hi Hei]|[Hi Hei]]]];
    apply four_segments_lookup in Hj as [[Hj Hej]|[[Hj Hej]|[[Hj Hej]|[Hj Hej]]]];
    first [apply HP in Hei | apply HA in Hei | apply HR in Hei | apply HW in Hei];
    first [apply HP in Hej | apply HA in Hej | apply HR in Hej | apply HW in Hej];
    split_and!; intros Hci Hcj;
    try lia; destruct ei; try discriminate; destruct ej; discriminate.
Qed.

Lemma no_advance_among (evs : list InputEvent) :
  Forall (λ e, is_advance_event e = false) evs →
  filter (λ e, is_advance_event e = true) evs = [].
Proof.
  induction 1 as [|e evs He _ IH]; [done|].
  rewrite filter_cons_False by (by rewrite He). exact IH.
Qed.

Lemma step_advances (page : Page) (canvas : option CanvasHandle) (step : Step) :
  advances (step_events page canvas step) = Z.to_nat (frames_or_1 step).
Proof.
  destruct (step_events_shape page canvas step)
    as (presses & releases & waits & -> & HP & HR & HW & _).
  unfold advances. rewrite !filter_app.
  rewrite (no_advance_among presses), (no_advance_among releases), (no_advance_among waits).
  - rewrite app_nil_l, !app_nil_r.
    induction (Z.to_nat (frames_or_1 step)) as [|n IH]; [done|].
    cbn [replicate]. rewrite filter_cons_True by done. simpl. by f_equal.
  - eapply Forall_impl; [exact HW|]. by intros [].
  - eapply Forall_impl; [exact HR|]. by intros [].
  - eapply Forall_impl; [exact HP|]. by intros [].
Qed.

(** Outside the domain of [frames]: [0] is falsy and counts as omitted, a
    negative count gives no round trip. *)
Lemma step_advances_not_positive
    (page : Page) (canvas : option CanvasHandle) (step : Step) (k : Z) :
  frames step = Some k → (k ≤ 0)%Z →
  advances (step_events page canvas step) = if (k =? 0)%Z then 1 else 0.
Proof.
  intros Hk Hle. rewrite step_advances. unfold frames_or_1. rewrite Hk.
  destruct (Z.eqb_spec k 0); [done|lia].
Qed.

(** C5. In every step the requests come as: the presses (pointer move and
    button down for a mouse button, key down for a translated key name),
    then exactly [frames] frame-advance round trips, one when [frames] is
    omitted, each awaiting [advanceTime(1000/60)] when the page has such a
    function, then the releases (then the optional wait); every press
    precedes every advance and every advance precedes every release,
    whatever the order of the buttons. *)
Theorem choreography_ordering
    (page : Page) (canvas : option CanvasHandle) (step : Step) (k : Z) :
  (frames step = None ∧ k = 1%Z) ∨ (frames step = Some k ∧ (0 < k)%Z) →
  let set := new_Set (default [] (buttons step)) in
  let presses := set ≫= press_requests canvas step in
  let releases := set ≫= release_requests in
  let evs := step_events page canvas step in
  (∃ waits,
     evs = presses
           ++ replicate (Z.to_nat k)
                (evaluate_frame
                   (if advanceTime_is_function page then Some (1000 # 60)%Q else None))
           ++ releases ++ waits
     ∧ Forall (λ e, is_sleep_event e = true) waits)
  ∧ Forall (λ e, is_press_event e = true) presses
  ∧ Forall (λ e, is_release_event e = true) releases
  ∧ (∀ button,
       press_requests canvas step button
       = if is_mouse_button button then
           match canvas ≫= boundingBox with
           | Some bbox =>
               [mouse_move (bx bbox + default (bwidth bbox / 2) (mouse_x step))%Q
                           (by_ bbox + default (bheight bbox / 2) (mouse_y step))%Q;
                mouse_down (mouse_button_of button)]
           | None => []
           end
         else [keyboard_down (translate_key button)])
  ∧ (∀ button,
       release_requests button
       = [if is_mouse_button button then mouse_up (mouse_button_of button)
          else keyboard_up (translate_key button)])
  ∧ advances evs = Z.to_nat k
  ∧ ∀ i j ei ej,
      evs !! i = Some ei → evs !! j = Some ej →
      (is_press_event ei = true → is_advance_event ej = true → i < j)
      ∧ (is_advance_event ei = true → is_release_event ej = true → i < j)
      ∧ (is_press_event ei = true → is_release_event ej = true → i < j).
Proof.
  intros Hk. cbn zeta.
  assert (frames_or_1 step = k) as Hframes.
  { unfold frames_or_1. destruct Hk as [[-> ->]|[-> Hpos]]; [done|].
    destruct (Z.eqb_spec k 0); [lia|done]. }
  destruct (step_events_shape page canvas step)
    as (presses & releases & waits & Hshape & HP & HR & HW & _ & _ & -> & ->).
  rewrite Hframes in Hshape. unfold frame_request in Hshape.
  split_and!.
  - by exists waits.
  - done.
  - done.
  - apply press_requests_cases.
  - apply release_requests_cases.
  - by rewrite step_advances, Hframes.
  - rewrite Hshape. apply segments_ordered; try done.
    by apply Forall_replicate.
Qed.

Lemma choreography_ordering_witness :
  ∃ waits,
    step_events quiet_page (Some tainted_canvas)
      (mkStep (Some ["a"; "left_mouse_button"]) (Some 3%Z) None None None)
    = [keyboard_down "KeyA"; mouse_move (0 + 300 / 2)%Q (0 + 150 / 2)%Q; mouse_down left]
      ++ replicate 3 (evaluate_frame (Some (1000 # 60)%Q))
      ++ [keyboard_up "KeyA"; mouse_up left] ++ waits.
Proof.
  destruct (choreography_ordering quiet_page (Some tainted_canvas)
      (mkStep (Some ["a"; "left_mouse_button"]) (Some 3%Z) None None None) 3%Z)
    as ((waits & Hshape & _) & _).
  - right. split; [reflexivity|lia].
  - exists waits. exact Hshape.
Defined.

Lemma step_pressed (page : Page) (canvas : option CanvasHandle) (step : Step) :
  pressed (step_events page canvas step)
  = held_of <$> filter (λ b, press_issued canvas b = true)
                       (new_Set (default [] (buttons step))).
Proof.
  destruct (step_events_shape page canvas step)
    as (presses & releases & waits & -> & _ & HR & HW & Hpressed & _ & _ & _).
  rewrite !pressed_app, Hpressed.
  rewrite (pressed_none (replicate _ _)), (pressed_none releases), (pressed_none waits).
  - by rewrite !app_nil_r.
  - eapply Forall_impl; [exact HW|]. by intros [].
  - eapply Forall_impl; [exact HR|]. by intros [].
  - by apply Forall_replicate.
Qed.

Lemma step_released (page : Page) (canvas : option CanvasHandle) (step : Step) :
  released (step_events page canvas step)
  = held_of <$> new_Set (default [] (buttons step)).
Proof.
  destruct (step_events_shape page canvas step)
    as (presses & releases & waits & -> & HP & _ & HW & _ & Hreleased & _ & _).
  rewrite !released_app, Hreleased.
  rewrite (released_none presses), (released_none (replicate _ _)), (released_none waits).
  - by rewrite app_nil_r.
  - eapply Forall_impl; [exact HW|]. by intros [].
  - by apply Forall_replicate.
  - eapply Forall_impl; [exact HP|]. by intros [].
Qed.

Lemma filter_keeps_all (P : string → Prop) `{!∀ x, Decision (P x)} (l : list string) :
  (∀ x, x ∈ l → P x) → filter P l = l.
Proof.
  induction l as [|x l IH]; intros Hall; [done|].
  rewrite filter_cons_True by (apply Hall; left).
  f_equal. apply IH. intros y Hy. apply Hall. by right.
Qed.

(** C8, as stated, fails: on a canvas without a bounding box the press
    of a mouse button is skipped, yet the button is released. *)
Lemma release_without_press :
  let evs := step_events quiet_page (Some hidden_canvas)
               (mkStep (Some ["left_mouse_button"]) None None None None) in
  evs = [evaluate_frame (Some (1000 # 60)%Q); mouse_up left]
  ∧ pressed evs = []
  ∧ released evs = [held_mouse left]
  ∧ ¬ (∀ h, h ∈ released evs ↔ h ∈ pressed evs).
Proof.
  split_and!; [reflexivity|reflexivity|reflexivity|].
  intros H. specialize (H (held_mouse left)).
  assert (held_mouse left ∈ @nil Held) as Hin; [|by apply elem_of_nil in Hin].
  apply H. vm_compute. left.
Qed.

(** C8, amended. The release phase releases every button of the step's
    set, in the translated form the press phase uses; the press phase
    presses the buttons of the set other than the mouse buttons of a step
    whose canvas has no bounding box. So every pressed button is released,
    and the two coincide when the canvas has a bounding box or the step
    names no mouse button. *)
Theorem release_covers_press (page : Page) (canvas : option CanvasHandle) (step : Step) :
  let evs := step_events page canvas step in
  let set := new_Set (default [] (buttons step)) in
  released evs = held_of <$> set
  ∧ pressed evs = held_of <$> filter (λ b, press_issued canvas b = true) set
  ∧ (∀ h, h ∈ pressed evs → h ∈ released evs)
  ∧ (has_bbox canvas = true ∨ (∀ b, b ∈ set → is_mouse_button b = false) →
     pressed evs = released evs).
Proof.
  cbn zeta. rewrite step_pressed, step_released. split_and!; [done|done| |].
  - intros h (b & -> & Hb)%list_elem_of_fmap.
    apply list_elem_of_fmap. exists b. split; [done|].
    by apply list_elem_of_filter in Hb as [_ Hb].
  - intros Hall. f_equal. apply filter_keeps_all.
    intros b Hb. unfold press_issued.
    destruct Hall as [->|Hkeys]; [by rewrite orb_true_r|].
    by rewrite (Hkeys b Hb).
Qed.

Lemma release_covers_press_witness :
  pressed (step_events quiet_page None
             (mkStep (Some ["up"; "x"; "up"]) None None None None))
  = released (step_events quiet_page None
                (mkStep (Some ["up"; "x"; "up"]) None None None None)).
Proof.
  apply (proj2 (proj2 (proj2 (release_covers_press quiet_page None
           (mkStep (Some ["up"; "x"; "up"]) None None None None))))).
  right. intros b Hb. vm_compute in Hb.
  apply elem_of_cons in Hb as [->|Hb]; [reflexivity|].
  apply elem_of_cons in Hb as [->|Hb]; [reflexivity|].
  by apply elem_of_nil in Hb.
Defined.

(** ** The virtual time shim *)

Section shim_facts.
Implicit Types (w : Window) (c : ShimCall) (cs : list ShimCall).

Ltac inv_intro :=
  intros (Hpend & Htim & Hfid & Hfr & Htt & Hff & Htf).

Ltac map_cases :=
  repeat match goal with
         | H : <[_:=_]> _ !! _ = Some _ |- _ => apply lookup_insert_Some in H as [[<- ?]|[? H]]
         | H : delete _ _ !! _ = Some _ |- _ => apply lookup_delete_Some in H as [? H]
         end; simplify_eq.

Lemma window_inv_install : window_inv install_shim.
Proof.
  unfold window_inv, install_shim; simpl.
  split_and!; intros *; rewrite ?lookup_empty; try done; set_solver.
Qed.

Ltac set_cases :=
  repeat match goal with
         | H : _ ∈ {[_]} ∪ _ |- _ => apply elem_of_union in H as [H%elem_of_singleton|H]
         | H : _ ∈ _ ∖ {[_]} |- _ => apply elem_of_difference in H as [H ?]
         end; subst.

(** Forward use of the invariant on every lookup at hand. *)
Ltac inv_learn :=
  repeat match goal with
         | Htim : (∀ id k task, timers ?w !! id = Some (k, task) → _),
           H : timers ?w !! ?i = Some (_, _) |- _ =>
             lazymatch goal with
             | _ : i < next_timer w |- _ => fail
             | _ => destruct (Htim _ _ _ H)
             end
         | Hfid : (∀ id cb, frame_requests ?w !! id = Some cb → _),
           H : frame_requests ?w !! ?i = Some _ |- _ =>
             lazymatch goal with
             | _ : i < next_frame w |- _ => fail
             | _ => pose proof (Hfid _ _ H)
             end
         | Hfr : (∀ id task, frame_requests ?w !! id = Some (wrapped_frame task) → _),
           H : frame_requests ?w !! _ = Some (wrapped_frame ?t) |- _ =>
             lazymatch goal with
             | _ : t ∈ pending w |- _ => fail
             | _ => pose proof (Hfr _ _ H)
             end
         | Hpend : (∀ task, task ∈ pending ?w → _),
           H : ?t ∈ pending ?w |- _ =>
             lazymatch goal with
             | _ : t < next_task w |- _ => fail
             | _ => pose proof (Hpend _ H)
             end
         end.

Ltac inv_finish :=
  repeat match goal with |- _ ∧ _ => split end;
  first
    [ done
    | lia
    | apply elem_of_union; left; by apply elem_of_singleton
    | apply elem_of_union; by right
    | apply elem_of_difference; split; [done|]; rewrite elem_of_singleton; intros ->; eauto
    | eauto ].

Ltac inv_auto :=
  inv_intro; unfold window_inv; simpl; split_and!; intros *; intros; map_cases; set_cases;
  inv_learn; inv_finish.

Lemma window_inv_setTimeout w : window_inv w → window_inv (shim_setTimeout w).2.
Proof. inv_auto. Qed.

Lemma window_inv_setInterval w : window_inv w → window_inv (shim_setInterval w).2.
Proof. inv_auto. Qed.

Lemma window_inv_requestAnimationFrame w :
  window_inv w → window_inv (shim_requestAnimationFrame w).2.
Proof. inv_auto. Qed.

Lemma window_inv_origRAF_step w : window_inv w → window_inv (origRAF_step w).
Proof. inv_auto. Qed.

Lemma window_inv_clear_timer id w : window_inv w → window_inv (native_clear_timer id w).
Proof. inv_auto. Qed.

Lemma window_inv_cancel_frame id w : window_inv w → window_inv (native_cancel_frame id w).
Proof. inv_auto. Qed.

Lemma window_inv_run_timer id w : window_inv w → window_inv (run_timer id w).
Proof.
  intros Hw. unfold run_timer. destruct (timers w !! id) as [[[] task]|] eqn:Hid; [|done..].
  revert Hw. inv_auto.
Qed.

Lemma window_inv_run_frame id elapsed w : window_inv w → window_inv (run_frame id elapsed w).
Proof.
  intros Hw. unfold run_frame.
  destruct (frame_requests w !! id) as [[task|]|] eqn:Hid; [| |done].
  - revert Hw. inv_auto.
  - destruct elapsed; [by apply window_inv_cancel_frame|].
    by apply window_inv_origRAF_step, window_inv_cancel_frame.
Qed.

Lemma window_inv_step c w : window_inv w → window_inv (shim_step c w).2.
Proof.
  intros Hw. destruct c.
  - exact (window_inv_setTimeout w Hw).
  - exact (window_inv_setInterval w Hw).
  - exact (window_inv_requestAnimationFrame w Hw).
  - exact (window_inv_origRAF_step w Hw).
  - exact (window_inv_clear_timer _ w Hw).
  - exact (window_inv_clear_timer _ w Hw).
  - exact (window_inv_cancel_frame _ w Hw).
  - exact (window_inv_run_timer _ w Hw).
  - exact (window_inv_run_frame _ _ w Hw).
  - exact Hw.
Qed.

Lemma shim_run_cons c cs w : shim_run (c :: cs) w = shim_run cs (shim_step c w).2.
Proof. done. Qed.

Lemma shim_run_app cs1 cs2 w : shim_run (cs1 ++ cs2) w = shim_run cs2 (shim_run cs1 w).
Proof. apply fold_left_app. Qed.

Lemma window_inv_run cs w : window_inv w → window_inv (shim_run cs w).
Proof.
  revert w. induction cs as [|c cs IH]; intros w Hw; [done|].
  rewrite shim_run_cons. by apply IH, window_inv_step.
Qed.

Lemma reachable_window_inv w : reachable_window w → window_inv w.
Proof. intros [cs <-]. apply window_inv_run, window_inv_install. Qed.

Lemma reachable_window_run cs w : reachable_window w → reachable_window (shim_run cs w).
Proof. intros [cs0 <-]. exists (cs0 ++ cs). apply shim_run_app. Qed.

(** [leaked] in a form that steps preserve on their own. *)
Lemma leaked_alt task w :
  window_inv w →
  leaked task w ↔
  (task ∈ pending w ∧ task < next_task w
   ∧ (∀ id, timers w !! id ≠ Some (Timeout, task))
   ∧ (∀ id, frame_requests w !! id ≠ Some (wrapped_frame task))).
Proof.
  intros Hw. unfold leaked, awaited. split.
  - intros [Hin Hna]. split_and!; [done|by apply Hw|..];
      intros id H; apply Hna; eauto.
  - intros (Hin & _ & Hnt & Hnf). split; [done|].
    intros [[id H]|[id H]]; [by apply (Hnt id)|by apply (Hnf id)].
Qed.

Ltac leak_auto :=
  intros (Hin & Hlt & Hnt & Hnf); simpl; split_and!;
  [ first [done | apply elem_of_union; by right | idtac]
  | first [done | lia]
  | intros id' H'; map_cases; first [lia | by eapply Hnt | by eapply Hnf | idtac]
  | intros id' H'; map_cases; first [lia | by eapply Hnt | by eapply Hnf | idtac] ].

Lemma leaked_step c w task :
  window_inv w → leaked task w → leaked task (shim_step c w).2.
Proof.
  intros Hw Hl. apply leaked_alt; [by apply window_inv_step|].
  apply leaked_alt in Hl; [|done]. clear Hw. revert Hl.
  destruct c; cbn [shim_step snd]; try done.
  - change (let '(id, w') := shim_setTimeout w in (Some id, w')).2
      with (shim_setTimeout w).2. leak_auto.
  - change (let '(id, w') := shim_setInterval w in (Some id, w')).2
      with (shim_setInterval w).2. leak_auto.
  - change (let '(id, w') := shim_requestAnimationFrame w in (Some id, w')).2
      with (shim_requestAnimationFrame w).2. leak_auto.
  - leak_auto.
  - leak_auto.
  - leak_auto.
  - leak_auto.
  - unfold run_timer. destruct (timers w !! id) as [[[] task']|] eqn:Hid; [|done..].
    leak_auto. apply elem_of_difference. split; [done|].
    rewrite elem_of_singleton. intros ->. by apply (Hnt id).
  - unfold run_frame. destruct (frame_requests w !! id) as [[task'|]|] eqn:Hid; [| |done].
    + leak_auto. apply elem_of_difference. split; [done|].
      rewrite elem_of_singleton. intros ->. by apply (Hnf id).
    + destruct elapsed; leak_auto.
Qed.

Lemma leaked_run cs w task :
  window_inv w → leaked task w → leaked task (shim_run cs w).
Proof.
  revert w. induction cs as [|c cs IH]; intros w Hw Hl; [done|].
  rewrite shim_run_cons. apply IH; [by apply window_inv_step|by apply leaked_step].
Qed.

Lemma cancelled_by_cases c w task :
  task ∈ cancelled_by c w →
  (∃ id, (c = clearTimeout id ∨ c = clearInterval id)
         ∧ timers w !! id = Some (Timeout, task))
  ∨ (∃ id, c = cancelAnimationFrame id
           ∧ frame_requests w !! id = Some (wrapped_frame task)).
Proof.
  destruct c; cbn [cancelled_by]; try by intros ?%elem_of_nil.
  - destruct (timers w !! id) as [[[] t]|] eqn:Hid; try by intros ?%elem_of_nil.
    intros ->%list_elem_of_singleton. left. eauto.
  - destruct (timers w !! id) as [[[] t]|] eqn:Hid; try by intros ?%elem_of_nil.
    intros ->%list_elem_of_singleton. left. eauto.
  - destruct (frame_requests w !! id) as [[t|]|] eqn:Hid; try by intros ?%elem_of_nil.
    intros ->%list_elem_of_singleton. right. eauto.
Qed.

Lemma cancelled_by_NoDup c w : NoDup (cancelled_by c w).
Proof.
  destruct c; cbn [cancelled_by]; try apply NoDup_nil_2.
  - destruct (timers w !! id) as [[[] t]|]; try apply NoDup_nil_2. apply NoDup_singleton.
  - destruct (timers w !! id) as [[[] t]|]; try apply NoDup_nil_2. apply NoDup_singleton.
  - destruct (frame_requests w !! id) as [[t|]|]; try apply NoDup_nil_2.
    apply NoDup_singleton.
Qed.

Lemma clear_timer_leaks id task w :
  window_inv w → timers w !! id = Some (Timeout, task) →
  leaked task (native_clear_timer id w).
Proof.
  inv_intro. intros Hid. split; [by apply (Htim id Timeout)|].
  intros [[id' H]|[id' H]]; simpl in H.
  - apply lookup_delete_Some in H as [Hne H]. apply Hne. by eapply Htt.
  - by eapply Htf.
Qed.

Lemma cancel_frame_leaks id task w :
  window_inv w → frame_requests w !! id = Some (wrapped_frame task) →
  leaked task (native_cancel_frame id w).
Proof.
  inv_intro. intros Hid. split; [by apply (Hfr id)|].
  intros [[id' H]|[id' H]]; simpl in H.
  - by eapply Htf.
  - apply lookup_delete_Some in H as [Hne H]. apply Hne. by eapply Hff.
Qed.

Lemma cancelled_by_leaked c w task :
  window_inv w → task ∈ cancelled_by c w → leaked task (shim_step c w).2.
Proof.
  intros Hw [(id & [->| ->] & Hid)|(id & -> & Hid)]%cancelled_by_cases; cbn [shim_step snd].
  - by apply clear_timer_leaks.
  - by apply clear_timer_leaks.
  - by apply cancel_frame_leaks.
Qed.

Lemma leaked_not_cancelled cs : ∀ w task,
  window_inv w → leaked task w → task ∉ cancellations cs w.
Proof.
  induction cs as [|c cs IH]; intros w task Hw Hl; [apply not_elem_of_nil|].
  cbn [cancellations]. rewrite elem_of_app. intros [Hc|Hcs].
  - destruct Hl as [_ Hna]. apply Hna.
    apply cancelled_by_cases in Hc as [(id & _ & Hid)|(id & _ & Hid)];
      [left|right]; eauto.
  - revert Hcs. apply IH; [by apply window_inv_step|by apply leaked_step].
Qed.

Lemma cancellations_leaked cs : ∀ w,
  window_inv w →
  NoDup (cancellations cs w)
  ∧ ∀ task, task ∈ cancellations cs w → leaked task (shim_run cs w).
Proof.
  induction cs as [|c cs IH]; intros w Hw.
  - split; [apply NoDup_nil_2|]. by intros ? ?%elem_of_nil.
  - cbn [cancellations]. rewrite shim_run_cons.
    destruct (IH (shim_step c w).2 (window_inv_step c w Hw)) as [Hnd Hall]. split.
    + apply NoDup_app. split_and!; [apply cancelled_by_NoDup| |done].
      intros task Hc. apply leaked_not_cancelled; [by apply window_inv_step|].
      by apply cancelled_by_leaked.
    + intros task [Hc|Hcs]%elem_of_app; [|by apply Hall].
      apply leaked_run; [by apply window_inv_step|by apply cancelled_by_leaked].
Qed.

Lemma size_with_subset (X L : gset nat) : L ⊆ X → size X = size (X ∖ L) + size L.
Proof.
  intros HL. rewrite (union_difference_L L X HL) at 1.
  rewrite size_union by (by apply disjoint_difference_r1). lia.
Qed.
End shim_facts.

Lemma size_add_fresh (task : nat) (X : gset nat) :
  task ∉ X → size ({[task]} ∪ X) = S (size X).
Proof.
  intros Hfresh. rewrite size_union by (by apply disjoint_singleton_l).
  by rewrite size_singleton.
Qed.

Lemma size_remove_member (task : nat) (X : gset nat) :
  task ∈ X → S (size (X ∖ {[task]})) = size X.
Proof.
  intros Hin. rewrite (size_with_subset X {[task]}) by (by apply singleton_subseteq_l).
  rewrite size_singleton. lia.
Qed.

Lemma add_then_remove (task : nat) (X : gset nat) :
  task ∉ X → ({[task]} ∪ X) ∖ {[task]} = X.
Proof.
  intros Hfresh. apply set_eq. intros x.
  rewrite elem_of_difference, elem_of_union, elem_of_singleton. split.
  - by intros [[->|Hx] Hne].
  - intros Hx. split; [by right|]. by intros ->.
Qed.

Lemma fresh_task_not_pending (w : Window) : window_inv w → next_task w ∉ pending w.
Proof. intros Hw Hin. apply Hw in Hin. lia. Qed.

(** C9. In every window the page can be in: a call of the wrapped
    [setTimeout] or [requestAnimationFrame] adds exactly one new entry to
    the pending set, the task its closure captured, and when that closure
    runs it removes exactly that entry; a call of the wrapped [setInterval]
    adds one new entry too, but running the interval's closure changes
    nothing and the entry stays pending whatever happens later; and
    [__drainVirtualTimePending()] returns the size of the pending set. *)
Theorem pending_set_accounting (w : Window) :
  reachable_window w →
  (∃ task, (task ∉ pending w)
     ∧ pending (shim_setTimeout w).2 = {[task]} ∪ pending w
     ∧ size (pending (shim_setTimeout w).2) = S (size (pending w))
     ∧ timers (snd (shim_setTimeout w)) !! fst (shim_setTimeout w) = Some (Timeout, task)
     ∧ pending (run_timer (shim_setTimeout w).1 (shim_setTimeout w).2) = pending w)
  ∧ (∃ task, (task ∉ pending w)
     ∧ pending (shim_requestAnimationFrame w).2 = {[task]} ∪ pending w
     ∧ size (pending (shim_requestAnimationFrame w).2) = S (size (pending w))
     ∧ frame_requests (snd (shim_requestAnimationFrame w)) !! fst (shim_requestAnimationFrame w)
       = Some (wrapped_frame task)
     ∧ ∀ elapsed,
         pending (run_frame (shim_requestAnimationFrame w).1 elapsed
                    (shim_requestAnimationFrame w).2) = pending w)
  ∧ (∃ task, (task ∉ pending w)
     ∧ pending (shim_setInterval w).2 = {[task]} ∪ pending w
     ∧ size (pending (shim_setInterval w).2) = S (size (pending w))
     ∧ timers (snd (shim_setInterval w)) !! fst (shim_setInterval w) = Some (Interval, task))
  ∧ (∀ id task, timers w !! id = Some (Timeout, task) →
       task ∈ pending w
       ∧ pending (run_timer id w) = pending w ∖ {[task]}
       ∧ S (size (pending (run_timer id w))) = size (pending w))
  ∧ (∀ id task elapsed, frame_requests w !! id = Some (wrapped_frame task) →
       task ∈ pending w
       ∧ pending (run_frame id elapsed w) = pending w ∖ {[task]}
       ∧ S (size (pending (run_frame id elapsed w))) = size (pending w))
  ∧ (∀ id task, timers w !! id = Some (Interval, task) →
       run_timer id w = w
       ∧ ∀ cs, task ∈ pending (shim_run cs w))
  ∧ shim_step drainVirtualTimePending w = (Some (size (pending w)), w).
Proof.
  intros Hw%reachable_window_inv.
  pose proof (fresh_task_not_pending w Hw) as Hfresh.
  split_and!.
  - exists (next_task w). split_and!; [done|done|by apply size_add_fresh| |].
    + simpl. apply lookup_insert_eq.
    + unfold run_timer. simpl. rewrite lookup_insert_eq. simpl. by apply add_then_remove.
  - exists (next_task w). split_and!; [done|done|by apply size_add_fresh| |].
    + simpl. apply lookup_insert_eq.
    + intros elapsed. unfold run_frame. simpl. rewrite lookup_insert_eq. simpl.
      by apply add_then_remove.
  - exists (next_task w). split_and!; [done|done|by apply size_add_fresh|].
    simpl. apply lookup_insert_eq.
  - intros id task Hid.
    assert (task ∈ pending w) as Hin by by apply Hw in Hid as [? _].
    unfold run_timer. rewrite Hid. simpl. split_and!; [done|done|by apply size_remove_member].
  - intros id task elapsed Hid.
    assert (task ∈ pending w) as Hin by (destruct Hw as (_ & _ & _ & Hfr & _); by eapply Hfr).
    unfold run_frame. rewrite Hid. simpl. split_and!; [done|done|by apply size_remove_member].
  - intros id task Hid. split; [unfold run_timer; by rewrite Hid|].
    intros cs. apply leaked_run; [done|].
    destruct Hw as (_ & Htim & _ & _ & Htt & _ & Htf). split; [by apply (Htim id Interval)|].
    intros [[id' H]|[id' H]].
    + pose proof (Htt _ _ _ _ _ Hid H) as ->. congruence.
    + by eapply Htf.
  - done.
Qed.

Lemma pending_set_accounting_witness :
  shim_step drainVirtualTimePending
    (shim_run [setTimeout; setInterval; requestAnimationFrame; fire_timer 1] install_shim)
  = (Some 2,
     shim_run [setTimeout; setInterval; requestAnimationFrame; fire_timer 1] install_shim).
Proof.
  refine (eq_trans (proj2 (proj2 (proj2 (proj2 (proj2 (proj2
    (pending_set_accounting
       (shim_run [setTimeout; setInterval; requestAnimationFrame; fire_timer 1] install_shim)
       _))))))) _).
  - eexists. reflexivity.
  - vm_compute. reflexivity.
Defined.

(** C10. The shim leaves [clearTimeout], [clearInterval] and
    [cancelAnimationFrame] to the browser. Cancelling a timer scheduled
    through the wrapped [setTimeout], or a frame request made through the
    wrapped [requestAnimationFrame], leaves the pending set as it is; from
    then on no closure that captured its task is ever to run, and the task
    stays in the pending set whatever happens later. The count returned by
    [__drainVirtualTimePending()] therefore carries one entry for each
    callback cancelled so far. *)
Theorem cancelled_callbacks_leak (w : Window) :
  reachable_window w →
  (∀ id task c,
     c = clearTimeout id ∨ c = clearInterval id →
     timers w !! id = Some (Timeout, task) →
     pending (shim_step c w).2 = pending w
     ∧ timers (shim_step c w).2 !! id = None
     ∧ ∀ cs, leaked task (shim_run cs (shim_step c w).2))
  ∧ (∀ id task,
       frame_requests w !! id = Some (wrapped_frame task) →
       pending (shim_step (cancelAnimationFrame id) w).2 = pending w
       ∧ frame_requests (shim_step (cancelAnimationFrame id) w).2 !! id = None
       ∧ ∀ cs, leaked task (shim_run cs (shim_step (cancelAnimationFrame id) w).2))
  ∧ (∀ cs,
       NoDup (cancellations cs w)
       ∧ (∀ task, task ∈ cancellations cs w → leaked task (shim_run cs w))
       ∧ shim_drainVirtualTimePending (shim_run cs w)
         = size (pending (shim_run cs w) ∖ list_to_set (cancellations cs w))
           + length (cancellations cs w)).
Proof.
  intros Hw%reachable_window_inv. split_and!.
  - intros id task c Hc Hid.
    assert ((shim_step c w).2 = native_clear_timer id w) as -> by by destruct Hc as [-> | ->].
    split_and!; [done|apply lookup_delete_eq|].
    intros cs. apply leaked_run; [by apply window_inv_clear_timer|by apply clear_timer_leaks].
  - intros id task Hid. cbn [shim_step snd].
    split_and!; [done|apply lookup_delete_eq|].
    intros cs. apply leaked_run; [by apply window_inv_cancel_frame|by apply cancel_frame_leaks].
  - intros cs. destruct (cancellations_leaked cs w Hw) as [Hnd Hall].
    split_and!; [done|done|].
    unfold shim_drainVirtualTimePending.
    rewrite <- (size_list_to_set (C:=gset nat) (cancellations cs w)) by done.
    apply size_with_subset. intros task Hin%elem_of_list_to_set. by apply Hall.
Qed.

Lemma cancelled_callbacks_leak_witness :
  leaked 0 (shim_run [fire_timer 1; setTimeout; fire_timer 2]
              (shim_step (clearTimeout 1) (shim_run [setTimeout] install_shim)).2).
Proof.
  apply (proj1 (cancelled_callbacks_leak (shim_run [setTimeout] install_shim)
                  (ex_intro _ [setTimeout] eq_refl))
           1 0 (clearTimeout 1) (or_introl eq_refl) eq_refl).
Defined.

(** ** The tracker seen from its client *)

Lemma tracker_run_first_occurrences (ops : list TrackerOp) : ∀ t done,
  (∀ e, JSON_stringify e ∈ _seen t ↔ e ∈ done ++ _errors t) →
  done ++ concat (tracker_run ops t).1 ++ _errors (tracker_run ops t).2
  = fold_left (λ acc e, if decide (e ∈ acc) then acc else acc ++ [e])
      (ingested ops) (done ++ _errors t).
Proof.
  induction ops as [|[e|] ops IH]; intros t done Hseen.
  - done.
  - rewrite tracker_run_cons. cbn [tracker_step fst snd].
    change (ingested (OpIngest e :: ops)) with (e :: ingested ops). cbn [fold_left].
    destruct (decide (JSON_stringify e ∈ _seen t)) as [Hk|Hk].
    + rewrite ingest_seen by done. rewrite decide_True by by apply Hseen.
      by apply IH.
    + rewrite decide_False by (intros ?; by apply Hk, Hseen).
      rewrite ingest_fresh by done. rewrite <- (app_assoc done).
      set (t' := {| _seen := {[JSON_stringify e]} ∪ _seen t; _errors := _errors t ++ [e] |}).
      change (_errors t ++ [e]) with (_errors t').
      apply IH. subst t'. cbn [_seen _errors]. intros e'.
      rewrite elem_of_union, elem_of_singleton, Hseen, (app_assoc done), (elem_of_app _ [e]).
      rewrite list_elem_of_singleton. split.
      * intros [->%JSON_stringify_inj|?]; [by right|by left].
      * intros [?| ->]; [by right|by left].
  - rewrite tracker_run_cons. cbn [tracker_step drain fst snd concat].
    change (ingested (OpDrain :: ops)) with (ingested ops).
    specialize (IH {| _seen := _seen t; _errors := [] |} (done ++ _errors t)).
    cbn [_seen _errors] in IH. rewrite app_nil_r in IH. rewrite <- IH.
    + by rewrite <- !app_assoc.
    + intros e. by rewrite Hseen.
Qed.

(** X6. Whatever the order of [ingest] and [drain] calls made on a fresh
    tracker, the batches returned so far followed by the batch still held
    are the records ingested, each at its first occurrence and in the order
    of ingestion: draining decides how the reports are cut into batches,
    never what is reported. Hence every ingested record is in a returned
    batch or still held. *)
Theorem reports_first_occurrences_in_order (ops : list TrackerOp) :
  let res := tracker_run ops new_tracker in
  concat res.1 ++ _errors res.2 = first_occurrences (ingested ops)
  ∧ (∀ e, OpIngest e ∈ ops → e ∈ concat res.1 ∨ e ∈ _errors res.2)
  ∧ (∀ e, e ∈ concat res.1 ∨ e ∈ _errors res.2 → OpIngest e ∈ ops).
Proof.
  intros res.
  assert (concat res.1 ++ _errors res.2 = first_occurrences (ingested ops)) as Heq.
  { apply (tracker_run_first_occurrences ops new_tracker []). intros e. cbn. set_solver. }
  assert (∀ l e, e ∈ first_occurrences l ↔ e ∈ l) as Hmem.
  { clear. intros l e. unfold first_occurrences.
    induction l as [|x l IH] using rev_ind; [done|].
    rewrite fold_left_app. cbn [fold_left].
    destruct (decide (x ∈ _)) as [Hx|Hx].
    - rewrite IH, elem_of_app, list_elem_of_singleton. split; [by left|].
      intros [?| ->]; [done|]. by apply IH.
    - by rewrite !elem_of_app, IH. }
  assert (∀ e, e ∈ ingested ops ↔ OpIngest e ∈ ops) as Hops.
  { intros e. unfold ingested. rewrite list_elem_of_omap. split.
    - by intros ([e'|] & Hin & [= ->]).
    - intros Hin. by exists (OpIngest e). }
  split; [done|]. split; intros e He.
  - apply elem_of_app. rewrite Heq. by apply Hmem, Hops.
  - apply Hops, Hmem. rewrite <- Heq. by apply elem_of_app.
Qed.

(** ** The requests of a list of steps *)

Lemma run_step_appends (page : Page) (canvas : option CanvasHandle) (step : Step) :
  appends (run_step page canvas step) (step_events page canvas step).
Proof.
  assert (∃ evs, appends (run_step page canvas step) evs) as [evs Hevs].
  { destruct (for_of_appends (λ _ _, True) (press canvas step)
                (new_Set (default [] (buttons step)))) as (ps & Hps & _).
    { intros b. destruct (press_appends canvas step b) as (evs & Hb & _). by exists evs. }
    destruct (for_of_appends (λ _ _, True) release
                (new_Set (default [] (buttons step)))) as (rs & Hrs & _).
    { intros b. destruct (release_appends b) as (evs & Hb & _). by exists evs. }
    pose proof (for_frames_appends (advance_frame page) [frame_request page]
                  (Z.to_nat (frames_or_1 step)) (appends_emit _)) as Hfs.
    assert (∃ waits, appends (match wait_ms step with
                              | Some ms => if (ms =? 0)%Z then mret tt else emit (sleep ms)
                              | None => mret tt
                              end) waits) as (ws & Hws).
    { destruct (wait_ms step) as [ms|]; [destruct (ms =? 0)%Z|].
      - exists []. apply appends_ret.
      - eexists. apply appends_emit.
      - exists []. apply appends_ret. }
    eexists. unfold run_step.
    exact (appends_seq _ _ _ _ Hps (appends_seq _ _ _ _ Hfs (appends_seq _ _ _ _ Hrs Hws))). }
  intros log. unfold step_events. by rewrite !Hevs.
Qed.

Lemma runActions_steps (page : Page) (canvas : option CanvasHandle) (steps : list Step) :
  appends (runActions page canvas steps) (steps ≫= step_events page canvas).
Proof.
  unfold runActions. apply for_of_exact. intros step. eexists. apply run_step_appends.
Qed.

(** ** The iteration controller *)

Lemma captureScreenshot_writes (page : Page) (c : option CanvasHandle) :
  ∃ b, captureScreenshot page c = Written b.
Proof.
  destruct c as [c|]; [|by eexists]. unfold captureScreenshot.
  destruct (strategy1 (Some c)) as [b|]; [by exists b|].
  cbn [strategy2]. destruct (element_screenshot c) as [b|]; [by exists b|].
  cbn [strategy3]. destruct (boundingBox c); by eexists.
Qed.

Lemma runActions_requests (page : Page) (canvas : option CanvasHandle) (steps : list Step) :
  (runActions page canvas steps []).2 = steps ≫= step_events page canvas.
Proof. by rewrite runActions_steps. Qed.

Section controller_facts.
Context (args : Args) (steps : list Step) (w : World).

Lemma iteration_body_spec (m : Moment) (i : nat) (r : Run) :
  let batch := (drain (deliver (events m) (errors r))).1 in
  let res := iteration_body None args steps m i r in
  res.1 = match batch with [] => loop_done | _ :: _ => loop_break end
  ∧ errors res.2 = (drain (deliver (events m) (errors r))).2
  ∧ hadErrors res.2 = match batch with [] => hadErrors r | _ :: _ => true end
  ∧ (written res.2).*1 = (written r).*1 ++ iteration_artifacts m i batch
  ∧ (match batch with
     | [] => True
     | _ :: _ => (errors_json i, error_list batch) ∈ written res.2
     end).
Proof.
  cbn zeta. unfold iteration_body, iteration_artifacts.
  cbn [is_locating is_capturing is_text_state is_writing_errors acting_cut andb].
  destruct (captureScreenshot_writes (page m) (element_handle m <$> locate m (canvas r)))
    as [png ->].
  cbn [drain fst snd].
  destruct (_errors (deliver (events m) (errors r))) as [|e batch] eqn:Hb;
    destruct (truthy_text (capture_text_state m)); cbn [fst snd errors hadErrors written];
    rewrite ?fmap_app; cbn [fmap list_fmap fst]; rewrite <- ?app_assoc;
    split_and!; try done; set_solver.
Qed.

Lemma iteration_loop_spec (n : nat) : ∀ (i : nat) (r : Run),
  errors r = tracker_before w i →
  let res := iteration_loop all_resolve args steps w n i r in
  res.1 ≠ loop_rejected
  ∧ hadErrors res.2 = hadErrors r || loop_failed w n i
  ∧ (written res.2).*1 = (written r).*1 ++ loop_artifacts w n i
  ∧ (∀ f, f ∈ written r → f ∈ written res.2).
Proof.
  induction n as [|n IH]; intros i r Hr; cbn zeta.
  - cbn [iteration_loop loop_failed loop_artifacts fst snd].
    by rewrite orb_false_r, app_nil_r.
  - cbn [iteration_loop loop_failed loop_artifacts].
    change (at_iteration all_resolve i) with (@None IterationRejection).
    destruct (iteration_body_spec (iteration w i) i r) as (Hend & Herr & Hhad & Hwr & _).
    rewrite Hr in Hend, Herr, Hhad, Hwr. fold (iteration_batch w i) in Hend, Hhad, Hwr.
    assert (∀ f, f ∈ written r →
                 f ∈ written (iteration_body None args steps (iteration w i) i r).2)
      as Hkeep.
    { intros f Hf. unfold iteration_body.
      cbn [is_locating is_capturing is_text_state is_writing_errors acting_cut andb].
      destruct (captureScreenshot _ _); [|done].
      cbn [drain]. destruct (_errors _); destruct (truthy_text _);
        cbn [snd written]; repeat first [done | apply elem_of_app; left]. }
    destruct (iteration_body None args steps (iteration w i) i r) as [e r'].
    cbn [fst snd] in *. subst e.
    destruct (iteration_batch w i) as [|e batch].
    + destruct (IH (S i) r' Herr) as (Hne & Hhad' & Hwr' & Hkeep').
      split_and!; [done| | |by auto].
      * by rewrite Hhad', Hhad.
      * by rewrite Hwr', Hwr, <- app_assoc.
    + cbn [fst snd]. split_and!; [done| | |done].
      * by rewrite Hhad, orb_true_r.
      * by rewrite Hwr, app_nil_r.
Qed.

Lemma loop_failed_first (n : nat) : ∀ i,
  loop_failed w n i = true ↔
  ∃ k, i ≤ k < i + n
       ∧ (∀ j, i ≤ j < k → iteration_batch w j = [])
       ∧ iteration_batch w k ≠ [].
Proof.
  induction n as [|n IH]; intros i; cbn [loop_failed].
  - split; [done|]. intros (k & Hk & _). lia.
  - destruct (iteration_batch w i) as [|e batch] eqn:Hi.
    + rewrite IH. split.
      * intros (k & Hk & Hbefore & Hat). exists k. split; [lia|]. split; [|done].
        intros j Hj. destruct (decide (j = i)) as [->|]; [done|]. apply Hbefore. lia.
      * intros (k & Hk & Hbefore & Hat). exists k.
        assert (k ≠ i) by (intros ->; by rewrite Hi in Hat).
        split; [lia|]. split; [|done]. intros j Hj. apply Hbefore. lia.
    + split; [intros _|done]. exists i. split; [lia|]. split; [|by rewrite Hi].
      intros j Hj. lia.
Qed.

(** What the loop leaves on disk when iteration [k] is the first to
    drain a batch that is not empty. *)
Lemma loop_artifacts_first (n : nat) : ∀ i k,
  i ≤ k < i + n →
  (∀ j, i ≤ j < k → iteration_batch w j = []) →
  iteration_batch w k ≠ [] →
  ∀ a, a ∈ loop_artifacts w n i →
       (a = errors_json k)
       ∨ (∃ j, i ≤ j ≤ k ∧ (a = shot j ∨ a = state j)).
Proof.
  induction n as [|n IH]; intros i k Hk Hbefore Hat a; cbn [loop_artifacts].
  - by intros ?%elem_of_nil.
  - destruct (decide (k = i)) as [->|Hne].
    + destruct (iteration_batch w i) as [|e batch]; [done|].
      rewrite app_nil_r. unfold iteration_artifacts.
      destruct (truthy_text _); cbn; rewrite ?elem_of_cons, ?elem_of_nil;
        intros Ha; destruct_or?; try done; subst;
        first [by left | right; exists i; split; [lia|]; by eauto].
    + rewrite (Hbefore i) by lia. rewrite elem_of_app. intros [Ha|Ha].
      * right. exists i. split; [lia|]. revert Ha. unfold iteration_artifacts.
        destruct (truthy_text _); cbn; rewrite ?elem_of_cons, ?elem_of_nil;
          intros Ha; destruct_or?; try done; subst; by eauto.
      * destruct (IH (S i) k) with (a := a) as [->|(j & Hj & Hj')]; try done.
        -- lia.
        -- intros j Hj. apply Hbefore. lia.
        -- by left.
        -- right. exists j. split; [lia|done].
Qed.

Lemma loop_artifacts_shots (n : nat) : ∀ i k,
  i ≤ k < i + n →
  (∀ j, i ≤ j < k → iteration_batch w j = []) →
  ∀ j, i ≤ j ≤ k → shot j ∈ loop_artifacts w n i.
Proof.
  induction n as [|n IH]; intros i k Hk Hbefore j Hj; [lia|].
  cbn [loop_artifacts]. destruct (decide (j = i)) as [->|Hne].
  - apply elem_of_app. left. unfold iteration_artifacts. left.
  - rewrite (Hbefore i) by lia. apply elem_of_app. right.
    apply (IH (S i) k); [lia| |lia]. intros j' Hj'. apply Hbefore. lia.
Qed.

Lemma loop_artifacts_errors (n : nat) : ∀ i k,
  i ≤ k < i + n →
  (∀ j, i ≤ j < k → iteration_batch w j = []) →
  iteration_batch w k ≠ [] →
  errors_json k ∈ loop_artifacts w n i.
Proof.
  induction n as [|n IH]; intros i k Hk Hbefore Hat; [lia|].
  cbn [loop_artifacts]. destruct (decide (k = i)) as [->|Hne].
  - apply elem_of_app. left. unfold iteration_artifacts.
    destruct (iteration_batch w i); [done|]. right. apply elem_of_app. right. left.
  - rewrite (Hbefore i) by lia. apply elem_of_app. right.
    apply (IH (S i) k); [lia| |done]. intros j' Hj'. apply Hbefore. lia.
Qed.

Lemma iteration_loop_error_file (n : nat) : ∀ i k r,
  errors r = tracker_before w i →
  i ≤ k < i + n →
  (∀ j, i ≤ j < k → iteration_batch w j = []) →
  iteration_batch w k ≠ [] →
  (errors_json k, error_list (iteration_batch w k))
  ∈ written (iteration_loop all_resolve args steps w n i r).2.
Proof.
  induction n as [|n IH]; intros i k r Hr Hk Hbefore Hat; [lia|].
  cbn [iteration_loop]. change (at_iteration all_resolve i) with (@None IterationRejection).
  destruct (iteration_body_spec (iteration w i) i r) as (Hend & Herr & _ & _ & Hfile).
  rewrite Hr in Hend, Herr, Hfile. fold (iteration_batch w i) in Hend, Hfile.
  destruct (iteration_body None args steps (iteration w i) i r) as [e r'].
  cbn [fst snd] in *. subst e.
  destruct (decide (k = i)) as [->|Hne].
  - by destruct (iteration_batch w i).
  - rewrite (Hbefore i) by lia. apply IH; [done|lia| |done].
    intros j Hj. apply Hbefore. lia.
Qed.

(** [main] from the entry of the loop on. *)
Lemma main_run_loop (rejections : Rejections) :
  boot_abandoned rejections w = false →
  main_run rejections args steps w
  = match iteration_loop rejections args steps w (Z.to_nat (iterations args)) 0
            (boot_run args w) with
    | (loop_rejected, r') => mkOutcome (written r') (requests r') false 1
    | (_, r') =>
        mkOutcome (written r') (requests r') (negb (at_close rejections))
          (if at_close rejections then 1 else if hadErrors r' then 1 else 0)%Z
    end.
Proof.
  unfold boot_abandoned, main_run, boot_run, boot_batch.
  cbn [drain fst snd tracker_before canvas_before].
  destruct (at_boot rejections) as [[]|]; [done| |];
    destruct (_errors (deliver (events (boot w)) new_tracker)); try done.
Qed.

Lemma main_run_boot_abandoned (rejections : Rejections) :
  boot_abandoned rejections w = true →
  main_run rejections args steps w
  = mkOutcome []
      match at_boot rejections with
      | Some rejected_before_click => []
      | _ => click_request args
      end false 1.
Proof.
  unfold boot_abandoned, main_run, boot_batch. cbn [drain fst snd].
  destruct (at_boot rejections) as [[]|]; [done| |done].
  by destruct (_errors (deliver (events (boot w)) new_tracker)).
Qed.

Lemma main_loop :
  main args steps w
  = match iteration_loop all_resolve args steps w (Z.to_nat (iterations args)) 0
            (boot_run args w) with
    | (loop_rejected, r') => mkOutcome (written r') (requests r') false 1
    | (_, r') => mkOutcome (written r') (requests r') true (if hadErrors r' then 1 else 0)%Z
    end.
Proof. unfold main. by rewrite main_run_loop. Qed.

(** [main] in terms of the loop's summary. *)
Lemma main_spec :
  let o := main args steps w in
  let n := Z.to_nat (iterations args) in
  exit_code o = (if loop_failed w n 0 then 1 else 0)%Z
  ∧ browser_closed o = true
  ∧ artifacts o
    = match boot_batch w with [] => [] | _ :: _ => [errors_boot] end
      ++ loop_artifacts w n 0.
Proof.
  cbn zeta. rewrite main_loop. unfold artifacts.
  destruct (iteration_loop_spec (Z.to_nat (iterations args)) 0 (boot_run args w))
    as (Hne & Hhad & Hwr & _); [done|].
  destruct (iteration_loop all_resolve args steps w (Z.to_nat (iterations args)) 0
              (boot_run args w)) as [e r'].
  cbn [fst snd] in *.
  assert ((written (boot_run args w)).*1
          = match boot_batch w with [] => [] | _ :: _ => [errors_boot] end) as Hboot.
  { cbn [boot_run written]. by destruct (boot_batch w). }
  destruct e; [| |done]; cbn [exit_code browser_closed files];
    rewrite Hhad, Hwr, Hboot; by destruct (loop_failed _ _ _).
Qed.

Lemma main_error_file (k : nat) :
  k < Z.to_nat (iterations args) →
  (∀ j, j < k → iteration_batch w j = []) →
  iteration_batch w k ≠ [] →
  (errors_json k, error_list (iteration_batch w k)) ∈ files (main args steps w).
Proof.
  intros Hk Hbefore Hat. rewrite main_loop.
  pose proof (iteration_loop_error_file (Z.to_nat (iterations args)) 0 k (boot_run args w)
                eq_refl) as Hfile.
  destruct (iteration_loop all_resolve args steps w (Z.to_nat (iterations args)) 0
              (boot_run args w)) as [e r'].
  cbn [snd] in Hfile.
  assert ((errors_json k, error_list (iteration_batch w k)) ∈ written r') as Hin.
  { apply Hfile; [lia| |done]. intros j Hj. apply Hbefore. lia. }
  by destruct e.
Qed.

End controller_facts.

(** C2. When iteration [i], below the configured count, is the first one
    whose drain after the capture is not empty: [errors-<i>.json] is
    written with that batch and is the only iteration error file; the run
    is marked failed and exits with status 1; every iteration up to [i] ran
    and wrote its screenshot; no iteration after [i] runs, so no
    [shot-<j>.png], [state-<j>.json] or [errors-<j>.json] exists for
    [j > i]. *)
Theorem fail_fast_halt (args : Args) (steps : list Step) (w : World) (i : nat) :
  (Z.of_nat i < iterations args)%Z →
  (∀ j, j < i → iteration_batch w j = []) →
  iteration_batch w i ≠ [] →
  let o := main args steps w in
  (errors_json i, error_list (iteration_batch w i)) ∈ files o
  ∧ (∀ j, errors_json j ∈ artifacts o → j = i)
  ∧ (∀ j, j ≤ i → shot j ∈ artifacts o)
  ∧ (∀ j, i < j →
       (shot j ∉ artifacts o) ∧ (state j ∉ artifacts o) ∧ (errors_json j ∉ artifacts o))
  ∧ exit_code o = 1%Z
  ∧ browser_closed o = true.
Proof.
  intros Hi Hbefore Hat. cbn zeta.
  destruct (main_spec args steps w) as (Hexit & Hclosed & Hfiles). cbn zeta in *.
  assert (0 ≤ i < 0 + Z.to_nat (iterations args)) as Hrange by lia.
  assert (∀ j, 0 ≤ j < i → iteration_batch w j = []) as Hbefore'
    by (intros j Hj; apply Hbefore; lia).
  pose proof (loop_artifacts_first w _ 0 i Hrange Hbefore' Hat) as Hshape.
  assert (∀ a, a ∈ artifacts (main args steps w) →
               a = errors_boot ∨ a ∈ loop_artifacts w (Z.to_nat (iterations args)) 0) as Hsplit.
  { intros a. rewrite Hfiles, elem_of_app. intros [Ha|Ha]; [left|by right].
    destruct (boot_batch w); [by apply elem_of_nil in Ha|].
    by apply list_elem_of_singleton in Ha. }
  split_and!.
  - apply main_error_file; [lia|done|done].
  - intros j [Hj|Hj]%Hsplit; [done|].
    apply Hshape in Hj as [Hj|(j' & _ & [Hj|Hj])]; congruence.
  - intros j Hj. rewrite Hfiles. apply elem_of_app. right.
    apply (loop_artifacts_shots w _ 0 i Hrange Hbefore'). lia.
  - intros j Hj. split_and!; intros [Ha|Ha]%Hsplit; try done;
      apply Hshape in Ha as [Ha|(j' & Hj' & [Ha|Ha])]; simplify_eq; lia.
  - rewrite Hexit.
    assert (loop_failed w (Z.to_nat (iterations args)) 0 = true) as ->; [|done].
    apply loop_failed_first. by exists i.
  - done.
Qed.

Lemma fail_fast_halt_witness :
  let o := main (mkArgs 5 250 None) [mkStep (Some ["space"]) (Some 4%Z) None None None]
             late_error_world in
  (errors_json 2, error_list [mkError "console.error" "new failure"]) ∈ files o
  ∧ (∀ j, 2 < j →
       (shot j ∉ artifacts o) ∧ (state j ∉ artifacts o) ∧ (errors_json j ∉ artifacts o))
  ∧ exit_code o = 1%Z.
Proof.
  destruct (fail_fast_halt (mkArgs 5 250 None) [mkStep (Some ["space"]) (Some 4%Z) None None None]
              late_error_world 2) as (Hfile & _ & _ & Hafter & Hexit & _).
  - reflexivity.
  - intros [|[|j]] Hj; [reflexivity|reflexivity|lia].
  - discriminate.
  - split; [exact Hfile|]. split; [exact Hafter|exact Hexit].
Defined.

(** ** The listeners and the run *)

Lemma on_event_record (ev : PageEvent) (t : ConsoleErrorTracker) :
  on_event ev t = match record_of ev with Some r => ingest r t | None => t end.
Proof. destruct ev as [ty tx|e]; cbn; [by destruct (decide (ty = "error"))|done]. Qed.

Lemma deliver_snoc (evs : list PageEvent) (ev : PageEvent) (t : ConsoleErrorTracker) :
  deliver (evs ++ [ev]) t = on_event ev (deliver evs t).
Proof. unfold deliver. by rewrite fold_left_app. Qed.

Lemma deliver_known (evs : list PageEvent) (t : ConsoleErrorTracker) :
  (∀ ev r, ev ∈ evs → record_of ev = Some r → JSON_stringify r ∈ _seen t) →
  deliver evs t = t.
Proof.
  induction evs as [|ev evs IH] using rev_ind; intros Hknown; [done|].
  rewrite deliver_snoc, IH.
  - rewrite on_event_record. destruct (record_of ev) as [r|] eqn:Hr; [|done].
    apply ingest_seen, (Hknown ev); [|done]. apply elem_of_app. right. left.
  - intros ev' r Hin. apply Hknown, elem_of_app. by left.
Qed.

Lemma deliver_seen (evs : list PageEvent) (t : ConsoleErrorTracker) (k : string) :
  k ∈ _seen (deliver evs t) ↔
  k ∈ _seen t ∨ ∃ ev r, ev ∈ evs ∧ record_of ev = Some r ∧ JSON_stringify r = k.
Proof.
  induction evs as [|ev evs IH] using rev_ind.
  - split; [by left|]. intros [?|(ev & r & Hin & _)]; [done|]. by apply elem_of_nil in Hin.
  - rewrite deliver_snoc, on_event_record.
    assert (k ∈ _seen (match record_of ev with
                       | Some r => ingest r (deliver evs t)
                       | None => deliver evs t
                       end)
            ↔ k ∈ _seen (deliver evs t) ∨ ∃ r, record_of ev = Some r ∧ JSON_stringify r = k)
      as ->.
    { destruct (record_of ev) as [r|].
      - destruct (decide (JSON_stringify r ∈ _seen (deliver evs t))) as [Hs|Hs].
        + rewrite ingest_seen by done. split; [by left|].
          intros [?|(r' & [= <-] & <-)]; done.
        + rewrite ingest_fresh by done. cbn [_seen].
          rewrite elem_of_union, elem_of_singleton. split.
          * intros [->|?]; [right; by exists r|by left].
          * intros [?|(r' & [= <-] & <-)]; [by right|by left].
      - split; [by left|]. by intros [?|(r' & ? & _)]. }
    rewrite IH. split.
    + intros [[?|(ev' & r & Hin & Hr & Hk)]|(r & Hr & Hk)].
      * by left.
      * right. exists ev', r. split_and!; [|done..]. apply elem_of_app. by left.
      * right. exists ev, r. split_and!; [|done..]. apply elem_of_app. right. left.
    + intros [?|(ev' & r & [Hin|Hin]%elem_of_app & Hr & Hk)].
      * left. by left.
      * left. right. by exists ev', r.
      * apply list_elem_of_singleton in Hin as ->. right. by exists r.
Qed.

Lemma deliver_errors_nil (evs : list PageEvent) (t : ConsoleErrorTracker) :
  _errors t = [] →
  _errors (deliver evs t) = [] →
  ∀ ev r, ev ∈ evs → record_of ev = Some r → JSON_stringify r ∈ _seen t.
Proof.
  induction evs as [|ev evs IH] using rev_ind; intros Ht Hnil ev' r Hin Hr.
  - by apply elem_of_nil in Hin.
  - rewrite deliver_snoc, on_event_record in Hnil.
    assert (_errors (deliver evs t) = []
            ∧ ∀ r, record_of ev = Some r → JSON_stringify r ∈ _seen (deliver evs t))
      as [Hprev Hlast].
    { destruct (record_of ev) as [r0|]; [|done].
      destruct (decide (JSON_stringify r0 ∈ _seen (deliver evs t))) as [Hs|Hs].
      - rewrite ingest_seen in Hnil by done. split; [done|]. by intros ? [= <-].
      - rewrite ingest_fresh in Hnil by done. cbn [_errors] in Hnil.
        by destruct (_errors (deliver evs t)). }
    assert (deliver evs t = t) as Hsame by (apply deliver_known; eauto).
    apply elem_of_app in Hin as [Hin|Hin]; [by eapply IH|].
    apply list_elem_of_singleton in Hin as ->. rewrite <- Hsame. by apply Hlast.
Qed.

Section run_facts.
Context (args : Args) (steps : list Step) (w : World).

Lemma tracker_before_drained (i : nat) : _errors (tracker_before w i) = [].
Proof. by destruct i. Qed.

Lemma tracker_before_quiet (n : nat) :
  (∀ j, j < n → iteration_batch w j = []) →
  ∀ i, i ≤ n → tracker_before w i = tracker_before w 0.
Proof.
  intros Hquiet. induction i as [|i IH]; intros Hi; [done|].
  assert (iteration_batch w i = []) as Hbatch by (apply Hquiet; lia).
  unfold iteration_batch in Hbatch. cbn [drain fst] in Hbatch.
  pose proof (deliver_errors_nil _ _ (tracker_before_drained i) Hbatch) as Hknown.
  cbn [tracker_before drain snd]. rewrite (deliver_known _ _ Hknown).
  rewrite IH by lia. reflexivity.
Qed.

Lemma quiet_iff_known (n : nat) :
  (∀ j, j < n → iteration_batch w j = []) ↔
  (∀ i ev r, i < n → ev ∈ events (iteration w i) → record_of ev = Some r →
     ∃ ev', ev' ∈ events (boot w) ∧ record_of ev' = Some r).
Proof.
  assert (∀ k, k ∈ _seen (tracker_before w 0) ↔
               ∃ ev r, ev ∈ events (boot w) ∧ record_of ev = Some r ∧ JSON_stringify r = k)
    as Hboot.
  { intros k. cbn [tracker_before drain snd _seen]. rewrite deliver_seen.
    split; [|by right]. intros [Hin|?]; [|done]. by apply elem_of_empty in Hin. }
  split.
  - intros Hquiet i ev r Hi Hin Hr.
    assert (iteration_batch w i = []) as Hbatch by by apply Hquiet.
    unfold iteration_batch in Hbatch. cbn [drain fst] in Hbatch.
    pose proof (deliver_errors_nil _ _ (tracker_before_drained i) Hbatch ev r Hin Hr) as Hk.
    rewrite (tracker_before_quiet n Hquiet i) in Hk by lia.
    apply Hboot in Hk as (ev' & r' & Hin' & Hr' & ->%JSON_stringify_inj). by exists ev'.
  - intros Hknown. induction n as [|n IH]; intros j Hj; [lia|].
    assert (∀ j, j < n → iteration_batch w j = []) as Hquiet.
    { apply IH. intros i ev r Hi. apply Hknown. lia. }
    destruct (decide (j = n)) as [->|]; [|apply Hquiet; lia].
    unfold iteration_batch. cbn [drain fst].
    rewrite deliver_known; [apply tracker_before_drained|].
    intros ev r Hin Hr. rewrite (tracker_before_quiet n Hquiet n) by lia.
    apply Hboot. destruct (Hknown n ev r) as (ev' & Hin' & Hr'); [lia|done..|].
    by exists ev', r.
Qed.

Lemma loop_failed_false (n : nat) : ∀ i,
  loop_failed w n i = false ↔ ∀ j, i ≤ j < i + n → iteration_batch w j = [].
Proof.
  induction n as [|n IH]; intros i; cbn [loop_failed].
  - split; [intros _ j ?; lia|done].
  - destruct (iteration_batch w i) eqn:Hb.
    + rewrite IH. split.
      * intros H j Hj. destruct (decide (j = i)) as [->|]; [done|]. apply H. lia.
      * intros H j Hj. apply H. lia.
    + split; [done|]. intros H. specialize (H i). rewrite Hb in H. discriminate H. lia.
Qed.

Lemma iteration_body_files (i : nat) (r : Run) :
  errors r = tracker_before w i →
  canvas r = canvas_before w i →
  let res := iteration_body None args steps (iteration w i) i r in
  res.1 = match iteration_batch w i with [] => loop_done | _ :: _ => loop_break end
  ∧ errors res.2 = tracker_before w (S i)
  ∧ canvas res.2 = canvas_before w (S i)
  ∧ written res.2 = written r ++ iteration_files w i.
Proof.
  intros Herrors Hcanvas. unfold iteration_body, iteration_files, canvas_in_use.
  cbn [is_locating is_capturing is_text_state is_writing_errors acting_cut andb].
  cbn [tracker_before canvas_before]. unfold iteration_batch.
  rewrite Herrors, Hcanvas.
  set (handle := element_handle _ <$> _).
  destruct (captureScreenshot_writes (page (iteration w i)) handle) as [png ->].
  cbn [drain fst snd].
  destruct (_errors (deliver (events (iteration w i)) (tracker_before w i))) eqn:Hbatch;
    destruct (truthy_text (capture_text_state (iteration w i)));
    cbn [fst snd errors canvas written]; rewrite ?app_nil_r, <- ?app_assoc; done.
Qed.

Lemma iteration_loop_files (n : nat) : ∀ (i : nat) (r : Run),
  errors r = tracker_before w i →
  canvas r = canvas_before w i →
  written (iteration_loop all_resolve args steps w n i r).2 = written r ++ loop_files w n i.
Proof.
  induction n as [|n IH]; intros i r Herrors Hcanvas; cbn [iteration_loop loop_files].
  - by rewrite app_nil_r.
  - change (at_iteration all_resolve i) with (@None IterationRejection).
    destruct (iteration_body_files i r Herrors Hcanvas) as (Hend & He & Hc & Hw).
    destruct (iteration_body None args steps (iteration w i) i r) as [stop r'].
    cbn [fst snd] in *. subst stop.
    destruct (iteration_batch w i); cbn [snd].
    + rewrite IH, Hw by done. by rewrite <- app_assoc.
    + by rewrite Hw, app_nil_r.
Qed.

Lemma main_files :
  files (main args steps w)
  = match boot_batch w with [] => [] | _ :: _ => [(errors_boot, error_list (boot_batch w))] end
    ++ loop_files w (Z.to_nat (iterations args)) 0.
Proof.
  rewrite main_loop.
  pose proof (iteration_loop_files (Z.to_nat (iterations args)) 0 (boot_run args w)
                eq_refl eq_refl) as Hw.
  destruct (iteration_loop_spec args steps w (Z.to_nat (iterations args)) 0 (boot_run args w)
              eq_refl) as (Hend & _).
  destruct (iteration_loop all_resolve args steps w (Z.to_nat (iterations args)) 0
              (boot_run args w)) as [[] r'];
    cbn [fst snd files] in *; try done; by rewrite Hw.
Qed.

Lemma loop_files_elem (n : nat) : ∀ i f,
  f ∈ loop_files w n i ↔
  ∃ k, i ≤ k < i + n
       ∧ (∀ j, i ≤ j < k → iteration_batch w j = [])
       ∧ f ∈ iteration_files w k.
Proof.
  induction n as [|n IH]; intros i f; cbn [loop_files].
  - split; [by intros ?%elem_of_nil|]. intros (k & ? & _). lia.
  - rewrite elem_of_app. split.
    + intros [Hf|Hf].
      * exists i. split; [lia|]. split; [intros; lia|done].
      * destruct (iteration_batch w i) eqn:Hb; [|by apply elem_of_nil in Hf].
        apply IH in Hf as (k & Hk & Hquiet & Hf). exists k. split; [lia|]. split; [|done].
        intros j Hj. destruct (decide (j = i)) as [->|]; [done|]. apply Hquiet. lia.
    + intros (k & Hk & Hquiet & Hf). destruct (decide (k = i)) as [->|]; [by left|].
      right. rewrite (Hquiet i) by lia. apply IH. exists k. split; [lia|]. split; [|done].
      intros j Hj. apply Hquiet. lia.
Qed.

Lemma iteration_files_names (i : nat) (f : Artifact * Content) :
  f ∈ iteration_files w i → f.1 = shot i ∨ f.1 = state i ∨ f.1 = errors_json i.
Proof.
  unfold iteration_files. rewrite !elem_of_app. intros [Hf|[Hf|Hf]].
  - destruct (captureScreenshot _ _); [|by apply elem_of_nil in Hf].
    apply list_elem_of_singleton in Hf as ->. by left.
  - destruct (truthy_text _); [|by apply elem_of_nil in Hf].
    apply list_elem_of_singleton in Hf as ->. right. by left.
  - destruct (iteration_batch w i); [by apply elem_of_nil in Hf|].
    apply list_elem_of_singleton in Hf as ->. right. by right.
Qed.

Lemma main_files_elem (f : Artifact * Content) :
  f ∈ files (main args steps w) ↔
  (boot_batch w ≠ [] ∧ f = (errors_boot, error_list (boot_batch w)))
  ∨ ∃ k, k < Z.to_nat (iterations args)
         ∧ (∀ j, j < k → iteration_batch w j = [])
         ∧ f ∈ iteration_files w k.
Proof.
  rewrite main_files, elem_of_app, loop_files_elem.
  assert (f ∈ match boot_batch w with
              | [] => []
              | _ :: _ => [(errors_boot, error_list (boot_batch w))]
              end
          ↔ boot_batch w ≠ [] ∧ f = (errors_boot, error_list (boot_batch w))) as ->.
  { destruct (boot_batch w).
    - split; [by intros ?%elem_of_nil|by intros []].
    - rewrite list_elem_of_singleton. split; [done|by intros []]. }
  split; (intros [?|(k & Hk & Hquiet & Hf)]; [by left|right]); exists k;
    (split; [lia|]); (split; [|done]); intros j Hj; apply Hquiet; lia.
Qed.

(** X8. The state file of an iteration that runs holds what the page's
    text hook returned: [state-<i>.json] is written exactly when the text
    state is a non-empty string, with that string as content; the text is
    the result of [render_game_to_text] whenever that is a function, so a
    hook returning the empty string leaves no state file even if
    [__GAME_STATE__] is set; [__GAME_STATE__] is read only without a hook. *)
Theorem state_file_from_text_hook (i : nat) :
  (Z.of_nat i < iterations args)%Z →
  (∀ j, j < i → iteration_batch w j = []) →
  let m := iteration w i in
  let o := main args steps w in
  (∀ c, (state i, c) ∈ files o ↔
        ∃ s, c = raw_text s ∧ s ≠ ""
             ∧ (render_game_to_text m = Some s
                ∨ (render_game_to_text m = None ∧ GAME_STATE m = Some s)))
  ∧ (render_game_to_text m = Some "" → state i ∉ artifacts o).
Proof.
  intros Hi Hquiet m o.
  assert (∀ c, (state i, c) ∈ files o ↔
               truthy_text (capture_text_state m) = true
               ∧ c = raw_text (default "" (capture_text_state m))) as Hstate.
  { intros c. unfold o. rewrite main_files_elem. split.
    - intros [[_ [=]]|(k & Hk & _ & Hf)].
      pose proof (iteration_files_names k _ Hf) as Hname. cbn [fst] in Hname.
      assert (k = i) as -> by (destruct Hname as [|[|]]; congruence).
      unfold iteration_files in Hf. rewrite !elem_of_app in Hf. fold m in Hf.
      destruct Hf as [Hf|[Hf|Hf]].
      + destruct (captureScreenshot _ _); [|by apply elem_of_nil in Hf].
        by apply list_elem_of_singleton in Hf.
      + destruct (truthy_text _); [|by apply elem_of_nil in Hf].
        apply list_elem_of_singleton in Hf. by simplify_eq.
      + destruct (iteration_batch w i); [by apply elem_of_nil in Hf|].
        by apply list_elem_of_singleton in Hf.
    - intros [Htruthy ->]. right. exists i. split_and!; [lia|done|].
      unfold iteration_files. fold m. rewrite Htruthy, !elem_of_app. right. left. left. }
  split.
  - intros c. rewrite Hstate. unfold capture_text_state, truthy_text.
    destruct (render_game_to_text m) as [s|]; [|destruct (GAME_STATE m) as [s|]]; cbn.
    + rewrite negb_true_iff, bool_decide_eq_false. split.
      * intros [Hs ->]. exists s. split_and!; [done..|by left].
      * intros (s' & -> & Hs & [[= ->]|[[=] _]]). done.
    + rewrite negb_true_iff, bool_decide_eq_false. split.
      * intros [Hs ->]. exists s. split_and!; [done..|by right].
      * intros (s' & -> & Hs & [[=]|[_ [= ->]]]). done.
    + split; [by intros [[=] _]|]. by intros (s' & _ & _ & [[=]|[_ [=]]]).
  - intros Hhook Hin. unfold artifacts in Hin.
    apply list_elem_of_fmap in Hin as ([a c] & Ha & Hin). cbn in Ha. subst a.
    apply Hstate in Hin as [Htruthy _]. unfold capture_text_state in Htruthy.
    by rewrite Hhook in Htruthy.
Qed.

Lemma iteration_body_input (i : nat) (r : Run) :
  errors r = tracker_before w i →
  canvas r = canvas_before w i →
  requests (iteration_body None args steps (iteration w i) i r).2
  = requests r ++ iteration_input args steps w i.
Proof.
  intros Herrors Hcanvas.
  unfold iteration_body, iteration_input, iteration_choreography, canvas_in_use.
  cbn [is_locating is_capturing is_text_state is_writing_errors acting_cut andb].
  cbn [canvas_before]. rewrite Herrors, Hcanvas, runActions_requests.
  set (handle := element_handle _ <$> _).
  destruct (captureScreenshot_writes (page (iteration w i)) handle) as [png ->].
  cbn [snd drain fst].
  by destruct (_errors (deliver (events (iteration w i)) (tracker_before w i))).
Qed.

Lemma iteration_loop_input (n : nat) : ∀ (i : nat) (r : Run),
  errors r = tracker_before w i →
  canvas r = canvas_before w i →
  requests (iteration_loop all_resolve args steps w n i r).2
  = requests r ++ (seq i (executed w n i) ≫= iteration_input args steps w).
Proof.
  induction n as [|n IH]; intros i r Herrors Hcanvas; cbn [iteration_loop executed].
  - by rewrite app_nil_r.
  - change (at_iteration all_resolve i) with (@None IterationRejection).
    pose proof (iteration_body_input i r Herrors Hcanvas) as Hinput.
    destruct (iteration_body_files i r Herrors Hcanvas) as (Hend & He & Hc & _).
    destruct (iteration_body None args steps (iteration w i) i r) as [stop r'].
    cbn [fst snd] in *. subst stop. cbn [seq mbind list_bind].
    destruct (iteration_batch w i); cbn [snd].
    + rewrite IH, Hinput by done. by rewrite <- app_assoc.
    + by rewrite Hinput, app_nil_r.
Qed.

Lemma main_input :
  input (main args steps w)
  = click_request args
    ++ (seq 0 (executed w (Z.to_nat (iterations args)) 0) ≫= iteration_input args steps w).
Proof.
  rewrite main_loop.
  pose proof (iteration_loop_input (Z.to_nat (iterations args)) 0 (boot_run args w)
                eq_refl eq_refl) as Hin.
  destruct (iteration_loop_spec args steps w (Z.to_nat (iterations args)) 0 (boot_run args w)
              eq_refl) as (Hend & _).
  destruct (iteration_loop all_resolve args steps w (Z.to_nat (iterations args)) 0
              (boot_run args w)) as [[] r'];
    cbn [fst snd input] in *; try done; by rewrite Hin.
Qed.

Lemma executed_bounds (n : nat) : ∀ i,
  executed w n i ≤ n
  ∧ (loop_failed w n i = false → executed w n i = n)
  ∧ (∀ k, i ≤ k < i + n → (∀ j, i ≤ j < k → iteration_batch w j = []) →
          iteration_batch w k ≠ [] → i + executed w n i = S k).
Proof.
  induction n as [|n IH]; intros i; cbn [executed loop_failed].
  - split_and!; [done..|]. intros k Hk. lia.
  - destruct (IH (S i)) as (Hle & Hall & Hfirst).
    destruct (iteration_batch w i) eqn:Hb.
    + split_and!; [lia|intros Hf; by rewrite Hall| ].
      intros k Hk Hquiet Hk'. destruct (decide (k = i)) as [->|]; [congruence|].
      rewrite <- (Hfirst k); [lia|lia| |done]. intros j Hj. apply Hquiet. lia.
    + split_and!; [lia|done|].
      intros k Hk Hquiet Hk'. destruct (decide (k = i)) as [->|]; [lia|].
      rewrite (Hquiet i) in Hb by lia. discriminate Hb.
Qed.

(** *** Runs left by a rejection *)

Lemma iteration_body_resolves (rejected : option IterationRejection) (i : nat) (r : Run) :
  errors r = tracker_before w i →
  canvas r = canvas_before w i →
  rejection_hits rejected steps w i = false →
  iteration_body rejected args steps (iteration w i) i r
  = iteration_body None args steps (iteration w i) i r.
Proof.
  intros Herrors Hcanvas Hhit. unfold iteration_body.
  rewrite Herrors, Hcanvas, runActions_requests.
  change (steps ≫= step_events (page (iteration w i))
                    (element_handle (iteration w i)
                     <$> locate (iteration w i) (canvas_before w i)))
    with (iteration_choreography steps w i).
  destruct rejected as [[|sent| | |]|]; cbn [rejection_hits] in Hhit;
    cbn [is_locating is_capturing is_text_state is_writing_errors acting_cut andb];
    try done.
  - by rewrite Hhit.
  - apply bool_decide_eq_false in Hhit. by rewrite decide_False.
  - destruct (captureScreenshot _ _); [|done]. cbn [drain].
    destruct (_errors (deliver (events (iteration w i)) (tracker_before w i))) eqn:Hbatch;
      [done|].
    apply bool_decide_eq_false in Hhit. destruct Hhit.
    unfold iteration_batch. cbn [drain fst]. by rewrite Hbatch.
Qed.

Lemma iteration_body_rejected (rejected : option IterationRejection) (i : nat) (r : Run) :
  errors r = tracker_before w i →
  canvas r = canvas_before w i →
  rejection_hits rejected steps w i = true →
  let res := iteration_body rejected args steps (iteration w i) i r in
  res.1 = loop_rejected
  ∧ (∃ extra, written res.2 = written r ++ extra ∧ extra `prefix_of` iteration_files w i)
  ∧ (∃ sent, requests res.2 = requests r ++ sent
             ∧ sent `prefix_of` iteration_input args steps w i).
Proof.
  intros Herrors Hcanvas Hhit. cbn zeta. unfold iteration_body.
  rewrite Herrors, Hcanvas, runActions_requests.
  change (element_handle (iteration w i) <$> locate (iteration w i) (canvas_before w i))
    with (canvas_in_use w i).
  change (steps ≫= step_events (page (iteration w i)) (canvas_in_use w i))
    with (iteration_choreography steps w i).
  unfold iteration_input, iteration_files.
  destruct (captureScreenshot_writes (page (iteration w i)) (canvas_in_use w i)) as [png ->].
  destruct rejected as [[|sent| | |]|]; cbn [rejection_hits] in Hhit;
    cbn [is_locating is_capturing is_text_state is_writing_errors acting_cut andb];
    try done.
  - rewrite Hhit. cbn [fst snd written requests].
    split_and!; [done| |]; exists []; rewrite app_nil_r; (split; [done|apply prefix_nil]).
  - apply bool_decide_eq_true in Hhit. rewrite decide_True by done.
    cbn [fst snd written requests]. split_and!; [done| |].
    + exists []. rewrite app_nil_r. split; [done|apply prefix_nil].
    + eexists. split; [done|]. apply prefix_app_r, prefix_take.
  - cbn [fst snd written requests]. split_and!; [done| |].
    + exists []. rewrite app_nil_r. split; [done|apply prefix_nil].
    + by eexists.
  - cbn [fst snd written requests]. split_and!; [done| |].
    + eexists. split; [done|]. by apply prefix_app_r.
    + by eexists.
  - cbn [drain]. apply bool_decide_eq_true in Hhit. revert Hhit.
    unfold iteration_batch. cbn [drain fst].
    destruct (_errors (deliver (events (iteration w i)) (tracker_before w i))); [done|].
    intros _. cbn [fst snd written requests]. split_and!; [done| |].
    + destruct (truthy_text _); rewrite <- ?app_assoc.
      * eexists. split; [done|]. eexists. by rewrite <- !app_assoc.
      * eexists. split; [done|]. by eexists.
    + by eexists.
Qed.

Lemma iteration_loop_resolves (rejections : Rejections) (n : nat) : ∀ (i : nat) (r : Run),
  errors r = tracker_before w i →
  canvas r = canvas_before w i →
  loop_abandoned rejections steps w n i = false →
  iteration_loop rejections args steps w n i r
  = iteration_loop all_resolve args steps w n i r.
Proof.
  induction n as [|n IH]; intros i r Herrors Hcanvas Hloop; [done|].
  cbn [iteration_loop loop_abandoned] in *.
  change (at_iteration all_resolve i) with (@None IterationRejection).
  destruct (rejection_hits (at_iteration rejections i) steps w i) eqn:Hhit; [done|].
  rewrite (iteration_body_resolves _ i r) by done.
  destruct (iteration_body_files i r Herrors Hcanvas) as (Hend & He & Hc & _).
  destruct (iteration_body None args steps (iteration w i) i r) as [stop r'].
  cbn [fst snd] in *. subst stop.
  destruct (iteration_batch w i); [by apply IH|done].
Qed.

Lemma iteration_loop_rejected (rejections : Rejections) (n : nat) : ∀ (i : nat) (r : Run),
  errors r = tracker_before w i →
  canvas r = canvas_before w i →
  loop_abandoned rejections steps w n i = true →
  let res := iteration_loop rejections args steps w n i r in
  res.1 = loop_rejected
  ∧ (∃ extra, written res.2 = written r ++ extra ∧ extra `prefix_of` loop_files w n i)
  ∧ (∃ sent, requests res.2 = requests r ++ sent
             ∧ sent `prefix_of` (seq i (executed w n i) ≫= iteration_input args steps w)).
Proof.
  induction n as [|n IH]; intros i r Herrors Hcanvas Hloop; [done|]. cbn zeta.
  cbn [iteration_loop loop_abandoned loop_files executed seq mbind list_bind] in *.
  destruct (rejection_hits (at_iteration rejections i) steps w i) eqn:Hhit.
  - destruct (iteration_body_rejected _ i r Herrors Hcanvas Hhit)
      as (Hend & (extra & Hw & Hextra) & (sent & Hr & Hsent)).
    destruct (iteration_body (at_iteration rejections i) args steps (iteration w i) i r)
      as [stop r'].
    cbn [fst snd] in *. subst stop. cbn [fst snd]. split_and!; [done| |].
    + exists extra. split; [done|]. by apply prefix_app_r.
    + exists sent. split; [done|]. by apply prefix_app_r.
  - rewrite (iteration_body_resolves _ i r) by done.
    pose proof (iteration_body_input i r Herrors Hcanvas) as Hinput.
    destruct (iteration_body_files i r Herrors Hcanvas) as (Hend & He & Hc & Hw).
    destruct (iteration_body None args steps (iteration w i) i r) as [stop r'].
    cbn [fst snd] in *. subst stop.
    destruct (iteration_batch w i); [|done].
    destruct (IH (S i) r' He Hc Hloop) as (Hend' & (extra & Hw' & Hextra) & (sent & Hr' & Hsent)).
    split_and!; [done| |].
    + exists (iteration_files w i ++ extra). rewrite Hw', Hw, <- app_assoc.
      split; [done|]. by apply prefix_app.
    + exists (iteration_input args steps w i ++ sent). rewrite Hr', Hinput, <- app_assoc.
      split; [done|]. by apply prefix_app.
Qed.


Lemma main_run_resolved (rejections : Rejections) :
  abandoned rejections args steps w = false →
  main_run rejections args steps w
  = mkOutcome (files (main args steps w)) (input (main args steps w))
      (negb (at_close rejections))
      (if at_close rejections then 1%Z else exit_code (main args steps w)).
Proof.
  intros [Hboot Hloop]%orb_false_iff. rewrite main_run_loop, main_loop by done.
  rewrite (iteration_loop_resolves rejections _ 0 (boot_run args w) eq_refl eq_refl Hloop).
  destruct (iteration_loop_spec args steps w (Z.to_nat (iterations args)) 0 (boot_run args w)
              eq_refl) as (Hend & _).
  by destruct (iteration_loop all_resolve args steps w (Z.to_nat (iterations args)) 0
                 (boot_run args w)) as [[] r'].
Qed.

Lemma main_run_loop_abandoned (rejections : Rejections) :
  boot_abandoned rejections w = false →
  loop_abandoned rejections steps w (Z.to_nat (iterations args)) 0 = true →
  let o := main_run rejections args steps w in
  exit_code o = 1%Z
  ∧ browser_closed o = false
  ∧ (∃ extra, files o = written (boot_run args w) ++ extra
              ∧ extra `prefix_of` loop_files w (Z.to_nat (iterations args)) 0)
  ∧ (∃ sent, input o = click_request args ++ sent
             ∧ sent `prefix_of` (seq 0 (executed w (Z.to_nat (iterations args)) 0)
                                 ≫= iteration_input args steps w)).
Proof.
  intros Hboot Hloop. cbn zeta. rewrite main_run_loop by done.
  destruct (iteration_loop_rejected rejections _ 0 (boot_run args w) eq_refl eq_refl Hloop)
    as (Hend & Hfiles & Hinput).
  destruct (iteration_loop rejections args steps w (Z.to_nat (iterations args)) 0
              (boot_run args w)) as [stop r'].
  cbn [fst snd] in *. by subst stop.
Qed.

Lemma main_run_abandoned (rejections : Rejections) :
  abandoned rejections args steps w = true →
  let o := main_run rejections args steps w in
  exit_code o = 1%Z
  ∧ browser_closed o = false
  ∧ files o `prefix_of` files (main args steps w)
  ∧ input o `prefix_of` input (main args steps w)
  ∧ (errors_boot ∈ artifacts o ↔ boot_batch w ≠ [] ∧ boot_abandoned rejections w = false).
Proof.
  intros Hab. cbn zeta. destruct (boot_abandoned rejections w) eqn:Hboot.
  - rewrite main_run_boot_abandoned by done. cbn [exit_code browser_closed files input].
    split_and!; [done|done|apply prefix_nil| |].
    + rewrite main_input. destruct (at_boot rejections) as [[]|];
        [apply prefix_nil|by apply prefix_app_r..].
    + unfold artifacts. cbn [files fmap list_fmap]. split; [by intros ?%elem_of_nil|].
      by intros [_ ?].
  - unfold abandoned in Hab. rewrite Hboot in Hab. cbn [orb] in Hab.
    destruct (main_run_loop_abandoned rejections Hboot Hab)
      as (Hexit & Hclosed & (extra & Hfiles & Hextra) & (sent & Hinput & Hsent)).
    split_and!; [done|done| | |].
    + rewrite Hfiles, main_files. by apply prefix_app.
    + rewrite Hinput, main_input. by apply prefix_app.
    + unfold artifacts. rewrite Hfiles, fmap_app, elem_of_app. cbn [boot_run written].
      split.
      * intros Hin. split; [|done]. destruct Hin as [Hin|Hin].
        -- destruct (boot_batch w); [by apply elem_of_nil in Hin|done].
        -- apply list_elem_of_fmap in Hin as (f & Hname & Hin).
           destruct Hextra as [rest Hrest].
           assert (f ∈ loop_files w (Z.to_nat (iterations args)) 0) as Hf
             by (rewrite Hrest; apply elem_of_app; by left).
           apply loop_files_elem in Hf as (k & _ & _ & Hf).
           apply iteration_files_names in Hf as [Hf|[Hf|Hf]]; congruence.
      * intros [Hbatch _]. left. destruct (boot_batch w); [done|]. left.
Qed.




Lemma main_passes_iff :
  exit_code (main args steps w) = 0%Z ↔
  ∀ i ev r, (Z.of_nat i < iterations args)%Z →
            ev ∈ events (iteration w i) → record_of ev = Some r →
            ∃ ev', ev' ∈ events (boot w) ∧ record_of ev' = Some r.
Proof.
  destruct (main_spec args steps w) as (Hexit & _). rewrite Hexit.
  assert ((if loop_failed w (Z.to_nat (iterations args)) 0 then 1%Z else 0%Z) = 0%Z
          ↔ loop_failed w (Z.to_nat (iterations args)) 0 = false) as ->.
  { by destruct (loop_failed _ _ _). }
  rewrite loop_failed_false.
  assert ((∀ j, 0 ≤ j < 0 + Z.to_nat (iterations args) → iteration_batch w j = [])
          ↔ (∀ j, j < Z.to_nat (iterations args) → iteration_batch w j = [])) as ->.
  { split; intros H j Hj; apply H; lia. }
  rewrite quiet_iff_known. split; intros H i ev r Hi; apply H; lia.
Qed.


(** X7. A run passes exactly when nothing rejects and every error the
    page reports during the iterations repeats one it reported during
    boot: a [console.error] or an uncaught exception with the same text as
    one drained by the boot check never fails an iteration, console
    messages of other types never count, and any other error fails the
    run, as does an await that rejects or a call that throws. *)
Theorem passes_iff_errors_known_from_boot (rejections : Rejections) :
  exit_code (main_run rejections args steps w) = 0%Z ↔
  abandoned rejections args steps w = false
  ∧ at_close rejections = false
  ∧ ∀ i ev r, (Z.of_nat i < iterations args)%Z →
              ev ∈ events (iteration w i) → record_of ev = Some r →
              ∃ ev', ev' ∈ events (boot w) ∧ record_of ev' = Some r.
Proof.
  destruct (abandoned rejections args steps w) eqn:Hab.
  - destruct (main_run_abandoned rejections Hab) as (Hexit & _). rewrite Hexit.
    split; [done|by intros []].
  - rewrite main_run_resolved by done. cbn [exit_code].
    destruct (at_close rejections).
    + split; [done|]. by intros (_ & ? & _).
    + rewrite main_passes_iff. split; [done|]. by intros (_ & _ & ?).
Qed.

Lemma getCanvasHandle_on_None (m : Moment) :
  getCanvasHandle_on m = None ↔
  ∀ e, e ∈ document m → area (element (element_handle m e)) = 0%N.
Proof.
  unfold getCanvasHandle_on.
  pose proof (getCanvasHandle_spec ((λ e, element (element_handle m e)) <$> document m))
    as Hspec.
  destruct (getCanvasHandle _) as [k|]; cbn [mbind option_bind].
  - destruct Hspec as (c & Hc & Hpos & _).
    apply list_lookup_fmap_Some in Hc as (e & -> & He).
    rewrite He. split; [done|]. intros Hzero.
    rewrite (Hzero e) in Hpos by by eapply list_elem_of_lookup_2. lia.
  - split; [|done]. intros _ e He. apply Hspec, list_elem_of_fmap. by exists e.
Qed.

Lemma getCanvasHandle_on_Some (m : Moment) (e : nat) :
  getCanvasHandle_on m = Some e →
  e ∈ document m ∧ (0 < area (element (element_handle m e)))%N.
Proof.
  unfold getCanvasHandle_on.
  pose proof (getCanvasHandle_spec ((λ e, element (element_handle m e)) <$> document m))
    as Hspec.
  destruct (getCanvasHandle _) as [k|]; cbn [mbind option_bind]; [|done].
  intros He. destruct Hspec as (c & Hc & Hpos & _).
  apply list_lookup_fmap_Some in Hc as (e' & -> & He').
  assert (e' = e) as -> by congruence. split; [by eapply list_elem_of_lookup_2|done].
Qed.

(** X9. The canvas is located once, and the handle follows the element:
    the iteration that first finds a canvas of positive area fixes the
    element every later iteration acts on and captures, wherever that
    element then stands among the canvases of the page and whether or not
    it is still in the document; while none has been found each iteration
    looks again. The screenshot file of an iteration that runs is the
    capture through that handle. *)
Theorem canvas_located_once (i : nat) :
  (Z.of_nat i < iterations args)%Z →
  (∀ j, j < i → iteration_batch w j = []) →
  (∃ png, captureScreenshot (page (iteration w i)) (canvas_in_use w i) = Written png
          ∧ ∀ c, (shot i, c) ∈ files (main args steps w) ↔ c = image png)
  ∧ (∀ e, canvas_before w (S i) = Some e →
          canvas_in_use w i = Some (element_handle (iteration w i) e))
  ∧ (∀ j e, j ≤ i → canvas_before w j = Some e → canvas_before w (S i) = Some e)
  ∧ (canvas_before w i = None → canvas_before w (S i) = getCanvasHandle_on (iteration w i))
  ∧ (∀ e, canvas_before w i = None → canvas_before w (S i) = Some e →
          e ∈ document (iteration w i)
          ∧ (0 < area (element (element_handle (iteration w i) e)))%N)
  ∧ (canvas_before w (S i) = None ↔
     (∀ e, e ∈ document (boot w) → area (element (element_handle (boot w) e)) = 0%N)
     ∧ ∀ j e, j ≤ i → e ∈ document (iteration w j) →
              area (element (element_handle (iteration w j) e)) = 0%N).
Proof.
  intros Hi Hquiet. split_and!.
  - destruct (captureScreenshot_writes (page (iteration w i)) (canvas_in_use w i))
      as [png Hpng].
    exists png. split; [done|]. intros c. rewrite main_files_elem. split.
    + intros [[_ [=]]|(k & Hk & _ & Hf)].
      pose proof (iteration_files_names k _ Hf) as Hname. cbn [fst] in Hname.
      assert (k = i) as -> by (destruct Hname as [|[|]]; congruence).
      unfold iteration_files in Hf. rewrite Hpng, !elem_of_app in Hf.
      destruct Hf as [Hf|[Hf|Hf]].
      * apply list_elem_of_singleton in Hf. by simplify_eq.
      * destruct (truthy_text _); [|by apply elem_of_nil in Hf].
        by apply list_elem_of_singleton in Hf.
      * destruct (iteration_batch w i); [by apply elem_of_nil in Hf|].
        by apply list_elem_of_singleton in Hf.
    + intros ->. right. exists i. split_and!; [lia|done|].
      unfold iteration_files. rewrite Hpng, !elem_of_app. left. left.
  - intros e He. unfold canvas_in_use. by rewrite He.
  - intros j e Hj He. clear Hi Hquiet. induction i as [|i IH].
    + assert (j = 0) as -> by lia. cbn [canvas_before] in *. by rewrite He.
    + change (canvas_before w (S (S i)))
        with (locate (iteration w (S i)) (canvas_before w (S i))).
      destruct (decide (j = S i)) as [->|].
      * by rewrite He.
      * rewrite IH; [done|lia].
  - intros Hnone. cbn [canvas_before]. by rewrite Hnone.
  - intros e Hnone. cbn [canvas_before]. rewrite Hnone. cbn [locate].
    apply getCanvasHandle_on_Some.
  - clear Hi Hquiet. induction i as [|i IH].
    + cbn [canvas_before]. unfold locate.
      destruct (getCanvasHandle_on (boot w)) as [e|] eqn:Hboot.
      * split; [done|]. intros [Hz _].
        pose proof (proj2 (getCanvasHandle_on_None _) Hz). congruence.
      * rewrite getCanvasHandle_on_None.
        pose proof (proj1 (getCanvasHandle_on_None _) Hboot) as Hzero. split.
        -- intros Hz. split; [done|]. intros j e Hj. assert (j = 0) as -> by lia. apply Hz.
        -- intros [_ Hz] e He. by apply (Hz 0).
    + change (canvas_before w (S (S i)))
        with (locate (iteration w (S i)) (canvas_before w (S i))).
      unfold locate. destruct (canvas_before w (S i)) as [e|] eqn:Hprev.
      * split; [done|]. intros [Hz Hz']. assert (Some e = None) as [=].
        apply IH. split; [done|]. intros j e' Hj. apply Hz'. lia.
      * rewrite getCanvasHandle_on_None. destruct IH as [IH _].
        destruct (IH eq_refl) as [Hz Hz']. split.
        -- intros Hlast. split; [done|]. intros j e Hj.
           destruct (decide (j = S i)) as [->|]; [apply Hlast|apply Hz'; lia].
        -- intros [_ Hall] e He. by apply (Hall (S i)).
Qed.

(** X24. Every iteration that runs replays the whole choreography on the
    canvas in use and then pauses once; before the first of them comes the
    click on the element of [--click-selector], when one is given, and
    nothing else is sent: the requests of a run that no rejection cuts
    short are the click and those of its executed iterations in order, all
    of the configured count when the run passes, and those up to and
    including the first failing one otherwise; the requests of a run left
    by a rejection are the first of these. *)
Theorem run_replays_choreography (rejections : Rejections) :
  let n := Z.to_nat (iterations args) in
  let o := main_run rejections args steps w in
  let replay := click_request args ++ (seq 0 (executed w n 0) ≫= iteration_input args steps w) in
  (abandoned rejections args steps w = false → input o = replay)
  ∧ input o `prefix_of` replay
  ∧ (∀ i, iteration_input args steps w i
          = (steps ≫= step_events (page (iteration w i)) (canvas_in_use w i))
            ++ [sleep (pauseMs args)])
  ∧ executed w n 0 ≤ n
  ∧ (exit_code o = 0%Z → executed w n 0 = n)
  ∧ (∀ k, k < n → (∀ j, j < k → iteration_batch w j = []) → iteration_batch w k ≠ [] →
          executed w n 0 = S k).
Proof.
  intros n o replay. destruct (executed_bounds n 0) as (Hle & Hall & Hfirst).
  assert (abandoned rejections args steps w = false → input o = replay) as Hfull.
  { intros Hab. unfold o. rewrite main_run_resolved by done. cbn [input].
    apply main_input. }
  split_and!; [done| |done|done| |].
  - destruct (abandoned rejections args steps w) eqn:Hab.
    + destruct (main_run_abandoned rejections Hab) as (_ & _ & _ & Hinput & _).
      unfold replay, n. by rewrite <- main_input.
    + by rewrite Hfull.
  - intros Hexit. apply Hall.
    destruct (abandoned rejections args steps w) eqn:Hab.
    + destruct (main_run_abandoned rejections Hab) as (Hone & _). fold o in Hone. congruence.
    + unfold o in Hexit. rewrite main_run_resolved in Hexit by done. cbn [exit_code] in Hexit.
      destruct (at_close rejections); [done|].
      destruct (main_spec args steps w) as (Hmain & _). rewrite Hmain in Hexit. fold n in Hexit.
      by destruct (loop_failed w n 0).
  - intros k Hk Hquiet Hk'. apply (Hfirst k); [lia| |done]. intros j Hj. apply Hquiet. lia.
Qed.
End run_facts.



(** ** The command line *)

Section cli_facts.
Context (parseInt : string → option Z) (parseFloat : string → option Q).
Context (readFileSync : string → option string) (JSON_parse : string → option CLI.Actions).

Abbreviation step := (CLI.step parseInt parseFloat).
Abbreviation loop := (CLI.loop parseInt parseFloat).
Abbreviation parseArgs := (CLI.parseArgs parseInt parseFloat).
Abbreviation loadActions := (CLI.loadActions readFileSync JSON_parse).

Lemma given_Some flag arg next v :
  CLI.given flag arg next = Some v ↔ arg = flag ∧ next = Some v ∧ v ≠ "".
Proof.
  unfold CLI.given. destruct (String.eqb_spec arg flag) as [->|Hne].
  - destruct next as [x|]; [|split; [done|by intros (_ & ? & _)]].
    destruct (String.eqb_spec x "") as [->|Hx]; split; try done.
    + by intros (_ & [= ->] & ?).
    + by intros [= ->].
    + by intros (_ & [= ->] & _).
  - split; [done|by intros [? _]].
Qed.

Lemma loop_unfold arg rest a :
  loop (arg :: rest) a
  = if (step arg (head rest) a).2 then loop (tail rest) (step arg (head rest) a).1
    else loop rest (step arg (head rest) a).1.
Proof.
  cbn [CLI.loop]. destruct (step arg (head rest) a) as [a' skip] eqn:Hstep.
  cbn [fst snd]. destruct rest as [|next rest']; [|done].
  by destruct skip.
Qed.

(** What a step does, flag by flag. *)
Lemma step_cases arg next a :
  (∃ v, next = Some v ∧ v ≠ "" ∧ (step arg next a).2 = true
        ∧ ((arg = "--url" ∧ (step arg next a).1 = CLI.set_url v a)
           ∨ (arg = "--iterations" ∧ (step arg next a).1 = CLI.set_iterations (parseInt v) a)
           ∨ (arg = "--pause-ms" ∧ (step arg next a).1 = CLI.set_pauseMs (parseInt v) a)
           ∨ (arg = "--headless"
              ∧ (step arg next a).1
                = CLI.set_headless (bool_decide (v ≠ "0") && bool_decide (v ≠ "false")) a)
           ∨ (arg = "--screenshot-dir" ∧ (step arg next a).1 = CLI.set_screenshotDir v a)
           ∨ (arg = "--actions-file" ∧ (step arg next a).1 = CLI.set_actionsFile v a)
           ∨ (arg = "--actions-json" ∧ (step arg next a).1 = CLI.set_actionsJson v a)
           ∨ (arg = "--click"
              ∧ (step arg next a).1
                = match CLI.parse_click parseFloat v with
                  | Some c => CLI.set_click c a
                  | None => a
                  end)
           ∨ (arg = "--click-selector" ∧ (step arg next a).1 = CLI.set_clickSelector v a)
           ∨ (arg = "--timeout" ∧ (step arg next a).1 = CLI.set_timeoutMs (parseInt v) a)))
  ∨ (arg = "--no-wait" ∧ step arg next a = (CLI.set_waitForGame false a, false))
  ∨ step arg next a = (a, false).
Proof.
  unfold CLI.step.
  repeat match goal with
         | |- context [CLI.given ?f arg next] =>
             let H := fresh "H" in
             destruct (CLI.given f arg next) as [?v|] eqn:H;
             [apply given_Some in H as (-> & -> & ?); left; eexists;
              split_and!; [done..|]; cbn [fst]; by eauto 12|]
         end.
  destruct (String.eqb_spec arg "--no-wait") as [->|?]; [right; left; by split|].
  by right; right.
Qed.

Lemma loop_preserves (I : CLI.t → Prop) (n : nat) : ∀ tokens a,
  length tokens ≤ n →
  (∀ arg next a, arg ∈ tokens → I a → I (step arg next a).1) →
  I a → I (loop tokens a).
Proof.
  induction n as [|n IH]; intros tokens a Hlen Hstep Ha.
  - by destruct tokens; [|simpl in Hlen; lia].
  - destruct tokens as [|arg rest]; [done|]. rewrite loop_unfold.
    assert (I (step arg (head rest) a).1) as Ha' by (apply Hstep; [left|done]).
    simpl in Hlen.
    destruct (step arg (head rest) a).2; apply IH; try done.
    + destruct rest; simpl in *; lia.
    + intros arg' next' a' Hin. apply Hstep. right.
      destruct rest as [|x rest]; [done|]. by right.
    + lia.
    + intros arg' next' a' Hin. apply Hstep. by right.
Qed.

Lemma step_keeps_url arg next a :
  arg ≠ "--url" → CLI.url (step arg next a).1 = CLI.url a.
Proof.
  intros Hne. destruct (step_cases arg next a) as [(v & _ & _ & _ & Hc)|[[_ ->]| ->]];
    [|done..].
  destruct_or!; destruct Hc as [-> ->]; try done.
  by destruct (CLI.parse_click _ _).
Qed.

Lemma step_url_given arg next a :
  (∃ u, CLI.url a = Some u ∧ u ≠ "") →
  ∃ u, CLI.url (step arg next a).1 = Some u ∧ u ≠ "".
Proof.
  intros Hu. destruct (step_cases arg next a) as [(v & _ & Hv & _ & Hc)|[[_ ->]| ->]];
    [|done..].
  destruct_or!; destruct Hc as [-> ->]; try done.
  - by exists v.
  - by destruct (CLI.parse_click _ _).
Qed.

Lemma loop_url_source (n : nat) : ∀ tokens a,
  length tokens ≤ n →
  CLI.url (loop tokens a) = CLI.url a
  ∨ ∃ l1 u l2, tokens = l1 ++ "--url" :: u :: l2 ∧ u ≠ ""
               ∧ CLI.url (loop tokens a) = Some u.
Proof.
  induction n as [|n IH]; intros tokens a Hlen.
  - destruct tokens; [by left|simpl in Hlen; lia].
  - destruct tokens as [|arg rest]; [by left|]. rewrite loop_unfold. simpl in Hlen.
    destruct (step_cases arg (head rest) a) as [(v & Hnext & Hv & -> & Hc)|[[-> ->]| ->]].
    + destruct rest as [|x rest]; [done|]. injection Hnext as ->. cbn [head tail] in *.
      destruct (IH rest (step arg (Some v) a).1) as [Hsame|(l1 & u & l2 & -> & Hu & Hurl)];
        [simpl in *; lia| |].
      * rewrite Hsame. destruct (decide (arg = "--url")) as [->|Hne].
        -- right. exists [], v, rest. split_and!; [done|done|].
           destruct_or!; destruct Hc as [? ->]; done.
        -- left. by apply step_keeps_url.
      * right. exists (arg :: v :: l1), u, l2. by split_and!.
    + cbn [fst snd].
      destruct (IH rest (CLI.set_waitForGame false a)) as [Hsame|(l1 & u & l2 & -> & Hu & Hurl)];
        [lia|left; by rewrite Hsame|].
      right. exists ("--no-wait" :: l1), u, l2. by split_and!.
    + cbn [fst snd].
      destruct (IH rest a) as [Hsame|(l1 & u & l2 & -> & Hu & Hurl)]; [lia|by left|].
      right. exists (arg :: l1), u, l2. by split_and!.
Qed.

(** X1. The process ends with the usage message exactly when no [--url]
    has been read: it does whenever [--url] is not among the arguments, it
    does not when the arguments start with [--url] and a non-empty value,
    and whenever it does not, some [--url] is followed by a non-empty
    argument. *)
Theorem usage_error_iff_no_url (argv : list string) (w : World) :
  ("--url" ∉ drop 2 argv →
   CLI.run parseInt parseFloat readFileSync JSON_parse argv w = CLI.usage_error)
  ∧ (∀ node script u rest,
       argv = node :: script :: "--url" :: u :: rest → u ≠ "" →
       CLI.run parseInt parseFloat readFileSync JSON_parse argv w ≠ CLI.usage_error)
  ∧ (CLI.run parseInt parseFloat readFileSync JSON_parse argv w ≠ CLI.usage_error →
     ∃ l1 u l2, drop 2 argv = l1 ++ "--url" :: u :: l2 ∧ u ≠ "").
Proof.
  unfold CLI.run, CLI.run_rejecting, CLI.parseArgs. split_and!.
  - intros Hno.
    assert (CLI.url (loop (drop 2 argv) CLI.defaults) = CLI.url CLI.defaults) as ->; [|done].
    apply (loop_preserves (λ a, CLI.url a = CLI.url CLI.defaults) (length (drop 2 argv)));
      [done| |done].
    intros arg next a Hin Ha. rewrite <- Ha. apply step_keeps_url. by intros ->.
  - intros node script u rest -> Hu. cbn [drop]. rewrite loop_unfold. cbn [head tail].
    assert (step "--url" (Some u) CLI.defaults = (CLI.set_url u CLI.defaults, true)) as ->.
    { unfold CLI.step. assert (CLI.given "--url" "--url" (Some u) = Some u) as ->; [|done].
      by apply given_Some. }
    cbn [fst snd].
    destruct (loop_preserves (λ a, ∃ u, CLI.url a = Some u ∧ u ≠ "") (length rest) rest
                (CLI.set_url u CLI.defaults)) as (u' & -> & Hu'); [done| |by exists u|].
    + intros arg next a _. apply step_url_given.
    + rewrite decide_False by done. by destruct (loadActions _).
  - intros Hrun.
    destruct (loop_url_source (length (drop 2 argv)) (drop 2 argv) CLI.defaults)
      as [Hsame|(l1 & u & l2 & Heq & Hu & _)]; [done| |by eauto].
    by rewrite Hsame in Hrun.
Qed.

Abbreviation apply := (apply_option parseInt parseFloat).

(** The step for each value flag, by evaluation of the cascade. *)
Lemma step_flags value a :
  value ≠ "" →
  step "--url" (Some value) a = (CLI.set_url value a, true)
  ∧ step "--iterations" (Some value) a = (CLI.set_iterations (parseInt value) a, true)
  ∧ step "--pause-ms" (Some value) a = (CLI.set_pauseMs (parseInt value) a, true)
  ∧ step "--headless" (Some value) a
    = (CLI.set_headless (bool_decide (value ≠ "0") && bool_decide (value ≠ "false")) a, true)
  ∧ step "--screenshot-dir" (Some value) a = (CLI.set_screenshotDir value a, true)
  ∧ step "--actions-file" (Some value) a = (CLI.set_actionsFile value a, true)
  ∧ step "--actions-json" (Some value) a = (CLI.set_actionsJson value a, true)
  ∧ step "--click" (Some value) a
    = (match CLI.parse_click parseFloat value with
       | Some c => CLI.set_click c a
       | None => a
       end, true)
  ∧ step "--click-selector" (Some value) a = (CLI.set_clickSelector value a, true)
  ∧ step "--timeout" (Some value) a = (CLI.set_timeoutMs (parseInt value) a, true).
Proof.
  intros Hvalue%String.eqb_neq. unfold CLI.step, CLI.given.
  cbv beta iota. rewrite Hvalue. split_and!; reflexivity.
Qed.

Lemma step_value_flag flag value a :
  flag ∈ value_flags → value ≠ "" → (step flag (Some value) a).2 = true.
Proof.
  intros Hflag Hvalue. unfold value_flags in Hflag.
  destruct (step_flags value a Hvalue) as (H1 & H2 & H3 & H4 & H5 & H6 & H7 & H8 & H9 & H10).
  repeat (apply elem_of_cons in Hflag as [->|Hflag]);
    try (by apply elem_of_nil in Hflag).
  - by rewrite H1.
  - by rewrite H2.
  - by rewrite H3.
  - by rewrite H4.
  - by rewrite H5.
  - by rewrite H6.
  - by rewrite H7.
  - by rewrite H8.
  - by rewrite H9.
  - by rewrite H10.
Qed.

Lemma loop_option o rest a :
  well_formed_option o → loop (option_tokens o ++ rest) a = loop rest (apply o a).
Proof.
  destruct o as [flag value|]; cbn [well_formed_option option_tokens apply_option app].
  - intros [Hflag Hvalue]. rewrite loop_unfold. cbn [head tail].
    by rewrite step_value_flag.
  - intros _. by rewrite loop_unfold.
Qed.

Lemma loop_options os : ∀ a,
  Forall well_formed_option os →
  loop (os ≫= option_tokens) a = foldl (λ a o, apply o a) a os.
Proof.
  induction os as [|o os IH]; intros a Hwf; [done|].
  apply Forall_cons in Hwf as [Ho Hos].
  change ((o :: os) ≫= option_tokens) with (option_tokens o ++ (os ≫= option_tokens)).
  rewrite loop_option by done. by apply IH.
Qed.

Lemma apply_flags value a :
  value ≠ "" →
  apply (opt "--url" value) a = CLI.set_url value a
  ∧ apply (opt "--iterations" value) a = CLI.set_iterations (parseInt value) a
  ∧ apply (opt "--pause-ms" value) a = CLI.set_pauseMs (parseInt value) a
  ∧ apply (opt "--headless" value) a
    = CLI.set_headless (bool_decide (value ≠ "0") && bool_decide (value ≠ "false")) a
  ∧ apply (opt "--screenshot-dir" value) a = CLI.set_screenshotDir value a
  ∧ apply (opt "--actions-file" value) a = CLI.set_actionsFile value a
  ∧ apply (opt "--actions-json" value) a = CLI.set_actionsJson value a
  ∧ apply (opt "--click" value) a
    = match CLI.parse_click parseFloat value with
      | Some c => CLI.set_click c a
      | None => a
      end
  ∧ apply (opt "--click-selector" value) a = CLI.set_clickSelector value a
  ∧ apply (opt "--timeout" value) a = CLI.set_timeoutMs (parseInt value) a.
Proof.
  intros Hvalue. cbn [apply_option].
  destruct (step_flags value a Hvalue) as (H1 & H2 & H3 & H4 & H5 & H6 & H7 & H8 & H9 & H10).
  by rewrite H1, H2, H3, H4, H5, H6, H7, H8, H9, H10.
Qed.

Ltac flag_cases H :=
  unfold value_flags in H;
  repeat (apply elem_of_cons in H as [->|H]); [..|by apply elem_of_nil in H].

Ltac apply_flag v a :=
  let H1 := fresh in let H2 := fresh in let H3 := fresh in let H4 := fresh in
  let H5 := fresh in let H6 := fresh in let H7 := fresh in let H8 := fresh in
  let H9 := fresh in let H10 := fresh in
  destruct (apply_flags v a ltac:(assumption))
    as (H1 & H2 & H3 & H4 & H5 & H6 & H7 & H8 & H9 & H10);
  first [rewrite H1 | rewrite H2 | rewrite H3 | rewrite H4 | rewrite H5
        | rewrite H6 | rewrite H7 | rewrite H8 | rewrite H9 | rewrite H10];
  clear H1 H2 H3 H4 H5 H6 H7 H8 H9 H10.

Ltac apply_flags_all :=
  repeat match goal with
         | |- context [apply_option _ _ (opt _ ?v) ?b] => apply_flag v b
         end;
  repeat (destruct (CLI.parse_click _ _)).

Lemma apply_commute o1 o2 a :
  well_formed_option o1 → well_formed_option o2 →
  (∀ flag, option_flag o1 = Some flag → option_flag o2 ≠ Some flag) →
  apply o1 (apply o2 a) = apply o2 (apply o1 a).
Proof.
  destruct o1 as [f1 v1|], o2 as [f2 v2|]; cbn [well_formed_option option_flag];
    intros H1 H2 Hne.
  - destruct H1 as [Hf1 Hv1], H2 as [Hf2 Hv2].
    assert (f1 ≠ f2) as Hf by (intros ->; by apply (Hne f2)). clear Hne.
    flag_cases Hf1; flag_cases Hf2; try (by destruct Hf); apply_flags_all; reflexivity.
  - destruct H1 as [Hf1 Hv1].
    flag_cases Hf1; apply_flags_all; reflexivity.
  - destruct H2 as [Hf2 Hv2].
    flag_cases Hf2; apply_flags_all; reflexivity.
  - done.
Qed.

Lemma foldl_apply_permutation os os' :
  os ≡ₚ os' →
  Forall well_formed_option os → NoDup (omap option_flag os) →
  ∀ a, foldl (λ a o, apply o a) a os = foldl (λ a o, apply o a) a os'.
Proof.
  induction 1 as [|o os os' Hperm IH|o1 o2 os|os os' os'' Hperm1 IH1 Hperm2 IH2];
    intros Hwf Hnd a.
  - done.
  - apply Forall_cons in Hwf as [_ Hwf]. cbn [foldl]. apply IH; [done|].
    revert Hnd. cbn [omap list_omap]. destruct (option_flag o); [|done].
    by intros [_ ?]%NoDup_cons.
  - apply Forall_cons in Hwf as [Ho1 [Ho2 _]%Forall_cons]. cbn [foldl]. f_equal.
    apply apply_commute; [done..|].
    intros flag H2 H1. revert Hnd. cbn [omap list_omap]. rewrite H1, H2.
    intros [Hin _]%NoDup_cons. apply Hin. left.
  - rewrite IH1 by done. apply IH2.
    + by rewrite <- Hperm1.
    + by rewrite <- Hperm1.
Qed.

(** X2. The order of the options does not matter: two argument lists made
    of the same well-formed options, no value flag twice, are parsed to the
    same [args]. *)
Theorem options_commute (node script : string) (os os' : list CliOption) :
  Forall well_formed_option os →
  NoDup (omap option_flag os) →
  os ≡ₚ os' →
  parseArgs (node :: script :: (os ≫= option_tokens))
  = parseArgs (node :: script :: (os' ≫= option_tokens)).
Proof.
  intros Hwf Hnd Hperm. unfold CLI.parseArgs.
  change (drop 2 (node :: script :: (os ≫= option_tokens))) with (os ≫= option_tokens).
  change (drop 2 (node :: script :: (os' ≫= option_tokens))) with (os' ≫= option_tokens).
  rewrite !loop_options; [|by rewrite <- Hperm|done].
  by rewrite (foldl_apply_permutation os os').
Qed.

Lemma apply_same_flag flag v1 v2 a :
  flag ∈ value_flags → v1 ≠ "" → v2 ≠ "" →
  flag ≠ "--click" ∨ is_Some (CLI.parse_click parseFloat v2) →
  apply (opt flag v2) (apply (opt flag v1) a) = apply (opt flag v2) a.
Proof.
  intros Hflag Hv1 Hv2 Hok. flag_cases Hflag; try (apply_flags_all; reflexivity).
  destruct Hok as [?|[c Hc]]; [done|].
  repeat match goal with
         | |- context [apply_option _ _ (opt _ ?v) ?b] => apply_flag v b
         end.
  rewrite Hc. by destruct (CLI.parse_click _ v1).
Qed.

Lemma apply_bad_click v a :
  v ≠ "" → CLI.parse_click parseFloat v = None → apply (opt "--click" v) a = a.
Proof.
  intros Hv Hbad.
  repeat match goal with
         | |- context [apply_option _ _ (opt _ ?v) ?b] => apply_flag v b
         end.
  by rewrite Hbad.
Qed.

(** An option set earlier either still shows after later options were
    applied, as if it had been given after them, or was overwritten. *)
Lemma foldl_apply_after flag v os : ∀ a,
  flag ∈ value_flags → v ≠ "" →
  Forall well_formed_option os →
  foldl (λ a o, apply o a) (apply (opt flag v) a) os
  = apply (opt flag v) (foldl (λ a o, apply o a) a os)
  ∨ foldl (λ a o, apply o a) (apply (opt flag v) a) os = foldl (λ a o, apply o a) a os.
Proof.
  induction os as [|o os IH]; intros a Hflag Hv Hwf; [by left|].
  apply Forall_cons in Hwf as [Ho Hos]. cbn [foldl].
  destruct (decide (option_flag o = Some flag)) as [Hsame|Hother].
  - destruct o as [flag' v'|]; [|done]. cbn [option_flag] in Hsame. simplify_eq.
    destruct Ho as [_ Hv'].
    destruct (decide (flag = "--click" ∧ CLI.parse_click parseFloat v' = None))
      as [[-> Hbad]|Hok].
    + rewrite !(apply_bad_click v') by done. by apply IH.
    + right. rewrite apply_same_flag; [done..|].
      destruct (decide (flag = "--click")) as [->|]; [|by left].
      right. destruct (CLI.parse_click parseFloat v') eqn:Hc; [done|]. by destruct Hok.
  - rewrite (apply_commute o (opt flag v)); [by apply IH|done|done|].
    intros flag' Hflag' [= ->]. done.
Qed.

(** X3. A flag given more than once takes its last value, wherever its
    occurrences stand among the other options: an occurrence followed,
    anywhere later in the argument list, by the same flag with a value that
    takes effect could as well be left out. Every value takes effect but
    that of a [--click] that is not two finite numbers: such an occurrence
    could itself be left out, so an earlier [--click] stays in place. *)
Theorem repeated_flag_last_wins (node script flag v1 v2 : string)
    (before between after : list CliOption) :
  Forall well_formed_option (before ++ opt flag v1 :: between ++ opt flag v2 :: after) →
  (flag ≠ "--click" ∨ is_Some (CLI.parse_click parseFloat v2) →
   parseArgs (node :: script
              :: ((before ++ opt flag v1 :: between ++ opt flag v2 :: after) ≫= option_tokens))
   = parseArgs (node :: script
                :: ((before ++ between ++ opt flag v2 :: after) ≫= option_tokens)))
  ∧ (flag = "--click" → CLI.parse_click parseFloat v2 = None →
     parseArgs (node :: script
                :: ((before ++ opt flag v1 :: between ++ opt flag v2 :: after) ≫= option_tokens))
     = parseArgs (node :: script
                  :: ((before ++ opt flag v1 :: between ++ after) ≫= option_tokens))).
Proof.
  intros Hwf.
  apply Forall_app in Hwf as [Hbefore Hwf].
  apply Forall_cons in Hwf as [[Hflag Hv1] Hwf].
  apply Forall_app in Hwf as [Hbetween Hwf].
  apply Forall_cons in Hwf as [[_ Hv2] Hafter].
  unfold CLI.parseArgs. cbn [drop]. rewrite !drop_0. split.
  - intros Hok.
    rewrite !loop_options
      by (repeat first [done | apply Forall_app_2 | apply Forall_cons_2]).
    rewrite !foldl_app. cbn [foldl]. rewrite !foldl_app. cbn [foldl].
    destruct (foldl_apply_after flag v1 between
                (foldl (λ a o, apply o a) CLI.defaults before)) as [->| ->]; [done..| |done].
    by rewrite apply_same_flag.
  - intros -> Hbad.
    rewrite !loop_options
      by (repeat first [done | apply Forall_app_2 | apply Forall_cons_2]).
    rewrite !foldl_app. cbn [foldl]. rewrite !foldl_app. cbn [foldl].
    by rewrite apply_bad_click.
Qed.

Lemma loop_preserves_adjacent (I : CLI.t → Prop) (n : nat) : ∀ pre tokens a,
  length tokens ≤ n →
  (∀ l1 arg l2 a, pre ++ tokens = l1 ++ arg :: l2 → I a → I (step arg (head l2) a).1) →
  I a → I (loop tokens a).
Proof.
  induction n as [|n IH]; intros pre tokens a Hlen Hstep Ha.
  - by destruct tokens; [|simpl in Hlen; lia].
  - destruct tokens as [|arg rest]; [done|]. rewrite loop_unfold.
    assert (I (step arg (head rest) a).1) as Ha' by (by apply (Hstep pre arg rest)).
    simpl in Hlen.
    destruct (step arg (head rest) a).2.
    + destruct rest as [|x rest]; [done|]. cbn [tail].
      apply (IH (pre ++ [arg; x])); [simpl in *; lia| |done].
      intros l1 arg' l2 a' Heq. apply (Hstep l1 arg' l2). by rewrite <- Heq, <- app_assoc.
    + apply (IH (pre ++ [arg])); [lia| |done].
      intros l1 arg' l2 a' Heq. apply (Hstep l1 arg' l2). by rewrite <- Heq, <- app_assoc.
Qed.

Lemma step_keeps_actions arg next a :
  arg ≠ "--actions-file" → arg ≠ "--actions-json" →
  (arg = "--click" → ∀ v, next = Some v → CLI.parse_click parseFloat v = None) →
  CLI.actionsFile (step arg next a).1 = CLI.actionsFile a
  ∧ CLI.actionsJson (step arg next a).1 = CLI.actionsJson a
  ∧ CLI.click (step arg next a).1 = CLI.click a.
Proof.
  intros Hfile Hjson Hclick.
  destruct (step_cases arg next a) as [(v & Hnext & _ & _ & Hc)|[[_ ->]| ->]]; [|done..].
  destruct_or!; destruct Hc as [-> ->]; try done.
  by rewrite (Hclick eq_refl v Hnext).
Qed.

(** X4. Without [--actions-file] and [--actions-json], and with no
    [--click] whose value is two finite numbers, the actions are the one
    built-in step: the space bar held for four frames. *)
Theorem default_action_is_space (argv : list string) (a : CLI.t) :
  "--actions-file" ∉ drop 2 argv →
  "--actions-json" ∉ drop 2 argv →
  (∀ l1 v l2, drop 2 argv = l1 ++ "--click" :: v :: l2 →
              CLI.parse_click parseFloat v = None) →
  parseArgs argv = Some a →
  loadActions a = Some [mkStep (Some ["space"]) (Some 4%Z) None None None]
  ∧ ∀ page canvas,
      (runActions page canvas [mkStep (Some ["space"]) (Some 4%Z) None None None] []).2
      = [keyboard_down "Space"] ++ replicate 4 (frame_request page) ++ [keyboard_up "Space"].
Proof.
  intros Hfile Hjson Hclick Hparse. split; [|done].
  unfold CLI.parseArgs in Hparse.
  assert (CLI.actionsFile (loop (drop 2 argv) CLI.defaults) = None
          ∧ CLI.actionsJson (loop (drop 2 argv) CLI.defaults) = None
          ∧ CLI.click (loop (drop 2 argv) CLI.defaults) = None) as (Hf & Hj & Hc).
  { apply (loop_preserves_adjacent
             (λ a, CLI.actionsFile a = None ∧ CLI.actionsJson a = None ∧ CLI.click a = None)
             (length (drop 2 argv)) []); [done| |done].
    intros l1 arg l2 a' Heq (Hf & Hj & Hc). cbn [app] in Heq.
    destruct (step_keeps_actions arg (head l2) a') as (-> & -> & ->); [..|done].
    - intros ->. apply Hfile. rewrite Heq. apply elem_of_app. right. left.
    - intros ->. apply Hjson. rewrite Heq. apply elem_of_app. right. left.
    - intros -> v Hv. destruct l2 as [|x l2]; [done|]. injection Hv as ->.
      by apply (Hclick l1 v l2). }
  destruct (CLI.url (loop (drop 2 argv) CLI.defaults)) as [u|]; [|done].
  destruct (decide (u = "")); [done|]. injection Hparse as <-.
  unfold CLI.loadActions. by rewrite Hf, Hj, Hc.
Qed.

(** X5. A count of iterations that is not a number, zero or negative runs
    no iteration: the run sends no input but the click on the element of
    [--click-selector], when one is given, writes at most the boot error
    file and, whatever the page reports, exits with status 0 with the
    browser closed, unless [main] is left before the loop or
    [browser.close()] rejects: then it exits with status 1. *)
Theorem no_iterations_pass (rejections : Rejections) (argv : list string) (w : World)
    (a : CLI.t) (steps : list Step) :
  parseArgs argv = Some a →
  loadActions a = Some steps →
  CLI.iterations a = None ∨ (∃ n, CLI.iterations a = Some n ∧ (n ≤ 0)%Z) →
  ∃ o, CLI.run_rejecting parseInt parseFloat readFileSync JSON_parse rejections argv w
       = CLI.finished o
       ∧ exit_code o = (if boot_abandoned rejections w || at_close rejections then 1 else 0)%Z
       ∧ browser_closed o = negb (boot_abandoned rejections w || at_close rejections)
       ∧ input o = match at_boot rejections, CLI.clickSelector a with
                   | Some rejected_before_click, _ => []
                   | _, Some selector =>
                       if decide (selector = "") then [] else [page_click selector]
                   | _, None => []
                   end
       ∧ ∀ f, f ∈ artifacts o → f = errors_boot.
Proof.
  intros Hparse Hload Hcount. unfold CLI.run_rejecting. rewrite Hparse, Hload.
  eexists. split; [done|].
  assert (Z.to_nat (iterations (CLI.loop_args a)) = 0) as Hzero.
  { unfold CLI.loop_args. cbn [iterations].
    destruct Hcount as [->|(n & -> & Hn)]; [done|]. simpl. lia. }
  destruct (boot_abandoned rejections w) eqn:Hboot.
  - rewrite main_run_boot_abandoned by done.
    cbn [exit_code browser_closed input artifacts files orb negb fmap list_fmap].
    split_and!; [done|done| |by intros f ?%elem_of_nil].
    unfold click_request, CLI.loop_args. cbn [clickSelector].
    by destruct (at_boot rejections) as [[]|], (CLI.clickSelector a).
  - rewrite main_run_loop by done. rewrite Hzero. cbn [iteration_loop].
    cbn [exit_code browser_closed input artifacts files orb boot_run written requests
         hadErrors].
    split_and!.
    + by destruct (at_close rejections).
    + done.
    + unfold click_request, CLI.loop_args. cbn [clickSelector].
      unfold boot_abandoned in Hboot.
      by destruct (at_boot rejections) as [[]|], (CLI.clickSelector a).
    + destruct (boot_batch w); cbn [fmap list_fmap fst]; intros f Hf.
      * by apply elem_of_nil in Hf.
      * by apply list_elem_of_singleton in Hf.
Qed.
(** ** Where the choreography comes from *)

Lemma foldl_apply_member (os : list CliOption) (o : CliOption) (a : CLI.t) :
  Forall well_formed_option os → NoDup (omap option_flag os) → o ∈ os →
  ∃ os', foldl (λ a o, apply_option parseInt parseFloat o a) a os
         = apply_option parseInt parseFloat o
             (foldl (λ a o, apply_option parseInt parseFloat o a) a os').
Proof.
  intros Hwf Hnd Hin. apply elem_of_Permutation in Hin as [os' Hperm].
  exists os'. rewrite (foldl_apply_permutation os (os' ++ [o])); [|..|done|done].
  - by rewrite foldl_app.
  - by rewrite Hperm, Permutation_cons_append.
Qed.

Lemma foldl_keeps_actionsFile (os : list CliOption) : ∀ a,
  Forall well_formed_option os →
  (∀ v, opt "--actions-file" v ∉ os) →
  CLI.actionsFile (foldl (λ a o, apply_option parseInt parseFloat o a) a os)
  = CLI.actionsFile a.
Proof.
  induction os as [|o os IH]; intros a Hwf Hno; [done|].
  apply Forall_cons in Hwf as [Ho Hwf]. cbn [foldl]. rewrite IH; [|done|].
  - destruct o as [flag value|]; [|done]. destruct Ho as [Hflag Hvalue].
    assert (flag ≠ "--actions-file") as Hne.
    { intros ->. apply (Hno value). left. }
    flag_cases Hflag; try done; apply_flags_all; done.
  - intros v Hv. apply (Hno v). by right.
Qed.

(** X23. An actions file wins over every other source of steps, and a bad
    one stops the run: with [--url] and [--actions-file] among options
    given once each, the steps are those parsed from the file whatever
    [--actions-json] and [--click] say, and when the file cannot be read or
    parsed the process fails before a browser is launched. Without
    [--actions-file], [--actions-json] wins over [--click] in the same
    way. *)
Theorem actions_file_takes_precedence (node script : string) (os : list CliOption)
    (u : string) (w : World) :
  Forall well_formed_option os →
  NoDup (omap option_flag os) →
  opt "--url" u ∈ os →
  let argv := node :: script :: (os ≫= option_tokens) in
  ∃ a, CLI.parseArgs parseInt parseFloat argv = Some a
       ∧ (∀ path, opt "--actions-file" path ∈ os →
            CLI.loadActions readFileSync JSON_parse a
            = CLI.steps_of <$> (readFileSync path ≫= JSON_parse)
            ∧ (readFileSync path ≫= JSON_parse = None →
               CLI.run parseInt parseFloat readFileSync JSON_parse argv w = CLI.load_failed))
       ∧ (∀ json, (∀ path, opt "--actions-file" path ∉ os) →
            opt "--actions-json" json ∈ os →
            CLI.loadActions readFileSync JSON_parse a = CLI.steps_of <$> JSON_parse json
            ∧ (JSON_parse json = None →
               CLI.run parseInt parseFloat readFileSync JSON_parse argv w = CLI.load_failed)).
Proof.
  intros Hwf Hnd Hurl argv.
  set (a := foldl (λ a o, apply_option parseInt parseFloat o a) CLI.defaults os).
  assert (∀ flag value, opt flag value ∈ os → value ≠ "") as Hvalue.
  { intros flag value Hin. rewrite Forall_forall in Hwf. by destruct (Hwf _ Hin). }
  assert (CLI.parseArgs parseInt parseFloat argv = Some a) as Hparse.
  { unfold CLI.parseArgs, argv.
    change (drop 2 (node :: script :: os ≫= option_tokens)) with (os ≫= option_tokens).
    rewrite loop_options by done. fold a.
    destruct (foldl_apply_member os (opt "--url" u) CLI.defaults Hwf Hnd Hurl) as [os' Heq].
    pose proof (Hvalue _ _ Hurl) as Hu.
    destruct (apply_flags u
                (foldl (λ a o, apply_option parseInt parseFloat o a) CLI.defaults os') Hu)
      as (Hset & _).
    unfold a. rewrite Heq, Hset. cbn. by rewrite decide_False. }
  exists a. split; [done|]. split.
  - intros path Hfile. pose proof (Hvalue _ _ Hfile) as Hpath.
    destruct (foldl_apply_member os (opt "--actions-file" path) CLI.defaults Hwf Hnd Hfile)
      as [os' Heq].
    destruct (apply_flags path
                (foldl (λ a o, apply_option parseInt parseFloat o a) CLI.defaults os') Hpath)
      as (_ & _ & _ & _ & _ & Hset & _).
    assert (CLI.loadActions readFileSync JSON_parse a
            = CLI.steps_of <$> (readFileSync path ≫= JSON_parse)) as Hload.
    { unfold CLI.loadActions, a. rewrite Heq, Hset. cbn. rewrite decide_False by done.
      destruct (readFileSync path) as [raw|]; [|done]. cbn. by destruct (JSON_parse raw). }
    split; [done|]. intros Hbad. unfold CLI.run, CLI.run_rejecting. by rewrite Hparse, Hload, Hbad.
  - intros json Hnofile Hjson. pose proof (Hvalue _ _ Hjson) as Hj.
    destruct (foldl_apply_member os (opt "--actions-json" json) CLI.defaults Hwf Hnd Hjson)
      as [os' Heq].
    destruct (apply_flags json
                (foldl (λ a o, apply_option parseInt parseFloat o a) CLI.defaults os') Hj)
      as (_ & _ & _ & _ & _ & _ & Hset & _).
    assert (CLI.actionsFile a = None) as Hfile.
    { unfold a. by rewrite foldl_keeps_actionsFile. }
    assert (CLI.loadActions readFileSync JSON_parse a = CLI.steps_of <$> JSON_parse json)
      as Hload.
    { unfold CLI.loadActions. rewrite Hfile. cbn. unfold a. rewrite Heq, Hset. cbn.
      rewrite decide_False by done. by destruct (JSON_parse json). }
    split; [done|]. intros Hbad. unfold CLI.run, CLI.run_rejecting. by rewrite Hparse, Hload, Hbad.
Qed.
End cli_facts.

Lemma usage_error_iff_no_url_witness :
  CLI.run sample_parseInt sample_parseFloat no_file no_json
    ["node"; "iterate-client.js"; "--iterations"; "2"] boot_error_world
  = CLI.usage_error
  ∧ CLI.run sample_parseInt sample_parseFloat no_file no_json
      ["node"; "iterate-client.js"; "--url"; "http://localhost:3000"] boot_error_world
    ≠ CLI.usage_error.
Proof.
  split.
  - apply (proj1 (usage_error_iff_no_url sample_parseInt sample_parseFloat no_file no_json
                    ["node"; "iterate-client.js"; "--iterations"; "2"] boot_error_world)).
    cbn [drop]. intros H. repeat (apply elem_of_cons in H as [H|H]; [discriminate H|]).
    by apply elem_of_nil in H.
  - apply (proj1 (proj2 (usage_error_iff_no_url sample_parseInt sample_parseFloat
                           no_file no_json
                           ["node"; "iterate-client.js"; "--url"; "http://localhost:3000"]
                           boot_error_world))
             "node" "iterate-client.js" "http://localhost:3000" []); [reflexivity|discriminate].
Defined.

Lemma options_commute_witness :
  CLI.parseArgs sample_parseInt sample_parseFloat
    ["node"; "iterate-client.js"; "--url"; "http://localhost:3000"; "--no-wait";
     "--iterations"; "5"]
  = CLI.parseArgs sample_parseInt sample_parseFloat
      ["node"; "iterate-client.js"; "--iterations"; "5"; "--url"; "http://localhost:3000";
       "--no-wait"].
Proof.
  apply (options_commute sample_parseInt sample_parseFloat "node" "iterate-client.js"
           [opt "--url" "http://localhost:3000"; opt_no_wait; opt "--iterations" "5"]
           [opt "--iterations" "5"; opt "--url" "http://localhost:3000"; opt_no_wait]).
  - repeat apply Forall_cons_2; try apply Forall_nil_2; cbn [well_formed_option];
      try done; (split; [|discriminate]); unfold value_flags.
    + left.
    + right. left.
  - cbn. apply NoDup_cons. split; [|apply NoDup_singleton].
    intros H. apply list_elem_of_singleton in H. discriminate H.
  - apply (Permutation_app_comm [_; _] [_]).
Defined.

Lemma repeated_flag_last_wins_witness :
  CLI.parseArgs sample_parseInt sample_parseFloat
    ["node"; "iterate-client.js"; "--url"; "http://localhost:3000"; "--iterations"; "5";
     "--no-wait"; "--click"; "480,270"; "--iterations"; "2"; "--pause-ms"; "100"]
  = CLI.parseArgs sample_parseInt sample_parseFloat
      ["node"; "iterate-client.js"; "--url"; "http://localhost:3000";
       "--no-wait"; "--click"; "480,270"; "--iterations"; "2"; "--pause-ms"; "100"]
  ∧ CLI.parseArgs sample_parseInt sample_parseFloat
      ["node"; "iterate-client.js"; "--click"; "480,270"; "--url"; "http://localhost:3000";
       "--click"; "oops"; "--no-wait"]
    = CLI.parseArgs sample_parseInt sample_parseFloat
        ["node"; "iterate-client.js"; "--click"; "480,270"; "--url"; "http://localhost:3000";
         "--no-wait"].
Proof.
  split.
  - apply (proj1 (repeated_flag_last_wins sample_parseInt sample_parseFloat
                    "node" "iterate-client.js" "--iterations" "5" "2"
                    [opt "--url" "http://localhost:3000"]
                    [opt_no_wait; opt "--click" "480,270"]
                    [opt "--pause-ms" "100"]
                    ltac:(repeat first [apply Forall_nil_2 | apply Forall_cons_2];
                          first [exact I
                                | split; [unfold value_flags; repeat first [left | right]
                                         |discriminate]]))).
    left. discriminate.
  - apply (proj2 (repeated_flag_last_wins sample_parseInt sample_parseFloat
                    "node" "iterate-client.js" "--click" "480,270" "oops"
                    []
                    [opt "--url" "http://localhost:3000"]
                    [opt_no_wait]
                    ltac:(repeat first [apply Forall_nil_2 | apply Forall_cons_2];
                          first [exact I
                                | split; [unfold value_flags; repeat first [left | right]
                                         |discriminate]]))); reflexivity.
Defined.

Lemma default_action_is_space_witness :
  CLI.loadActions no_file no_json
    (CLI.set_url "http://localhost:3000" CLI.defaults)
  = Some [mkStep (Some ["space"]) (Some 4%Z) None None None].
Proof.
  refine (proj1 (default_action_is_space sample_parseInt sample_parseFloat no_file no_json
                   ["node"; "iterate-client.js"; "--url"; "http://localhost:3000";
                    "--click"; "oops"]
                   (CLI.set_url "http://localhost:3000" CLI.defaults) _ _ _ _)).
  - cbn [drop]. intros H. repeat (apply elem_of_cons in H as [H|H]; [discriminate H|]).
    by apply elem_of_nil in H.
  - cbn [drop]. intros H. repeat (apply elem_of_cons in H as [H|H]; [discriminate H|]).
    by apply elem_of_nil in H.
  - cbn [drop]. intros l1 v l2 H.
    destruct l1 as [|x1 [|x2 [|x3 [|x4 l1]]]]; try discriminate H.
    + cbn [app] in H. simplify_eq. vm_compute. reflexivity.
    + cbn [app] in H. simplify_eq. by destruct l1.
  - reflexivity.
Defined.

Lemma no_iterations_pass_witness :
  (∃ o, CLI.run_rejecting sample_parseInt sample_parseFloat no_file no_json all_resolve
          ["node"; "iterate-client.js"; "--url"; "http://localhost:3000";
           "--click-selector"; "#start"; "--iterations"; "many"] late_error_world
        = CLI.finished o
        ∧ exit_code o = 0%Z
        ∧ input o = [page_click "#start"])
  ∧ (∃ o, CLI.run_rejecting sample_parseInt sample_parseFloat no_file no_json
            (mkRejections (Some rejected_before_click) (λ _, None) false)
            ["node"; "iterate-client.js"; "--url"; "http://localhost:3000";
             "--click-selector"; "#start"; "--iterations"; "0"] late_error_world
          = CLI.finished o
          ∧ exit_code o = 1%Z
          ∧ browser_closed o = false).
Proof.
  split.
  - destruct (no_iterations_pass sample_parseInt sample_parseFloat no_file no_json
                all_resolve
                ["node"; "iterate-client.js"; "--url"; "http://localhost:3000";
                 "--click-selector"; "#start"; "--iterations"; "many"] late_error_world
                (CLI.set_iterations None
                   (CLI.set_clickSelector "#start"
                      (CLI.set_url "http://localhost:3000" CLI.defaults)))
                [mkStep (Some ["space"]) (Some 4%Z) None None None])
      as (o & Hrun & Hexit & _ & Hinput & _); [reflexivity|reflexivity|by left|].
    exists o. split; [exact Hrun|]. split; [exact Hexit|exact Hinput].
  - destruct (no_iterations_pass sample_parseInt sample_parseFloat no_file no_json
                (mkRejections (Some rejected_before_click) (λ _, None) false)
                ["node"; "iterate-client.js"; "--url"; "http://localhost:3000";
                 "--click-selector"; "#start"; "--iterations"; "0"] late_error_world
                (CLI.set_iterations (Some 0%Z)
                   (CLI.set_clickSelector "#start"
                      (CLI.set_url "http://localhost:3000" CLI.defaults)))
                [mkStep (Some ["space"]) (Some 4%Z) None None None])
      as (o & Hrun & Hexit & Hclosed & _); [reflexivity|reflexivity|right; by exists 0%Z|].
    exists o. split; [exact Hrun|]. split; [exact Hexit|exact Hclosed].
Defined.

Lemma actions_file_takes_precedence_witness :
  CLI.run sample_parseInt sample_parseFloat no_file no_json
    ["node"; "iterate-client.js"; "--url"; "http://localhost:3000";
     "--actions-file"; "steps.json"; "--click"; "10,10"] boot_error_world
  = CLI.load_failed.
Proof.
  destruct (actions_file_takes_precedence sample_parseInt sample_parseFloat no_file no_json
              "node" "iterate-client.js"
              [opt "--url" "http://localhost:3000"; opt "--actions-file" "steps.json";
               opt "--click" "10,10"]
              "http://localhost:3000" boot_error_world) as (a & _ & Hfile & _).
  - repeat apply Forall_cons_2; try apply Forall_nil_2; (split; [|discriminate]);
      unfold value_flags.
    + left.
    + do 5 right. left.
    + do 7 right. left.
  - cbn. repeat (apply NoDup_cons; split; [intros H; repeat (apply elem_of_cons in H as [H|H];
      [discriminate H|]); by apply elem_of_nil in H|]). constructor.
  - left.
  - destruct (Hfile "steps.json") as [_ Hfail]; [right; left|]. by apply Hfail.
Defined.

(** ** Choreographies of several steps *)

Lemma all_released_app (a b : list InputEvent) :
  all_released a → all_released b → all_released (a ++ b).
Proof.
  intros Ha Hb l1 e l2 h Heq He.
  apply app_eq_inv in Heq as [(k & -> & Heq)|(k & -> & ->)].
  - destruct k as [|e' k]; cbn [app] in Heq.
    + by apply (Hb [] e l2).
    + injection Heq as <- ->. rewrite released_app. apply elem_of_app. left.
      by apply (Ha l1 e k).
  - by apply (Hb k e l2).
Qed.

Lemma all_released_step (page : Page) (canvas : option CanvasHandle) (step : Step) :
  all_released (step_events page canvas step).
Proof.
  destruct (step_events_shape page canvas step)
    as (P & R & W & -> & HP & HR & HW & Hpressed & Hreleased & _).
  set (F := replicate _ _).
  assert (∀ e h, e ∈ F ++ R ++ W → pressed_of e = Some h → False) as Hrest.
  { intros e h [He|[He|He]%elem_of_app]%elem_of_app Hh.
    - apply elem_of_replicate in He as [-> _]. discriminate Hh.
    - rewrite Forall_forall in HR. specialize (HR e He). by destruct e.
    - rewrite Forall_forall in HW. specialize (HW e He). by destruct e. }
  intros l1 e l2 h Heq He.
  apply app_eq_inv in Heq as [(k & -> & Heq)|(k & -> & Heq)].
  - destruct k as [|e' k]; cbn [app] in Heq.
    + exfalso. apply (Hrest e h); [|done]. rewrite <- Heq. left.
    + injection Heq as <- ->. rewrite !released_app.
      apply elem_of_app. right. apply elem_of_app. right. apply elem_of_app. left.
      rewrite Hreleased.
      assert (h ∈ pressed (l1 ++ e :: k)) as Hin.
      { rewrite pressed_app. apply elem_of_app. right. unfold pressed. cbn. rewrite He. left. }
      rewrite Hpressed in Hin. apply list_elem_of_fmap in Hin as (b & -> & Hb).
      apply list_elem_of_filter in Hb as [_ Hb]. apply list_elem_of_fmap. by exists b.
  - exfalso. apply (Hrest e h); [|done]. rewrite Heq. apply elem_of_app. right. left.
Qed.

(** X10. A choreography leaves nothing held: in the requests of
    [runActions] over any list of steps, every key-down and mouse-down is
    followed later by the key-up or mouse-up of the same key or button. The
    requests of the whole list are those of its steps, one step after the
    other. *)
Theorem nothing_left_held (page : Page) (canvas : option CanvasHandle) (steps : list Step)
    (log : list InputEvent) :
  let log' := (runActions page canvas steps log).2 in
  log' = log ++ (steps ≫= step_events page canvas)
  ∧ (all_released log → all_released log')
  ∧ ∀ l1 e l2 h, steps ≫= step_events page canvas = l1 ++ e :: l2 →
                 pressed_of e = Some h → h ∈ released l2.
Proof.
  intros log'. unfold log'. rewrite runActions_steps. cbn [snd].
  assert (all_released (steps ≫= step_events page canvas)) as Hall.
  { induction steps as [|step steps IH]; cbn [mbind list_bind].
    - intros l1 e l2 h Heq. by destruct l1.
    - apply all_released_app; [apply all_released_step|apply IH]. }
  split; [done|]. split; [|exact Hall].
  intros Hlog. by apply all_released_app.
Qed.



(** ** Which screenshot is written *)

Lemma after_comma_split (data payload : string) :
  after_comma data = Some payload ↔
  ∃ head, after_comma head = None ∧ data = head +:+ String "," payload.
Proof.
  split.
  - revert payload. induction data as [|c data IH]; intros payload H; [done|].
    cbn [after_comma] in H. destruct (decide (c = ","%char)) as [->|Hc].
    + injection H as ->. by exists "".
    + destruct (IH payload H) as (head & Hhead & ->). exists (String c head). split; [|done].
      cbn [after_comma]. by rewrite decide_False.
  - intros (head & Hhead & ->). induction head as [|c head IH].
    + change (after_comma (String "," payload) = Some payload).
      cbn [after_comma]. by rewrite decide_True.
    + cbn [after_comma] in Hhead. change (String c head +:+ String "," payload)
        with (String c (head +:+ String "," payload)). cbn [after_comma].
      destruct (decide (c = ","%char)); [done|]. by apply IH.
Qed.

Lemma alpha_nonzero_bounded (n : nat) : ∀ data : list N,
  length data ≤ n →
  alpha_all_zero data = false →
  ∃ k a, data !! (4 * k + 3) = Some a ∧ a ≠ 0%N.
Proof.
  induction n as [|n IH]; intros data Hlen Hfalse.
  - destruct data; [discriminate Hfalse|simpl in Hlen; lia].
  - destruct data as [|r [|g [|b [|a rest]]]]; try discriminate Hfalse.
    cbn [alpha_all_zero] in Hfalse. destruct (N.eqb_spec a 0) as [->|Ha].
    + destruct (IH rest) as (k & a & Hk & Ha); [simpl in Hlen; lia|done|].
      exists (S k), a. split; [|done].
      by replace (4 * S k + 3) with (S (S (S (S (4 * k + 3))))) by lia.
    + by exists 0, a.
Qed.

Lemma isCanvasTransparent_false (canvas : CanvasHandle) :
  isCanvasTransparent (Some canvas) = false ↔
  probe_w (element canvas) ≠ 0%N
  ∧ probe_h (element canvas) ≠ 0%N
  ∧ (probe canvas = ProbeThrows
     ∨ ∃ data k a, probe canvas = ImageData data
                   ∧ data (probe_size (element canvas)) !! (4 * k + 3) = Some a
                   ∧ a ≠ 0%N).
Proof.
  unfold isCanvasTransparent.
  destruct (probe_w (element canvas) =? 0)%N eqn:Hw; cbn [orb].
  { apply N.eqb_eq in Hw. split; [done|]. by intros [? _]. }
  destruct (probe_h (element canvas) =? 0)%N eqn:Hh; cbn [orb].
  { apply N.eqb_eq in Hh. split; [done|]. by intros (_ & ? & _). }
  apply N.eqb_neq in Hw, Hh. destruct (probe canvas) as [| |data] eqn:Hprobe.
  - split; [done|]. by intros (_ & _ & [?|(? & ? & ? & ? & _)]).
  - split; [|done]. intros _. split_and!; [done..|by left].
  - split.
    + intros Hfalse. split_and!; [done..|]. right.
      destruct (alpha_nonzero_bounded _ _ (le_n _) Hfalse) as (k & a & Hk & Ha).
      by exists data, k, a.
    + intros (_ & _ & [?|(data' & k & a & [= <-] & Hk & Ha)]); [done|].
      destruct (alpha_all_zero (data (probe_size (element canvas)))) eqn:Hall; [|done].
      rewrite alpha_all_zero_spec in Hall. by destruct (Ha (Hall k a Hk)).
Qed.

(** X12. The canvas's own pixel export is what gets written exactly when
    [toDataURL] returns a string with a non-empty part after its first
    comma and the transparency probe does not report the canvas as blank;
    the file then holds exactly that part, decoded, and neither the element
    screenshot nor the page screenshot is used. Without a canvas the whole
    page is captured. *)
Theorem direct_export_used_iff (page : Page) (canvas : CanvasHandle) (payload : string) :
  (strategy1 (Some canvas) = Some (Buffer_from payload) ↔
   payload ≠ ""
   ∧ (∃ head, after_comma head = None
              ∧ toDataURL canvas = ToDataURLReturns (head +:+ String "," payload))
   ∧ isCanvasTransparent (Some canvas) = false)
  ∧ (∀ buf, strategy1 (Some canvas) = Some buf →
            captureScreenshot page (Some canvas) = Written buf)
  ∧ captureScreenshot page None = Written (page_screenshot page None).
Proof.
  split_and!; [|by intros buf Hbuf; unfold captureScreenshot; rewrite Hbuf|done].
  unfold strategy1, captureCanvasPngBase64.
  generalize (isCanvasTransparent (Some canvas)). intros blank. split.
  - destruct (toDataURL canvas) as [| |data]; try (by rewrite decide_True).
    destruct (after_comma data) as [p|] eqn:Hdata; [|by rewrite decide_True].
    destruct (decide (p = "")) as [|Hp]; [done|].
    destruct blank; [done|]. intros [= ->].
    split_and!; [done| |done]. apply after_comma_split in Hdata as (head & Hhead & ->).
    by exists head.
  - intros (Hp & (head & Hhead & ->) & ->).
    rewrite (proj2 (after_comma_split (head +:+ String "," payload) payload))
      by by exists head.
    by rewrite decide_False.
Qed.

(** X13. The transparency probe looks at alpha only: a canvas is reported
    as not blank exactly when it has a size and either probing throws or
    some byte at an index 4k+3 of the probe's image data (an alpha value)
    is not zero; colour bytes never matter. The probe is a square of side
    between 1 and 16, no larger than the canvas. A missing canvas, a canvas
    without size and a probe without 2d context all count as blank. *)
Theorem transparency_probe_alpha_only (canvas : CanvasHandle) :
  (isCanvasTransparent (Some canvas) = false ↔
   probe_w (element canvas) ≠ 0%N
   ∧ probe_h (element canvas) ≠ 0%N
   ∧ (probe canvas = ProbeThrows
      ∨ ∃ data k a, probe canvas = ImageData data
                    ∧ data (probe_size (element canvas)) !! (4 * k + 3) = Some a
                    ∧ a ≠ 0%N))
  ∧ (1 ≤ probe_size (element canvas) ≤ 16)%N
  ∧ (probe_w (element canvas) ≠ 0%N → probe_h (element canvas) ≠ 0%N →
     probe_size (element canvas)
     = N.min 16 (N.min (probe_w (element canvas)) (probe_h (element canvas))))
  ∧ isCanvasTransparent None = true
  ∧ (probe canvas = NoContext → isCanvasTransparent (Some canvas) = true).
Proof.
  split_and!.
  - apply isCanvasTransparent_false.
  - unfold probe_size. lia.
  - unfold probe_size. lia.
  - unfold probe_size. lia.
  - done.
  - intros Hprobe. unfold isCanvasTransparent. rewrite Hprobe.
    by destruct (_ || _).
Qed.

(** ** Reading the pending count *)

(** X14. A count of zero means the page is idle as far as the shim can
    tell: in any window the page can reach by calling the wrapped
    functions, when [__drainVirtualTimePending()] returns 0 no timer set
    through the wrapped [setTimeout] or [setInterval] is live and every
    outstanding frame request is the polling of the shim's own
    [advanceTime]. That polling is never counted: calling the shim's
    [advanceTime] and running its [step] leave the count as it is. A page
    that assigns its own [window.advanceTime] replaces the shim's; the
    frames such a function requests through [requestAnimationFrame] are
    counted like any other, one for each call. *)
Theorem zero_count_means_idle (w : Window) :
  reachable_window w →
  (shim_drainVirtualTimePending w = 0 →
   timers w = ∅ ∧ ∀ id cb, frame_requests w !! id = Some cb → cb = advance_step)
  ∧ shim_drainVirtualTimePending (shim_step advanceTime w).2 = shim_drainVirtualTimePending w
  ∧ (∀ id elapsed, frame_requests w !! id = Some advance_step →
       shim_drainVirtualTimePending (shim_step (fire_frame id elapsed) w).2
       = shim_drainVirtualTimePending w)
  ∧ shim_drainVirtualTimePending (shim_step requestAnimationFrame w).2
    = S (shim_drainVirtualTimePending w).
Proof.
  intros Hreach.
  apply reachable_window_inv in Hreach as (Hfresh & Htimers & _ & Hframes & _).
  split_and!.
  - unfold shim_drainVirtualTimePending. intros Hzero. apply size_empty_inv in Hzero.
    split.
    + apply map_eq. intros id. rewrite lookup_empty.
      destruct (timers w !! id) as [[k task]|] eqn:Hid; [|done].
      destruct (Htimers id k task Hid) as [Hin _]. rewrite Hzero in Hin.
      by apply elem_of_empty in Hin.
    + intros id [task|] Hid; [|done]. specialize (Hframes id task Hid).
      rewrite Hzero in Hframes. by apply elem_of_empty in Hframes.
  - done.
  - intros id elapsed Hid. cbn [shim_step snd]. unfold run_frame. rewrite Hid.
    by destruct elapsed.
  - cbn [shim_step shim_requestAnimationFrame snd pending]. unfold shim_drainVirtualTimePending.
    cbn [pending]. rewrite size_union, size_singleton; [done|].
    apply disjoint_singleton_l. intros Hin. apply Hfresh in Hin. lia.
Qed.

(** ** Key names *)

Lemma KEY_MAP_values (button key : string) :
  KEY_MAP !! button = Some key → KEY_MAP !! key = None.
Proof.
  unfold KEY_MAP. intros H. apply elem_of_list_to_map_2 in H.
  repeat (apply elem_of_cons in H as [[= -> ->]|H]; [reflexivity|]).
  by apply elem_of_nil in H.
Qed.

Lemma KEY_MAP_inj (b1 b2 key : string) :
  KEY_MAP !! b1 = Some key → KEY_MAP !! b2 = Some key → b1 = b2.
Proof.
  unfold KEY_MAP. intros H1 H2.
  apply elem_of_list_to_map_2 in H1. apply elem_of_list_to_map_2 in H2.
  repeat (apply elem_of_cons in H1 as [[= -> ->]|H1];
          [repeat (apply elem_of_cons in H2 as [Heq|H2]; [by simplify_eq|]);
           by apply elem_of_nil in H2|]).
  by apply elem_of_nil in H1.
Qed.

Lemma KEY_MAP_values_own (button key : string) :
  KEY_MAP !! button = Some key → key ∉ Object_prototype.
Proof.
  unfold KEY_MAP. intros H. apply elem_of_list_to_map_2 in H.
  repeat (apply elem_of_cons in H as [[= -> ->]|H];
          [by apply (bool_decide_eq_false_1 (_ ∈ Object_prototype))|]).
  by apply elem_of_nil in H.
Qed.

Lemma Object_prototype_not_keys (name : string) :
  name ∈ Object_prototype → KEY_MAP !! name = None.
Proof.
  unfold Object_prototype. intros H.
  repeat (apply elem_of_cons in H as [->|H]; [reflexivity|]).
  by apply elem_of_nil in H.
Qed.

(** X15. Short names and Playwright key names can be mixed, up to the
    names of [Object.prototype]: a key name the table produces is left
    alone when it is given as a button (it is neither a short name nor an
    inherited name); a name that is neither in the table nor a member of
    [Object.prototype] is passed through as it is; one of the twelve
    inherited names is not passed through: the automation layer is handed
    the inherited member in its place; and two different short names never
    stand for the same key. *)
Theorem translate_key_stable (button : string) :
  (∀ key : string, translate_key button = key_name key → translate_key key = key_name key)
  ∧ (KEY_MAP !! button = None → button ∉ Object_prototype →
     translate_key button = key_name button)
  ∧ (button ∈ Object_prototype → translate_key button = inherited_member button)
  ∧ (∀ button', button ∈ dom KEY_MAP → button' ∈ dom KEY_MAP →
                translate_key button = translate_key button' → button = button').
Proof.
  unfold translate_key. split_and!.
  - intros key. destruct (KEY_MAP !! button) as [key'|] eqn:Hb.
    + intros [= <-]. rewrite (KEY_MAP_values button key') by done.
      by rewrite bool_decide_eq_false_2 by by eapply KEY_MAP_values_own.
    + case_bool_decide as Hproto; [done|]. intros [= <-]. rewrite Hb.
      by rewrite bool_decide_eq_false_2.
  - intros -> Hproto. by rewrite bool_decide_eq_false_2.
  - intros Hproto. rewrite (Object_prototype_not_keys _ Hproto).
    by rewrite bool_decide_eq_true_2.
  - intros button' [k Hk]%elem_of_dom [k' Hk']%elem_of_dom. rewrite Hk, Hk'.
    intros [= <-]. by eapply KEY_MAP_inj.
Qed.

(** ** Instances *)

Lemma reports_first_occurrences_in_order_witness :
  let res := tracker_run [OpIngest {| type := "pageerror"; text := "a" |}; OpDrain;
                          OpIngest {| type := "pageerror"; text := "a" |};
                          OpIngest {| type := "pageerror"; text := "b" |}] new_tracker in
  concat res.1 ++ _errors res.2
  = first_occurrences [{| type := "pageerror"; text := "a" |};
                       {| type := "pageerror"; text := "a" |};
                       {| type := "pageerror"; text := "b" |}].
Proof.
  exact (proj1 (reports_first_occurrences_in_order
                  [OpIngest {| type := "pageerror"; text := "a" |}; OpDrain;
                   OpIngest {| type := "pageerror"; text := "a" |};
                   OpIngest {| type := "pageerror"; text := "b" |}])).
Defined.

Lemma passes_iff_errors_known_from_boot_witness :
  exit_code (main_run all_resolve (mkArgs 3 0 None) [] noisy_world) = 0%Z.
Proof.
  apply (proj2 (passes_iff_errors_known_from_boot (mkArgs 3 0 None) [] noisy_world
                  all_resolve)).
  split; [reflexivity|]. split; [reflexivity|].
  intros i ev r _ Hin Hr. exists (pageerror "Error: boom"). split; [left|].
  cbn in Hin. apply elem_of_cons in Hin as [->|Hin]; [discriminate Hr|].
  apply list_elem_of_singleton in Hin as ->. exact Hr.
Defined.

Lemma run_replays_choreography_witness :
  input (main_run all_resolve (mkArgs 2 7 (Some "#start"))
           [mkStep (Some ["space"]) (Some 2%Z) None None None] scoring_world)
  = [page_click "#start";
     keyboard_down "Space"; evaluate_frame (Some (1000 # 60)%Q);
     evaluate_frame (Some (1000 # 60)%Q); keyboard_up "Space"; sleep 7;
     keyboard_down "Space"; evaluate_frame (Some (1000 # 60)%Q);
     evaluate_frame (Some (1000 # 60)%Q); keyboard_up "Space"; sleep 7].
Proof.
  exact (proj1 (run_replays_choreography (mkArgs 2 7 (Some "#start"))
                  [mkStep (Some ["space"]) (Some 2%Z) None None None] scoring_world
                  all_resolve) eq_refl).
Defined.

Lemma state_file_from_text_hook_witness :
  (state 0, raw_text "score: 1") ∈ files (main (mkArgs 1 0 None) [] scoring_world).
Proof.
  pose proof (state_file_from_text_hook (mkArgs 1 0 None) [] scoring_world 0) as H.
  cbv zeta in H. destruct H as [H _]; [reflexivity|intros j Hj; lia|].
  apply H. exists "score: 1". split_and!; [reflexivity|discriminate|left; reflexivity].
Defined.

Lemma canvas_located_once_witness :
  canvas_before overlay_world 2 = Some 0
  ∧ canvas_in_use overlay_world 1 = Some unprobed_canvas
  ∧ getCanvasHandle_on (iteration overlay_world 1) = Some 1.
Proof.
  pose proof (canvas_located_once (mkArgs 2 0 None) [] overlay_world 1) as H.
  destruct H as (_ & Huse & Hkeep & _);
    [reflexivity|intros [|j] Hj; [reflexivity|lia]|].
  assert (canvas_before overlay_world 2 = Some 0) as Hheld
    by (apply (Hkeep 1 0); [lia|reflexivity]).
  split; [exact Hheld|]. split; [exact (Huse 0 Hheld)|reflexivity].
Defined.

Lemma nothing_left_held_witness :
  held_key "Space"
  ∈ released [evaluate_frame (Some (1000 # 60)%Q); keyboard_up "Space"].
Proof.
  pose proof (nothing_left_held quiet_page None
                [mkStep (Some ["space"]) None None None None] []) as H.
  cbv zeta in H. destruct H as (_ & _ & H).
  apply (H [] (keyboard_down "Space")); reflexivity.
Defined.


Lemma direct_export_used_iff_witness :
  strategy1 (Some unprobed_canvas) = Some (Buffer_from "iVBORw0KGgo=").
Proof.
  apply (proj1 (direct_export_used_iff quiet_page unprobed_canvas "iVBORw0KGgo=")).
  split_and!; [discriminate| |reflexivity].
  exists "data:image/png;base64". split; reflexivity.
Defined.

Lemma transparency_probe_alpha_only_witness :
  (1 ≤ probe_size (element unprobed_canvas) ≤ 16)%N.
Proof. exact (proj1 (proj2 (transparency_probe_alpha_only unprobed_canvas))). Defined.

Lemma zero_count_means_idle_witness :
  (timers (shim_run [setTimeout; requestAnimationFrame; advanceTime; fire_frame 1 true;
                     fire_timer 1; fire_frame 2 false] install_shim) = ∅
   ∧ ∀ id cb,
       frame_requests (shim_run [setTimeout; requestAnimationFrame; advanceTime;
                                 fire_frame 1 true; fire_timer 1; fire_frame 2 false]
                         install_shim) !! id = Some cb →
       cb = advance_step)
  ∧ shim_drainVirtualTimePending
      (shim_step (fire_frame 3 false)
         (shim_run [setTimeout; requestAnimationFrame; advanceTime; fire_frame 1 true;
                    fire_timer 1; fire_frame 2 false] install_shim)).2
    = shim_drainVirtualTimePending
        (shim_run [setTimeout; requestAnimationFrame; advanceTime; fire_frame 1 true;
                   fire_timer 1; fire_frame 2 false] install_shim).
Proof.
  destruct (zero_count_means_idle
              (shim_run [setTimeout; requestAnimationFrame; advanceTime; fire_frame 1 true;
                         fire_timer 1; fire_frame 2 false] install_shim)
              ltac:(by eexists)) as (Hidle & _ & Hstep & _).
  split.
  - apply Hidle. reflexivity.
  - apply Hstep. reflexivity.
Defined.

Lemma translate_key_stable_witness :
  translate_key "ArrowUp" = key_name "ArrowUp"
  ∧ translate_key "KeyQ" = key_name "KeyQ"
  ∧ translate_key "constructor" = inherited_member "constructor".
Proof.
  split_and!.
  - apply (proj1 (translate_key_stable "up")). reflexivity.
  - apply (proj1 (proj2 (translate_key_stable "KeyQ"))); [reflexivity|].
    by apply (bool_decide_eq_false_1 (_ ∈ Object_prototype)).
  - apply (proj1 (proj2 (proj2 (translate_key_stable "constructor")))).
    by apply (bool_decide_eq_true_1 (_ ∈ Object_prototype)).
Defined.

(** * The game *)

(** ** Score keeping *)

Lemma foldr_max_base (b s : Z) (l : list Z) :
  foldr Z.max (Z.max b s) l = Z.max s (foldr Z.max b l).
Proof. induction l as [|x l IH]; cbn [foldr]; [lia|]. rewrite IH. lia. Qed.

Lemma GameState_step_best (c : GameState.Call) (g : GameState.t) :
  (0 ≤ GameState.bestScore g)%Z →
  GameState.bestScore (GameState.step c g)
  = Z.max (GameState.bestScore g) (GameState.score (GameState.step c g)).
Proof.
  intros Hb. destruct c as [|points]; cbn.
  - destruct (Z.eqb_spec (GameState.bestScore g) 0); lia.
  - destruct (Z.ltb_spec (GameState.bestScore g)
                (GameState.score g + default 1%Z points)%Z); lia.
Qed.

Lemma GameState_run_best (cs : list GameState.Call) : ∀ g,
  (0 ≤ GameState.bestScore g)%Z →
  GameState.bestScore (GameState.run cs g)
  = foldr Z.max (GameState.bestScore g) (GameState.scores cs g).
Proof.
  induction cs as [|c cs IH]; intros g Hb; [done|].
  change (GameState.run (c :: cs) g) with (GameState.run cs (GameState.step c g)).
  cbn [GameState.scores foldr]. rewrite IH, GameState_step_best by (rewrite ?GameState_step_best; lia).
  apply foldr_max_base.
Qed.

Lemma GameState_run_snoc (cs : list GameState.Call) (c : GameState.Call) (g : GameState.t) :
  GameState.run (cs ++ [c]) g = GameState.step c (GameState.run cs g).
Proof. unfold GameState.run. by rewrite fold_left_app. Qed.

(** X16. [bestScore] is the highest score reached so far: after any
    sequence of [reset()] and [addScore()] calls on a new game state it is
    the maximum of 0 and of the scores held after each call, so it survives
    resets and is never below the current score; [fragmentsCollected]
    always equals [score]. *)
Theorem best_score_is_highest_reached (cs : list GameState.Call) :
  let g := GameState.run cs GameState.new in
  GameState.bestScore g = foldr Z.max 0%Z (GameState.scores cs GameState.new)
  ∧ (GameState.score g ≤ GameState.bestScore g)%Z
  ∧ GameState.fragmentsCollected g = GameState.score g
  ∧ GameState.bestScore (GameState.reset g) = GameState.bestScore g.
Proof.
  intros g. unfold g.
  assert (GameState.bestScore (GameState.run cs GameState.new)
          = foldr Z.max 0%Z (GameState.scores cs GameState.new)) as Hbest.
  { by apply (GameState_run_best cs GameState.new). }
  split; [done|].
  assert ((GameState.score (GameState.run cs GameState.new)
           ≤ GameState.bestScore (GameState.run cs GameState.new))%Z
          ∧ (0 ≤ GameState.bestScore (GameState.run cs GameState.new))%Z
          ∧ GameState.fragmentsCollected (GameState.run cs GameState.new)
            = GameState.score (GameState.run cs GameState.new)) as (Hle & Hpos & Hfrag).
  { clear Hbest. induction cs as [|c cs IH] using rev_ind; [done|].
    rewrite GameState_run_snoc. destruct IH as (Hle & Hpos & Hfrag).
    remember (GameState.run cs GameState.new) as g' eqn:Hg'. clear Hg'.
    destruct c as [|points]; cbn.
    - destruct (Z.eqb_spec (GameState.bestScore g') 0); split_and!; lia.
    - destruct (Z.ltb_spec (GameState.bestScore g')
                  (GameState.score g' + default 1%Z points)%Z); split_and!; lia. }
  split_and!; [done..|]. cbn.
  destruct (Z.eqb_spec (GameState.bestScore (GameState.run cs GameState.new)) 0); lia.
Qed.

(** ** Sweeping enemies that left the screen *)

Lemma sweep_spec (isOffScreen : SpawnSystem.Enemy → bool) (n : nat) :
  ∀ (es : list SpawnSystem.Enemy) (gone : list nat),
    n ≤ length es →
    SpawnSystem.sweep isOffScreen n es gone
    = Some (filter (λ e, isOffScreen e = false) (take n es) ++ drop n es,
            gone ++ reverse (SpawnSystem.enemy_id
                               <$> filter (λ e, isOffScreen e = true) (take n es))).
Proof.
  induction n as [|i IH]; intros es gone Hn.
  - cbn. by rewrite drop_0, app_nil_r.
  - cbn [SpawnSystem.sweep].
    destruct (lookup_lt_is_Some_2 es i) as [e He]; [lia|]. rewrite He.
    rewrite (take_S_r es i e He), !filter_app.
    assert (length (take i es) = i) as Hlen by (rewrite length_take; lia).
    destruct (isOffScreen e) eqn:Hoff.
    + rewrite IH by (rewrite length_delete by (by eexists); lia).
      rewrite delete_take_drop, take_app_length', drop_app_length' by done.
      rewrite filter_cons_False, filter_cons_True, !filter_nil by (by rewrite ?Hoff).
      rewrite app_nil_r, fmap_app, reverse_app. cbn [fmap list_fmap reverse].
      by rewrite <- app_assoc.
    + rewrite IH by lia.
      rewrite filter_cons_True, filter_cons_False, !filter_nil by (by rewrite ?Hoff).
      rewrite app_nil_r, (drop_S es e i He). by rewrite <- app_assoc.
Qed.

Lemma update_spec (isOffScreen : SpawnSystem.Enemy → bool)
    (sc : SpawnSystem.Scene) (s : SpawnSystem.t) :
  SpawnSystem.update isOffScreen sc s
  = Some ({| SpawnSystem.gameState := SpawnSystem.gameState sc;
             SpawnSystem.objects := SpawnSystem.objects sc;
             SpawnSystem.destroyed :=
               SpawnSystem.destroyed sc
               ++ reverse (SpawnSystem.enemy_id
                             <$> filter (λ e, isOffScreen e = true) (SpawnSystem.enemies s));
             SpawnSystem.emitted := SpawnSystem.emitted sc |},
          SpawnSystem.with_enemies
            (filter (λ e, isOffScreen e = false) (SpawnSystem.enemies s)) s).
Proof.
  unfold SpawnSystem.update. rewrite sweep_spec by done.
  by rewrite firstn_all, drop_all, app_nil_r.
Qed.

(** X17. [update()] removes exactly the enemies that are off screen:
    splicing while walking the array backwards skips no element and never
    reads past the end, so the call always completes, the enemies left are
    those for which [isOffScreen()] is false, in their old order, and each
    removed enemy is destroyed once, last to first. Nothing else changes. *)
Theorem update_removes_exactly_off_screen (isOffScreen : SpawnSystem.Enemy → bool)
    (sc : SpawnSystem.Scene) (s : SpawnSystem.t) :
  ∃ sc' s',
    SpawnSystem.update isOffScreen sc s = Some (sc', s')
    ∧ SpawnSystem.enemies s' = filter (λ e, isOffScreen e = false) (SpawnSystem.enemies s)
    ∧ (∀ e, e ∈ SpawnSystem.enemies s' ↔ e ∈ SpawnSystem.enemies s ∧ isOffScreen e = false)
    ∧ SpawnSystem.destroyed sc'
      = SpawnSystem.destroyed sc
        ++ reverse (SpawnSystem.enemy_id
                      <$> filter (λ e, isOffScreen e = true) (SpawnSystem.enemies s))
    ∧ SpawnSystem.fragments s' = SpawnSystem.fragments s
    ∧ SpawnSystem.gameState sc' = SpawnSystem.gameState sc
    ∧ SpawnSystem.emitted sc' = SpawnSystem.emitted sc.
Proof.
  eexists _, _. split; [apply update_spec|]. cbn. split_and!; try done.
  intros e. rewrite list_elem_of_filter. tauto.
Qed.

(** ** Runs of the spawn system *)

Lemma SpawnSystem_step_total (c : SpawnSystem.Call) (st : SpawnSystem.Scene * SpawnSystem.t) :
  ∃ st', SpawnSystem.step c st = Some st'.
Proof.
  destruct st as [sc s]. destruct c; cbn [SpawnSystem.step]; try by eexists.
  rewrite update_spec. by eexists.
Qed.

Lemma SpawnSystem_run_snoc (cs : list SpawnSystem.Call) (c : SpawnSystem.Call) :
  ∀ st, SpawnSystem.run (cs ++ [c]) st = SpawnSystem.run cs st ≫= SpawnSystem.step c.
Proof.
  induction cs as [|c' cs IH]; intros st; cbn [app SpawnSystem.run].
  - cbn. by destruct (SpawnSystem.step c st).
  - destruct (SpawnSystem.step c' st); [apply IH|done].
Qed.

Lemma SpawnSystem_run_invariant
    (P : list SpawnSystem.Call → SpawnSystem.Scene * SpawnSystem.t → Prop)
    (st0 : SpawnSystem.Scene * SpawnSystem.t) :
  P [] st0 →
  (∀ cs c st st', P cs st → SpawnSystem.step c st = Some st' → P (cs ++ [c]) st') →
  ∀ cs, ∃ st, SpawnSystem.run cs st0 = Some st ∧ P cs st.
Proof.
  intros H0 Hstep cs. induction cs as [|c cs IH] using rev_ind; [by exists st0|].
  destruct IH as (st & Hrun & HP). destruct (SpawnSystem_step_total c st) as [st' Hst'].
  exists st'. rewrite SpawnSystem_run_snoc, Hrun. split; [done|]. by eapply Hstep.
Qed.

Lemma ticks_snoc (cs : list SpawnSystem.Call) (c : SpawnSystem.Call) :
  SpawnSystem.ticks (cs ++ [c])
  = SpawnSystem.ticks cs + (if SpawnSystem.is_accelerate c then 1 else 0).
Proof.
  unfold SpawnSystem.ticks. rewrite filter_app, length_app. f_equal.
  destruct (SpawnSystem.is_accelerate c) eqn:Hc.
  - by rewrite filter_cons_True.
  - rewrite filter_cons_False; [done|]. by rewrite Hc.
Qed.

Lemma interval_after_next (k : nat) :
  Z.max (SpawnSystem.ENEMY_SPAWN_INTERVAL_START
         - (1000 * Z.of_nat k + 1000) / 1000 * SpawnSystem.ENEMY_SPAWN_ACCELERATION)
        SpawnSystem.ENEMY_SPAWN_INTERVAL_MIN
  = SpawnSystem.interval_after (S k).
Proof.
  unfold SpawnSystem.interval_after, SpawnSystem.ENEMY_SPAWN_INTERVAL_START,
    SpawnSystem.ENEMY_SPAWN_ACCELERATION, SpawnSystem.ENEMY_SPAWN_INTERVAL_MIN.
  replace (1000 * Z.of_nat k + 1000)%Z with (Z.of_nat (S k) * 1000)%Z by lia.
  rewrite Z.div_mul by done. lia.
Qed.

Lemma schedule_invariant (sc0 : SpawnSystem.Scene) (cs : list SpawnSystem.Call) :
  ∃ st, SpawnSystem.run cs (SpawnSystem.constructor sc0) = Some st
        ∧ SpawnSystem.elapsedTime st.2 = (1000 * Z.of_nat (SpawnSystem.ticks cs))%Z
        ∧ SpawnSystem.currentSpawnInterval st.2 = SpawnSystem.interval_after (SpawnSystem.ticks cs)
        ∧ SpawnSystem.enemyTimer_delay st.2 = SpawnSystem.interval_after (SpawnSystem.ticks cs)
        ∧ filter (λ e, SpawnSystem.is_tick e = true) (SpawnSystem.emitted st.1)
          = filter (λ e, SpawnSystem.is_tick e = true) (SpawnSystem.emitted sc0)
            ++ (SpawnSystem.tick_event <$> seq 1 (SpawnSystem.ticks cs))
        ∧ (∀ e, e ∈ SpawnSystem.enemies st.2 →
                SpawnSystem.enemy_type e = SpawnSystem.SINGULARITY_NODE →
                15 ≤ SpawnSystem.ticks cs).
Proof.
  apply (SpawnSystem_run_invariant
           (λ cs st,
              SpawnSystem.elapsedTime st.2 = (1000 * Z.of_nat (SpawnSystem.ticks cs))%Z
              ∧ SpawnSystem.currentSpawnInterval st.2
                = SpawnSystem.interval_after (SpawnSystem.ticks cs)
              ∧ SpawnSystem.enemyTimer_delay st.2
                = SpawnSystem.interval_after (SpawnSystem.ticks cs)
              ∧ filter (λ e, SpawnSystem.is_tick e = true) (SpawnSystem.emitted st.1)
                = filter (λ e, SpawnSystem.is_tick e = true) (SpawnSystem.emitted sc0)
                  ++ (SpawnSystem.tick_event <$> seq 1 (SpawnSystem.ticks cs))
              ∧ (∀ e, e ∈ SpawnSystem.enemies st.2 →
                      SpawnSystem.enemy_type e = SpawnSystem.SINGULARITY_NODE →
                      15 ≤ SpawnSystem.ticks cs))).
  - cbn. split_and!; [done..|by rewrite app_nil_r|]. by intros e ?%elem_of_nil.
  - clear cs. intros cs c [sc s] [sc' s'] (Helapsed & Hinterval & Hdelay & Hticks & Hsing) Hstep.
    rewrite ticks_snoc. cbn [fst snd] in *.
    destruct c as [|rand at_| | |fragment|isOffScreen| |f]; cbn [SpawnSystem.step] in Hstep;
      cbn [SpawnSystem.is_accelerate]; rewrite ?Nat.add_0_r, ?Nat.add_1_r.
    + injection Hstep as <- <-. cbn. rewrite Helapsed, interval_after_next.
      split_and!; [lia|done|done| |intros e He Hty; specialize (Hsing e He Hty); lia].
      rewrite filter_app, Hticks, filter_cons_True, filter_nil by done.
      change (SpawnSystem.tick_event 1
              :: (SpawnSystem.tick_event <$> seq 2 (SpawnSystem.ticks cs)))
        with (SpawnSystem.tick_event <$> seq 1 (S (SpawnSystem.ticks cs))).
      rewrite seq_S, fmap_app, app_assoc. cbn [fmap list_fmap Nat.add].
      unfold SpawnSystem.tick_event.
      replace (1000 * Z.of_nat (SpawnSystem.ticks cs) + 1000)%Z
        with (Z.of_nat (S (SpawnSystem.ticks cs)) * 1000)%Z by lia.
      do 3 f_equal; [f_equal; lia|by rewrite Z.div_mul].
    + unfold SpawnSystem.spawnEnemy in Hstep.
      destruct (GameState.gameOver (SpawnSystem.gameState sc)).
      * injection Hstep as <- <-. by split_and!.
      * injection Hstep as <- <-. cbn. split_and!; [done..| |].
        -- by rewrite filter_app, filter_cons_False, filter_nil, app_nil_r.
        -- intros e [He| ->%list_elem_of_singleton]%elem_of_app; [by apply Hsing|].
           cbn. unfold SpawnSystem._pickEnemyType.
           destruct (Z.leb_spec SpawnSystem.SINGULARITY_NODE_MIN_SPAWN_TIME
                       (SpawnSystem.elapsedTime s)) as [Hle|_]; cbn [andb].
           ++ intros _. unfold SpawnSystem.SINGULARITY_NODE_MIN_SPAWN_TIME in Hle. lia.
           ++ by destruct (SpawnSystem.below_0_6 rand).
    + unfold SpawnSystem.spawnFragment in Hstep.
      destruct (GameState.gameOver (SpawnSystem.gameState sc));
        [|destruct (decide _)]; injection Hstep as <- <-; by split_and!.
    + injection Hstep as <- <-. cbn. split_and!; [done..| |done].
      destruct (SpawnSystem._slowdownTimer s); cbn;
        by rewrite filter_app, filter_cons_False, filter_nil, app_nil_r.
    + unfold SpawnSystem.removeFragment in Hstep.
      destruct (SpawnSystem.indexOf _ _); injection Hstep as <- <-; by split_and!.
    + rewrite update_spec in Hstep. injection Hstep as <- <-. cbn.
      split_and!; [done..|]. intros e [_ He]%list_elem_of_filter. by apply Hsing.
    + injection Hstep as <- <-. cbn. split_and!; [done..| |by intros e ?%elem_of_nil].
      rewrite <- Hticks. clear.
      assert (∀ (A : Type) (f : A → nat) (l : list A) sc,
                SpawnSystem.emitted
                  (fold_left (λ sc x, SpawnSystem.destroy_object (f x) sc) l sc)
                = SpawnSystem.emitted sc) as Hfold.
      { intros A f l. induction l as [|x l IH]; intros sc'; [done|]. cbn. by rewrite IH. }
      rewrite (Hfold _ id), (Hfold _ SpawnSystem.enemy_id).
      by destruct (SpawnSystem._slowdownTimer s).
    + injection Hstep as <- <-. by split_and!.
Qed.

(** X18. Difficulty follows the number of [accelerate()] calls and nothing
    else: whatever other calls are made in between, after [k] ticks
    [elapsedTime] is [1000 k], the spawn interval and the delay of the
    enemy timer are [max(1200 - 15 k, 250)], so the interval stays within
    250..1200 and sits at the floor exactly from the 64th tick on; the
    [j]-th tick event reports the interval and the survival time [j] of
    that tick. No sequence of calls makes the system throw. *)
Theorem spawn_interval_schedule (sc0 : SpawnSystem.Scene) (cs : list SpawnSystem.Call) :
  ∃ sc s,
    SpawnSystem.run cs (SpawnSystem.constructor sc0) = Some (sc, s)
    ∧ SpawnSystem.elapsedTime s = (1000 * Z.of_nat (SpawnSystem.ticks cs))%Z
    ∧ SpawnSystem.currentSpawnInterval s
      = Z.max (1200 - 15 * Z.of_nat (SpawnSystem.ticks cs)) 250
    ∧ SpawnSystem.enemyTimer_delay s = SpawnSystem.currentSpawnInterval s
    ∧ (250 ≤ SpawnSystem.currentSpawnInterval s ≤ 1200)%Z
    ∧ (SpawnSystem.currentSpawnInterval s = 250%Z ↔ 64 ≤ SpawnSystem.ticks cs)
    ∧ filter (λ e, SpawnSystem.is_tick e = true) (SpawnSystem.emitted sc)
      = filter (λ e, SpawnSystem.is_tick e = true) (SpawnSystem.emitted sc0)
        ++ (SpawnSystem.tick_event <$> seq 1 (SpawnSystem.ticks cs)).
Proof.
  destruct (schedule_invariant sc0 cs)
    as ([sc s] & Hrun & Helapsed & Hinterval & Hdelay & Hticks & _).
  cbn [fst snd] in *. exists sc, s. unfold SpawnSystem.interval_after in *.
  split_and!; [done|done|done|congruence|lia|lia|lia|done].
Qed.

(** X19. Singularity nodes wait for the fifteenth tick: before it
    [_pickEnemyType()] never picks one, whatever the random draw, and no
    enemy of that type is in the list; from it on one is picked exactly
    when the draw is below 0.15. *)
Theorem singularity_nodes_wait (sc0 : SpawnSystem.Scene) (cs : list SpawnSystem.Call) :
  ∃ sc s,
    SpawnSystem.run cs (SpawnSystem.constructor sc0) = Some (sc, s)
    ∧ (∀ e, e ∈ SpawnSystem.enemies s →
            SpawnSystem.enemy_type e = SpawnSystem.SINGULARITY_NODE →
            15 ≤ SpawnSystem.ticks cs)
    ∧ (∀ rand, SpawnSystem._pickEnemyType rand s = SpawnSystem.SINGULARITY_NODE ↔
               15 ≤ SpawnSystem.ticks cs ∧ SpawnSystem.below_0_15 rand = true).
Proof.
  destruct (schedule_invariant sc0 cs) as ([sc s] & Hrun & Helapsed & _ & _ & _ & Hsing).
  cbn [fst snd] in *. exists sc, s. split_and!; [done..|].
  intros rand. unfold SpawnSystem._pickEnemyType, SpawnSystem.SINGULARITY_NODE_MIN_SPAWN_TIME.
  rewrite Helapsed.
  destruct (Z.leb_spec 15000 (1000 * Z.of_nat (SpawnSystem.ticks cs))) as [Hle|Hlt];
    cbn [andb].
  - destruct (SpawnSystem.below_0_15 rand).
    + split; [|done]. intros _. split; [lia|done].
    + destruct (SpawnSystem.below_0_6 rand); split; try done; by intros [_ ?].
  - destruct (SpawnSystem.below_0_6 rand); split; try done; intros [? _]; lia.
Qed.

(** ** Objects held by the spawn system *)

Lemma fold_destroy_object {A} (f : A → nat) (l : list A) : ∀ sc,
  fold_left (λ sc x, SpawnSystem.destroy_object (f x) sc) l sc
  = {| SpawnSystem.gameState := SpawnSystem.gameState sc;
       SpawnSystem.objects := SpawnSystem.objects sc;
       SpawnSystem.destroyed := SpawnSystem.destroyed sc ++ (f <$> l);
       SpawnSystem.emitted := SpawnSystem.emitted sc |}.
Proof.
  induction l as [|x l IH]; intros sc; cbn [fold_left fmap list_fmap].
  - rewrite app_nil_r. by destruct sc.
  - rewrite IH. cbn. by rewrite <- app_assoc.
Qed.

Lemma indexOf_Some (xs : list nat) (x i : nat) :
  SpawnSystem.indexOf xs x = Some i → xs !! i = Some x.
Proof.
  revert i. induction xs as [|y ys IH]; intros i H; [done|]. cbn in H.
  destruct (decide (y = x)) as [->|]; [by injection H as <-|].
  destruct (SpawnSystem.indexOf ys x) as [j|]; [|done]. injection H as <-. by apply IH.
Qed.

Lemma indexOf_None (xs : list nat) (x : nat) :
  SpawnSystem.indexOf xs x = None ↔ x ∉ xs.
Proof.
  induction xs as [|y ys IH]; cbn.
  - split; [intros _; apply not_elem_of_nil|done].
  - rewrite not_elem_of_cons. destruct (decide (y = x)) as [->|Hy].
    + split; [done|]. by intros [? _].
    + destruct (SpawnSystem.indexOf ys x); cbn.
      * split; [done|]. intros [_ Hx]. by apply IH in Hx.
      * split; [|done]. intros _. split; [done|]. by apply IH.
Qed.

Lemma NoDup_delete {A} (l : list A) (i : nat) : NoDup l → NoDup (delete i l).
Proof. intros H. eapply sublist_NoDup; [done|apply sublist_delete]. Qed.

Lemma elem_of_delete_NoDup {A} (l : list A) (i : nat) (x : A) :
  NoDup l → l !! i = Some x → x ∉ delete i l.
Proof.
  intros Hnd Hi Hin. apply list_elem_of_lookup in Hin as [j Hj].
  rewrite delete_take_drop in Hj.
  assert (length (take i l) = i) as Hlen.
  { rewrite length_take. apply lookup_lt_Some in Hi. lia. }
  destruct (decide (j < i)) as [Hlt|Hge].
  - rewrite lookup_app_l, lookup_take_lt in Hj by lia.
    assert (j = i) by (by eapply NoDup_lookup). lia.
  - rewrite lookup_app_r, Hlen, lookup_drop in Hj by lia.
    assert (S i + (j - i) = i) by (by eapply NoDup_lookup). lia.
Qed.

Lemma elem_of_delete_sub {A} (l : list A) (i : nat) (x : A) : x ∈ delete i l → x ∈ l.
Proof. intros H. eapply elem_of_sublist; [done|apply sublist_delete]. Qed.

Lemma live_objects_constructor (sc0 : SpawnSystem.Scene) :
  (∀ o, o ∈ SpawnSystem.destroyed sc0 → o < SpawnSystem.objects sc0) →
  SpawnSystem.live_objects (SpawnSystem.constructor sc0).
Proof.
  intros Hold. unfold SpawnSystem.live_objects. cbn. split_and!.
  - constructor.
  - by intros o ?%elem_of_nil.
  - intros o Ho. repeat (apply elem_of_cons in Ho as [->|Ho]; [lia|]).
    specialize (Hold o Ho). lia.
Qed.

Lemma NoDup_fmap_elem_inj {A B} (f : A → B) (l : list A) (x y : A) :
  NoDup (f <$> l) → x ∈ l → y ∈ l → f x = f y → x = y.
Proof.
  intros Hnd [i Hi]%list_elem_of_lookup [j Hj]%list_elem_of_lookup Heq.
  assert (i = j) as ->; [|congruence].
  apply (NoDup_lookup _ i j (f x) Hnd); rewrite list_lookup_fmap; [by rewrite Hi|].
  by rewrite Hj, Heq.
Qed.

Ltac scene_simpl :=
  cbn [fst snd SpawnSystem.fragments SpawnSystem.enemies SpawnSystem.objects
       SpawnSystem.destroyed SpawnSystem.enemy_id SpawnSystem.enemyTimer
       SpawnSystem.fragmentTimer SpawnSystem.accelTimer SpawnSystem._slowdownTimer
       SpawnSystem.with_fragments SpawnSystem.with_enemies SpawnSystem.allocate
       SpawnSystem.destroy_object SpawnSystem.emit_event SpawnSystem.with_gameState] in *.

Ltac mem_simpl :=
  repeat (progress (rewrite ?elem_of_app, ?elem_of_cons, ?elem_of_nil in *)).

Lemma live_objects_step (c : SpawnSystem.Call) (st st' : SpawnSystem.Scene * SpawnSystem.t) :
  SpawnSystem.live_objects st →
  SpawnSystem.step c st = Some st' →
  SpawnSystem.live_objects st'.
Proof.
  destruct st as [sc s], st' as [sc' s']. unfold SpawnSystem.live_objects. cbn [fst snd].
  intros (Hnd & Hlive & Hold) Hstep.
  assert (∀ o, o ∈ SpawnSystem.fragments s ++ (SpawnSystem.enemy_id <$> SpawnSystem.enemies s) →
               o ≠ SpawnSystem.objects sc) as Hfresh.
  { intros o Ho ->. apply Hlive in Ho as [Ho _]. lia. }
  assert (SpawnSystem.objects sc ∉ SpawnSystem.timers s ++ SpawnSystem.destroyed sc)
    as Hfresh'.
  { intros Ho. apply Hold in Ho. lia. }
  destruct c as [|rand at_| | |fragment|isOffScreen| |f]; cbn [SpawnSystem.step] in Hstep.
  - injection Hstep as <- <-. by split_and!.
  - unfold SpawnSystem.spawnEnemy in Hstep.
    destruct (GameState.gameOver (SpawnSystem.gameState sc)); injection Hstep as <- <-;
      [by split_and!|]. scene_simpl.
    change (SpawnSystem.timers _) with (SpawnSystem.timers s).
    rewrite fmap_app, app_assoc. cbn [fmap list_fmap]. scene_simpl.
    split_and!.
    + apply NoDup_app. split_and!; [done| |apply NoDup_singleton].
      intros o Ho ->%list_elem_of_singleton. by apply (Hfresh _ Ho).
    + intros o [Ho| ->%list_elem_of_singleton]%elem_of_app.
      * destruct (Hlive o Ho) as (? & ? & ?). split_and!; [lia|done..].
      * split_and!; [lia|intros ?|intros ?]; apply Hfresh', elem_of_app; eauto.
    + intros o Ho. specialize (Hold o Ho). lia.
  - unfold SpawnSystem.spawnFragment in Hstep.
    destruct (GameState.gameOver (SpawnSystem.gameState sc));
      [|destruct (decide _)]; injection Hstep as <- <-; [by split_and!..|]. scene_simpl.
    change (SpawnSystem.timers _) with (SpawnSystem.timers s).
    assert (∀ o, o ∈ (SpawnSystem.fragments s ++ [SpawnSystem.objects sc])
                     ++ (SpawnSystem.enemy_id <$> SpawnSystem.enemies s)
                 ↔ o ∈ SpawnSystem.fragments s ++ (SpawnSystem.enemy_id <$> SpawnSystem.enemies s)
                   ∨ o = SpawnSystem.objects sc) as Hmem.
    { intros o. rewrite !elem_of_app, list_elem_of_singleton. tauto. }
    split_and!.
    + rewrite <- app_assoc. apply NoDup_app in Hnd as (Hf & Hdisj & He).
      apply NoDup_app. split_and!; [done| |].
      * intros o Ho [->|Ho']%elem_of_cons.
        -- apply (Hfresh (SpawnSystem.objects sc)); [|done]. apply elem_of_app. by left.
        -- by apply (Hdisj o).
      * apply NoDup_cons. split; [|done]. intros Ho.
        apply (Hfresh (SpawnSystem.objects sc)); [|done]. apply elem_of_app. by right.
    + intros o [Ho| ->]%Hmem.
      * destruct (Hlive o Ho) as (? & ? & ?). split_and!; [lia|done..].
      * split_and!; [lia|intros ?|intros ?]; apply Hfresh', elem_of_app; eauto.
    + intros o Ho. specialize (Hold o Ho). lia.
  - unfold SpawnSystem.applySlowdown in Hstep. unfold SpawnSystem.timers in *.
    destruct (SpawnSystem._slowdownTimer s) as [slow|] eqn:Hslow;
      injection Hstep as <- <-; scene_simpl.
    + split_and!; [done| |].
      * intros o Ho. specialize (Hlive o Ho). mem_simpl. intuition lia.
      * intros o Ho. specialize (Hold o). mem_simpl. intuition lia.
    + split_and!; [done| |].
      * intros o Ho. specialize (Hlive o Ho). mem_simpl. intuition lia.
      * intros o Ho. specialize (Hold o). mem_simpl. intuition lia.
  - unfold SpawnSystem.removeFragment in Hstep.
    destruct (SpawnSystem.indexOf (SpawnSystem.fragments s) fragment) as [idx|] eqn:Hidx;
      injection Hstep as <- <-; [|by split_and!]. scene_simpl.
    change (SpawnSystem.timers _) with (SpawnSystem.timers s).
    apply indexOf_Some in Hidx.
    assert (∀ o, o ∈ delete idx (SpawnSystem.fragments s)
                     ++ (SpawnSystem.enemy_id <$> SpawnSystem.enemies s) →
                 o ∈ SpawnSystem.fragments s
                     ++ (SpawnSystem.enemy_id <$> SpawnSystem.enemies s)) as Hsub.
    { intros o [Ho|Ho]%elem_of_app; apply elem_of_app; [left|by right].
      by eapply elem_of_delete_sub. }
    pose proof Hnd as Hnd'. apply NoDup_app in Hnd' as (Hf & Hdisj & He).
    split_and!.
    + apply NoDup_app. split_and!; [by apply NoDup_delete| |done].
      intros o Ho. apply Hdisj. by eapply elem_of_delete_sub.
    + intros o Ho. destruct (Hlive o (Hsub o Ho)) as (? & ? & ?). split_and!; [done..|].
      intros [Hd| ->%list_elem_of_singleton]%elem_of_app; [done|].
      apply elem_of_app in Ho as [Ho|Ho].
      * by apply (elem_of_delete_NoDup _ idx fragment Hf Hidx).
      * apply (Hdisj fragment); [by eapply list_elem_of_lookup_2|done].
    + intros o [Ho|[Ho| ->%list_elem_of_singleton]%elem_of_app]%elem_of_app.
      * apply Hold, elem_of_app. by left.
      * apply Hold, elem_of_app. by right.
      * apply Hlive, elem_of_app. left. by eapply list_elem_of_lookup_2.
  - rewrite update_spec in Hstep. injection Hstep as <- <-. scene_simpl.
    change (SpawnSystem.timers _) with (SpawnSystem.timers s).
    assert (∀ o, o ∈ SpawnSystem.fragments s
                     ++ (SpawnSystem.enemy_id
                           <$> filter (λ e, isOffScreen e = false) (SpawnSystem.enemies s)) →
                 o ∈ SpawnSystem.fragments s
                     ++ (SpawnSystem.enemy_id <$> SpawnSystem.enemies s)) as Hsub.
    { intros o [Ho|Ho]%elem_of_app; apply elem_of_app; [by left|right].
      apply list_elem_of_fmap in Ho as (e & -> & [_ He]%list_elem_of_filter).
      apply list_elem_of_fmap. by exists e. }
    pose proof Hnd as Hnd'. apply NoDup_app in Hnd' as (Hf & Hdisj & He).
    split_and!.
    + apply NoDup_app. split_and!; [done| |].
      * intros o Ho Ho'. apply (Hdisj o Ho).
        apply list_elem_of_fmap in Ho' as (e & -> & [_ Hin]%list_elem_of_filter).
        apply list_elem_of_fmap. by exists e.
      * apply NoDup_fmap_2_strong; [|by apply NoDup_filter, (NoDup_fmap_1 SpawnSystem.enemy_id)].
        intros x y [_ Hx]%list_elem_of_filter [_ Hy]%list_elem_of_filter.
        by apply (NoDup_fmap_elem_inj _ (SpawnSystem.enemies s)).
    + intros o Ho. destruct (Hlive o (Hsub o Ho)) as (? & ? & ?). split_and!; [done..|].
      intros [Hd|Hd]%elem_of_app; [done|]. rewrite elem_of_reverse in Hd.
      apply list_elem_of_fmap in Hd as (e' & -> & [Hoff Hin']%list_elem_of_filter).
      apply elem_of_app in Ho as [Ho|Ho].
      * apply (Hdisj _ Ho). apply list_elem_of_fmap. by exists e'.
      * apply list_elem_of_fmap in Ho as (e & Heq & [Hon Hin]%list_elem_of_filter).
        assert (e' = e) as ->; [|congruence].
        by apply (NoDup_fmap_elem_inj SpawnSystem.enemy_id (SpawnSystem.enemies s)).
    + intros o [Ho|[Ho|Ho]%elem_of_app]%elem_of_app.
      * apply Hold, elem_of_app. by left.
      * apply Hold, elem_of_app. by right.
      * rewrite elem_of_reverse in Ho.
        apply list_elem_of_fmap in Ho as (e' & -> & [_ Hin']%list_elem_of_filter).
        apply Hlive, elem_of_app. right. apply list_elem_of_fmap. by exists e'.
  - unfold SpawnSystem.destroy in Hstep. injection Hstep as <- <-.
    rewrite (fold_destroy_object id), (fold_destroy_object SpawnSystem.enemy_id).
    unfold SpawnSystem.timers in *.
    destruct (SpawnSystem._slowdownTimer s) as [slow|] eqn:Hslow; scene_simpl;
      rewrite ?Hslow; cbn [fmap list_fmap app]; (split_and!; [constructor|by intros o ?%elem_of_nil|]);
      intros o Ho; rewrite list_fmap_id in Ho.
    + assert (o ∈ ([SpawnSystem.enemyTimer s; SpawnSystem.fragmentTimer s;
                    SpawnSystem.accelTimer s] ++ [slow]) ++ SpawnSystem.destroyed sc
              ∨ o ∈ SpawnSystem.fragments s
                    ++ (SpawnSystem.enemy_id <$> SpawnSystem.enemies s)) as [H|H];
        [|by apply Hold|by apply Hlive].
      clear -Ho. mem_simpl. tauto.
    + assert (o ∈ ([SpawnSystem.enemyTimer s; SpawnSystem.fragmentTimer s;
                    SpawnSystem.accelTimer s] ++ []) ++ SpawnSystem.destroyed sc
              ∨ o ∈ SpawnSystem.fragments s
                    ++ (SpawnSystem.enemy_id <$> SpawnSystem.enemies s)) as [H|H];
        [|by apply Hold|by apply Hlive].
      clear -Ho. mem_simpl. tauto.
  - injection Hstep as <- <-. by split_and!.
Qed.

Lemma fragments_step_length (c : SpawnSystem.Call) (st st' : SpawnSystem.Scene * SpawnSystem.t) :
  SpawnSystem.step c st = Some st' →
  length (SpawnSystem.fragments st.2) ≤ SpawnSystem.FRAGMENT_MAX_ON_SCREEN →
  length (SpawnSystem.fragments st'.2) ≤ SpawnSystem.FRAGMENT_MAX_ON_SCREEN.
Proof.
  destruct st as [sc s], st' as [sc' s']. cbn [fst snd]. intros Hstep Hlen.
  destruct c as [|rand at_| | |fragment|isOffScreen| |f]; cbn [SpawnSystem.step] in Hstep.
  - by injection Hstep as <- <-.
  - unfold SpawnSystem.spawnEnemy in Hstep.
    by destruct (GameState.gameOver (SpawnSystem.gameState sc)); injection Hstep as <- <-.
  - unfold SpawnSystem.spawnFragment in Hstep.
    destruct (GameState.gameOver (SpawnSystem.gameState sc));
      [|destruct (decide _)]; injection Hstep as <- <-; [done..|].
    cbn. rewrite length_app. cbn. lia.
  - by injection Hstep as <- <-.
  - unfold SpawnSystem.removeFragment in Hstep.
    destruct (SpawnSystem.indexOf _ _) as [idx|] eqn:Hidx; injection Hstep as <- <-; [|done].
    cbn. apply indexOf_Some in Hidx. rewrite length_delete by by eexists. lia.
  - rewrite update_spec in Hstep. by injection Hstep as <- <-.
  - injection Hstep as <- <-. cbn. lia.
  - by injection Hstep as <- <-.
Qed.

(** X20. The system never holds more than five fragments, and what it holds
    is alive: started on a scene where only existing objects have been
    destroyed, after any sequence of calls the fragment list has at most
    [FRAGMENT.MAX_ON_SCREEN] entries, fragments and enemies in the lists
    are pairwise distinct objects, and none of them has been destroyed. *)
Theorem fragments_capped_and_live (sc0 : SpawnSystem.Scene) (cs : list SpawnSystem.Call) :
  (∀ o, o ∈ SpawnSystem.destroyed sc0 → o < SpawnSystem.objects sc0) →
  ∃ sc s,
    SpawnSystem.run cs (SpawnSystem.constructor sc0) = Some (sc, s)
    ∧ length (SpawnSystem.fragments s) ≤ 5
    ∧ NoDup (SpawnSystem.fragments s)
    ∧ NoDup (SpawnSystem.enemy_id <$> SpawnSystem.enemies s)
    ∧ (∀ f, f ∈ SpawnSystem.fragments s → f ∉ SpawnSystem.destroyed sc)
    ∧ (∀ e, e ∈ SpawnSystem.enemies s → SpawnSystem.enemy_id e ∉ SpawnSystem.destroyed sc).
Proof.
  intros Hold.
  destruct (SpawnSystem_run_invariant
              (λ _ st, SpawnSystem.live_objects st
                       ∧ length (SpawnSystem.fragments st.2)
                         ≤ SpawnSystem.FRAGMENT_MAX_ON_SCREEN)
              (SpawnSystem.constructor sc0)) with (cs := cs)
    as ([sc s] & Hrun & (Hnd & Hlive & _) & Hlen).
  - split; [by apply live_objects_constructor|]. cbn. unfold SpawnSystem.FRAGMENT_MAX_ON_SCREEN. lia.
  - intros _ c st st' [Hinv Hlen] Hstep. split.
    + by eapply live_objects_step.
    + by eapply fragments_step_length.
  - cbn [fst snd] in *. exists sc, s. apply NoDup_app in Hnd as (Hf & _ & He).
    split_and!; [done..| |].
    + intros f Hf'. apply Hlive, elem_of_app. by left.
    + intros e He'. apply Hlive, elem_of_app. right. apply list_elem_of_fmap. by exists e.
Qed.

Lemma filter_other_absent (l : list nat) (x : nat) : x ∉ l → filter (λ y, y ≠ x) l = l.
Proof.
  induction l as [|y l IH]; intros Hx; [done|]. apply not_elem_of_cons in Hx as [Hxy Hx].
  rewrite filter_cons_True by done. by rewrite IH.
Qed.

Lemma delete_NoDup_filter (l : list nat) (i x : nat) :
  NoDup l → l !! i = Some x → delete i l = filter (λ y, y ≠ x) l.
Proof.
  revert i. induction l as [|y l IH]; intros i Hnd Hi; [done|].
  apply NoDup_cons in Hnd as [Hy Hnd]. destruct i as [|i]; cbn in Hi.
  - injection Hi as ->. change (delete 0 (x :: l)) with l.
    rewrite filter_cons_False by (by intros []). by rewrite filter_other_absent.
  - assert (y ≠ x) as Hyx by (intros ->; by apply Hy, (list_elem_of_lookup_2 _ i)).
    rewrite filter_cons_True by done.
    change (delete (S i) (y :: l)) with (y :: delete i l). f_equal. by apply IH.
Qed.

(** X21. Removing a fragment removes that fragment and nothing else, and
    doing it again is harmless: on a list of distinct fragments,
    [removeFragment(f)] leaves the other fragments in their order, destroys
    [f] once if it was in the list, changes nothing at all if it was not,
    and a second call for the same fragment changes nothing. *)
Theorem remove_fragment_once (fragment : nat) (sc : SpawnSystem.Scene) (s : SpawnSystem.t) :
  NoDup (SpawnSystem.fragments s) →
  let st' := SpawnSystem.removeFragment fragment sc s in
  SpawnSystem.fragments st'.2 = filter (λ f, f ≠ fragment) (SpawnSystem.fragments s)
  ∧ (fragment ∈ SpawnSystem.fragments s →
     SpawnSystem.destroyed st'.1 = SpawnSystem.destroyed sc ++ [fragment]
     ∧ S (length (SpawnSystem.fragments st'.2)) = length (SpawnSystem.fragments s))
  ∧ (fragment ∉ SpawnSystem.fragments s → st' = (sc, s))
  ∧ SpawnSystem.removeFragment fragment st'.1 st'.2 = st'.
Proof.
  intros Hnd st'. unfold st', SpawnSystem.removeFragment.
  destruct (SpawnSystem.indexOf (SpawnSystem.fragments s) fragment) as [idx|] eqn:Hidx.
  - pose proof (indexOf_Some _ _ _ Hidx) as Hlookup. cbn [fst snd SpawnSystem.fragments
      SpawnSystem.with_fragments SpawnSystem.destroyed SpawnSystem.destroy_object].
    split_and!.
    + by apply delete_NoDup_filter.
    + intros _. split; [done|]. rewrite length_delete by (by eexists).
      apply lookup_lt_Some in Hlookup. lia.
    + intros Hout. destruct Hout. by eapply list_elem_of_lookup_2.
    + rewrite (proj2 (indexOf_None _ _)); [done|]. by apply elem_of_delete_NoDup.
  - pose proof (proj1 (indexOf_None _ _) Hidx) as Hout. cbn [fst snd]. split_and!.
    + by rewrite filter_other_absent.
    + done.
    + done.
    + by rewrite Hidx.
Qed.

(** ** Collecting fragments *)

Lemma removeFragment_present (fragment : nat) (sc : SpawnSystem.Scene) (s : SpawnSystem.t) :
  NoDup (SpawnSystem.fragments s) →
  fragment ∈ SpawnSystem.fragments s →
  SpawnSystem.removeFragment fragment sc s
  = (SpawnSystem.destroy_object fragment sc,
     SpawnSystem.with_fragments (filter (λ f, f ≠ fragment) (SpawnSystem.fragments s)) s).
Proof.
  intros Hnd Hin. unfold SpawnSystem.removeFragment.
  destruct (SpawnSystem.indexOf (SpawnSystem.fragments s) fragment) as [idx|] eqn:Hidx.
  - apply indexOf_Some in Hidx. by rewrite (delete_NoDup_filter _ idx fragment).
  - by apply indexOf_None in Hidx.
Qed.

Lemma collectFragment_spec (fragment : nat) (sc : SpawnSystem.Scene) (s : SpawnSystem.t) :
  NoDup (SpawnSystem.fragments s) →
  fragment ∈ SpawnSystem.fragments s →
  let st' := GameScene.collectFragment fragment sc s in
  SpawnSystem.fragments st'.2 = filter (λ f, f ≠ fragment) (SpawnSystem.fragments s)
  ∧ SpawnSystem.enemies st'.2 = SpawnSystem.enemies s
  ∧ GameState.score (SpawnSystem.gameState st'.1)
    = (GameState.score (SpawnSystem.gameState sc) + 1)%Z
  ∧ fragment ∈ SpawnSystem.destroyed st'.1
  ∧ (∀ o, o ∈ SpawnSystem.destroyed sc → o ∈ SpawnSystem.destroyed st'.1).
Proof.
  intros Hnd Hin st'. unfold st', GameScene.collectFragment, SpawnSystem.applySlowdown.
  cbn [SpawnSystem.allocate]. rewrite removeFragment_present by done.
  cbn [fst snd SpawnSystem.fragments SpawnSystem.with_fragments SpawnSystem.enemies].
  split_and!; [done..| | |].
  - by destruct (SpawnSystem._slowdownTimer s).
  - destruct (SpawnSystem._slowdownTimer s); cbn; mem_simpl; tauto.
  - intros o Ho. destruct (SpawnSystem._slowdownTimer s); cbn; mem_simpl; tauto.
Qed.

Lemma collect_overlapping_spec (overlap : nat → bool) (n : nat) :
  ∀ (sc : SpawnSystem.Scene) (s : SpawnSystem.t),
    NoDup (SpawnSystem.fragments s) →
    n ≤ length (SpawnSystem.fragments s) →
    ∃ sc' s',
      GameScene.collect_overlapping overlap n sc s = Some (sc', s')
      ∧ SpawnSystem.fragments s'
        = filter (λ f, overlap f = false) (take n (SpawnSystem.fragments s))
          ++ drop n (SpawnSystem.fragments s)
      ∧ SpawnSystem.enemies s' = SpawnSystem.enemies s
      ∧ GameState.score (SpawnSystem.gameState sc')
        = (GameState.score (SpawnSystem.gameState sc)
           + Z.of_nat (length (filter (λ f, overlap f = true)
                                 (take n (SpawnSystem.fragments s)))))%Z
      ∧ (∀ f, f ∈ take n (SpawnSystem.fragments s) → overlap f = true →
              f ∈ SpawnSystem.destroyed sc')
      ∧ (∀ o, o ∈ SpawnSystem.destroyed sc → o ∈ SpawnSystem.destroyed sc').
Proof.
  induction n as [|i IH]; intros sc s Hnd Hn.
  - exists sc, s. rewrite take_0, drop_0. cbn. split_and!; [done..|lia| |done].
    by intros f ?%elem_of_nil.
  - cbn [GameScene.collect_overlapping].
    destruct (lookup_lt_is_Some_2 (SpawnSystem.fragments s) i) as [f Hf]; [lia|]. rewrite Hf.
    assert (length (take i (SpawnSystem.fragments s)) = i) as Hlen
      by (rewrite length_take; lia).
    rewrite (take_S_r _ i f Hf), !filter_app.
    destruct (overlap f) eqn:Hoverlap.
    + pose proof (list_elem_of_lookup_2 _ _ _ Hf) as Hin.
      destruct (collectFragment_spec f sc s Hnd Hin) as (Hfr & Hen & Hscore & Hgone & Hkept).
      destruct (GameScene.collectFragment f sc s) as [sc1 s1]. cbn [fst snd] in *.
      rewrite <- (delete_NoDup_filter _ i f Hnd Hf) in Hfr.
      destruct (IH sc1 s1) as (sc' & s' & Hrun & Hfr' & Hen' & Hscore' & Hgone' & Hkept').
      { rewrite Hfr. by apply NoDup_delete. }
      { rewrite Hfr, length_delete by (by eexists). lia. }
      exists sc', s'. rewrite Hfr, delete_take_drop in Hfr', Hscore', Hgone'.
      rewrite take_app_length' in Hfr', Hscore', Hgone' by done.
      rewrite drop_app_length' in Hfr' by done.
      split_and!; [done| | | | |].
      * rewrite Hfr', filter_cons_False, filter_nil, app_nil_r; [done|]. by rewrite Hoverlap.
      * congruence.
      * rewrite Hscore', Hscore, filter_cons_True, filter_nil, length_app by done. cbn. lia.
      * intros f' [Hf'| ->%list_elem_of_singleton]%elem_of_app Ho; [by apply Hgone'|].
        by apply Hkept'.
      * intros o Ho. by apply Hkept', Hkept.
    + destruct (IH sc s Hnd) as (sc' & s' & Hrun & Hfr' & Hen' & Hscore' & Hgone' & Hkept');
        [lia|].
      exists sc', s'. split_and!; [done| |done| | |done].
      * rewrite Hfr', filter_cons_True, filter_nil, (drop_S _ f i Hf) by done.
        by rewrite <- app_assoc.
      * rewrite Hscore', filter_cons_False, filter_nil, app_nil_r; [done|]. by rewrite Hoverlap.
      * intros f' [Hf'| ->%list_elem_of_singleton]%elem_of_app Ho; [by apply Hgone'|].
        congruence.
Qed.

(** X22. One pass of the collection loop collects every fragment the
    player overlaps, once each: on a list of distinct fragments the loop
    completes (removing while walking backwards never reads past the end),
    the fragments left are those not overlapped, in order, every overlapped
    fragment is destroyed, the score grows by their number, and the enemy
    list is untouched. *)
Theorem overlapping_fragments_collected (overlap : nat → bool)
    (sc : SpawnSystem.Scene) (s : SpawnSystem.t) :
  NoDup (SpawnSystem.fragments s) →
  ∃ sc' s',
    GameScene.collect_overlapping overlap (length (SpawnSystem.fragments s)) sc s
    = Some (sc', s')
    ∧ SpawnSystem.fragments s' = filter (λ f, overlap f = false) (SpawnSystem.fragments s)
    ∧ GameState.score (SpawnSystem.gameState sc')
      = (GameState.score (SpawnSystem.gameState sc)
         + Z.of_nat (length (filter (λ f, overlap f = true) (SpawnSystem.fragments s))))%Z
    ∧ (∀ f, f ∈ SpawnSystem.fragments s → overlap f = true → f ∈ SpawnSystem.destroyed sc')
    ∧ SpawnSystem.enemies s' = SpawnSystem.enemies s.
Proof.
  intros Hnd.
  destruct (collect_overlapping_spec overlap (length (SpawnSystem.fragments s)) sc s Hnd)
    as (sc' & s' & Hrun & Hfr & Hen & Hscore & Hgone & _); [done|].
  rewrite firstn_all, drop_all, ?app_nil_r in *.
  exists sc', s'. by split_and!.
Qed.

(** ** Instances *)

Lemma best_score_is_highest_reached_witness :
  GameState.bestScore
    (GameState.run [GameState.call_addScore None; GameState.call_addScore (Some 2%Z);
                    GameState.call_reset; GameState.call_addScore None] GameState.new)
  = 3%Z.
Proof.
  exact (proj1 (best_score_is_highest_reached
                  [GameState.call_addScore None; GameState.call_addScore (Some 2%Z);
                   GameState.call_reset; GameState.call_addScore None])).
Defined.

Lemma update_removes_exactly_off_screen_witness :
  ∃ sc' s',
    SpawnSystem.update (λ e, bool_decide (SpawnSystem.enemy_id e = 7))
      fresh_scene
      (SpawnSystem.with_enemies
         [SpawnSystem.mkEnemy 6 SpawnSystem.DATA_STREAM;
          SpawnSystem.mkEnemy 7 SpawnSystem.CODE_BLOCK;
          SpawnSystem.mkEnemy 8 SpawnSystem.DATA_STREAM] two_fragments)
    = Some (sc', s')
    ∧ SpawnSystem.enemies s'
      = [SpawnSystem.mkEnemy 6 SpawnSystem.DATA_STREAM;
         SpawnSystem.mkEnemy 8 SpawnSystem.DATA_STREAM].
Proof.
  destruct (update_removes_exactly_off_screen
              (λ e, bool_decide (SpawnSystem.enemy_id e = 7)) fresh_scene
              (SpawnSystem.with_enemies
                 [SpawnSystem.mkEnemy 6 SpawnSystem.DATA_STREAM;
                  SpawnSystem.mkEnemy 7 SpawnSystem.CODE_BLOCK;
                  SpawnSystem.mkEnemy 8 SpawnSystem.DATA_STREAM] two_fragments))
    as (sc' & s' & Hrun & Hleft & _).
  exists sc', s'. split; [exact Hrun|exact Hleft].
Defined.

Lemma spawn_interval_schedule_witness :
  ∃ sc s,
    SpawnSystem.run [SpawnSystem.call_accelerate; SpawnSystem.call_spawnFragment;
                     SpawnSystem.call_accelerate] (SpawnSystem.constructor fresh_scene)
    = Some (sc, s)
    ∧ SpawnSystem.currentSpawnInterval s = 1170%Z.
Proof.
  destruct (spawn_interval_schedule fresh_scene
              [SpawnSystem.call_accelerate; SpawnSystem.call_spawnFragment;
               SpawnSystem.call_accelerate])
    as (sc & s & Hrun & _ & Hinterval & _).
  exists sc, s. split; [exact Hrun|exact Hinterval].
Defined.

Lemma singularity_nodes_wait_witness :
  ∃ sc s,
    SpawnSystem.run [SpawnSystem.call_accelerate] (SpawnSystem.constructor fresh_scene)
    = Some (sc, s)
    ∧ SpawnSystem._pickEnemyType (SpawnSystem.mkRoll true true) s
      ≠ SpawnSystem.SINGULARITY_NODE.
Proof.
  destruct (singularity_nodes_wait fresh_scene [SpawnSystem.call_accelerate])
    as (sc & s & Hrun & _ & Hpick).
  exists sc, s. split; [exact Hrun|]. intros Hsing. apply Hpick in Hsing as [Hticks _].
  vm_compute in Hticks. lia.
Defined.

Lemma fragments_capped_and_live_witness :
  ∃ sc s,
    SpawnSystem.run (replicate 7 SpawnSystem.call_spawnFragment)
      (SpawnSystem.constructor fresh_scene)
    = Some (sc, s)
    ∧ length (SpawnSystem.fragments s) ≤ 5.
Proof.
  destruct (fragments_capped_and_live fresh_scene (replicate 7 SpawnSystem.call_spawnFragment))
    as (sc & s & Hrun & Hlen & _).
  - intros o Ho. by apply elem_of_nil in Ho.
  - exists sc, s. split; [exact Hrun|exact Hlen].
Defined.

Lemma remove_fragment_once_witness :
  SpawnSystem.fragments (SpawnSystem.removeFragment 4 fresh_scene two_fragments).2 = [5].
Proof.
  refine (proj1 (remove_fragment_once 4 fresh_scene two_fragments _)).
  apply NoDup_cons. split; [|apply NoDup_singleton].
  intros H. apply list_elem_of_singleton in H. discriminate H.
Defined.

Lemma overlapping_fragments_collected_witness :
  ∃ sc' s',
    GameScene.collect_overlapping (λ f, bool_decide (f = 5)) 2 fresh_scene two_fragments
    = Some (sc', s')
    ∧ SpawnSystem.fragments s' = [4].
Proof.
  destruct (overlapping_fragments_collected (λ f, bool_decide (f = 5))
              fresh_scene two_fragments)
    as (sc' & s' & Hrun & Hleft & _).
  - apply NoDup_cons. split; [|apply NoDup_singleton].
    intros H. apply list_elem_of_singleton in H. discriminate H.
  - exists sc', s'. split; [exact Hrun|exact Hleft].
Defined.
